(** * Problem-statement processor: a shallow embedding and its properties

    The development follows the Python package [src/]:
    - [problem.py]   : the [Problem] dataclass and [Problem.create];
    - [mutation.py]  : [MutationHandler.load_prompt], [mutate], [add_constraints];
    - [processor.py] : [process_round], [evaluate_problem] and its three helpers;
    - [config.py]    : [Config.from_args];
    - [main.py]      : the run driver [main].

    Python objects live in a store ([heap]): a [Problem] is an object with
    mutable attributes, and its [mutations] attribute is a reference to a list
    object.  Everything the program gets from outside (the random generator,
    [uuid4], the clock, the prompt files, [str.format], the completion backend,
    [textstat], the disk) is read from an environment of oracles, so that a
    statement quantified over the environment holds for every outcome.

    Python floats are modelled by exact rationals ([Q]). *)

From Stdlib Require Import QArith Qminmax Qround Lqa Sorting.Sorted Ascii String.
From stdpp Require Import base tactics option list strings gmap.

Local Open Scope string_scope.
Local Open Scope list_scope.

(** ** Python strings (code points below 256) *)

Module PyStr.

(** [str.isspace] on one code point: U+0009..U+000D, U+001C..U+001F,
    U+0020, U+0085 and U+00A0. *)
Definition is_space (c : ascii) : bool :=
  let n := nat_of_ascii c in
  (((9 <=? n) && (n <=? 13)) || ((28 <=? n) && (n <=? 32))
   || (n =? 133) || (n =? 160))%nat.

Definition is_empty (s : string) : bool :=
  match s with EmptyString => true | String _ _ => false end.

(** [s.split()] with no separator: maximal runs of non-whitespace. *)
Fixpoint split_go (word : string) (s : string) : list string :=
  match s with
  | EmptyString => if is_empty word then [] else [word]
  | String c s' =>
      if is_space c
      then (if is_empty word then split_go "" s' else word :: split_go "" s')
      else split_go (word +:+ String c "") s'
  end.

Definition split (s : string) : list string := split_go "" s.

Fixpoint lstrip (s : string) : string :=
  match s with
  | EmptyString => ""
  | String c s' => if is_space c then lstrip s' else s
  end.

Fixpoint rstrip (s : string) : string :=
  match s with
  | EmptyString => ""
  | String c s' =>
      let r := rstrip s' in
      if is_space c && is_empty r then "" else String c r
  end.

(** [s.strip()] *)
Definition strip (s : string) : string := rstrip (lstrip s).

Fixpoint starts_with (pat s : string) : bool :=
  match pat, s with
  | EmptyString, _ => true
  | String _ _, EmptyString => false
  | String a pat', String b s' => Ascii.eqb a b && starts_with pat' s'
  end.

(** [s.count(pat)] for a non-empty [pat]: occurrences are counted from the
    left and do not overlap; [skip] is the number of characters of the last
    match still to be passed over. *)
Fixpoint count_go (pat : string) (skip : nat) (s : string) : nat :=
  match s with
  | EmptyString => 0
  | String _ s' =>
      match skip with
      | S k => count_go pat k s'
      | O =>
          if starts_with pat s
          then S (count_go pat (String.length pat - 1) s')
          else count_go pat 0 s'
      end
  end.

Definition count (s pat : string) : nat := count_go pat 0 s.

(** [c.lower()] on one code point: A..Z, and the Latin-1 capitals
    U+00C0..U+00DE without the multiplication sign U+00D7. *)
Definition lower_char (c : ascii) : ascii :=
  let n := nat_of_ascii c in
  if (((65 <=? n) && (n <=? 90))
      || ((192 <=? n) && (n <=? 222) && negb (n =? 215)))%nat
  then ascii_of_nat (n + 32) else c.

Fixpoint lower (s : string) : string :=
  match s with
  | EmptyString => ""
  | String c s' => String (lower_char c) (lower s')
  end.

(** [w in words] for a list of strings. *)
Definition mem (w : string) (words : list string) : bool :=
  existsb (String.eqb w) words.

End PyStr.

(** ** Python numbers *)

(** [n / d] on an [int] and a literal: true division. *)
Definition int_div (n : nat) (d : Z) : Q := (inject_Z (Z.of_nat n) / inject_Z d)%Q.

(** [min(a, b)]: the first argument unless the second is strictly smaller. *)
Definition py_min (a b : Q) : Q := if Qlt_le_dec b a then b else a.

(** [sum(xs)]: left to right from [0]. *)
Definition py_sum (xs : list Q) : Q := fold_left Qplus xs 0%Q.

(** [xs[:k]] for an [int] [k]: a negative [k] counts from the end. *)
Definition slice_to {A} (k : Z) (xs : list A) : list A :=
  if (0 <=? k)%Z then take (Z.to_nat k) xs
  else take (Z.to_nat (Z.of_nat (length xs) + k)) xs.

(** ** Stable descending sort: [sorted(xs, key=..., reverse=True)]

    The keys are computed once, the order among equal keys is the order of
    the input. *)
Section Sorted.
Context {A : Type}.

Fixpoint insert_desc (x : Q * A) (l : list (Q * A)) : list (Q * A) :=
  match l with
  | [] => [x]
  | y :: l' =>
      if Qle_bool (fst y) (fst x) then x :: y :: l'
      else y :: insert_desc x l'
  end.

Fixpoint sort_desc (l : list (Q * A)) : list (Q * A) :=
  match l with
  | [] => []
  | x :: l' => insert_desc x (sort_desc l')
  end.

Definition key_ge (x y : Q * A) : Prop := (fst y <= fst x)%Q.
End Sorted.

(** ** Data model *)

(** A [uuid.UUID] is a 128-bit number. *)
Definition UUID := N.

(** A reference to an object in the store. *)
Definition loc := nat.

(** The [Problem] dataclass of [problem.py].  [mutations] refers to a list
    object; the other attributes hold immutable values. *)
Record Problem := mkProblem {
  id : UUID;
  content : string;
  score : Q;
  parent_id : option UUID;
  mutations : loc;
  created_at : Z;
}.

Definition set_score (s : Q) (p : Problem) : Problem :=
  mkProblem (id p) (content p) s (parent_id p) (mutations p) (created_at p).

Definition set_mutations (m : loc) (p : Problem) : Problem :=
  mkProblem (id p) (content p) (score p) (parent_id p) m (created_at p).

Inductive Obj :=
| ObjList (items : list string)
| ObjProblem (p : Problem).

(** The store: the address of an object is its position, and a new object is
    put at the end. *)
Abbreviation heap := (list Obj).

(** Exceptions: the class and [str(e)]. *)
Inductive exn_class :=
| FileNotFoundError | RuntimeError | ValueError | IndexError | KeyError
| OSError | ProcessingError | ConfigurationError | MutationError
| ResourceError | ValidationError
| SystemError.

Record exn := mkExn { exn_type : exn_class; exn_str : string }.

Inductive result (A : Type) :=
| Ok (a : A)
| Raise (e : exn).
Arguments Ok {A} a.
Arguments Raise {A} e.

(** The reply of [openai.ChatCompletion.acreate], as far as [mutate] reads
    it: [response['choices'][i]['message']['content']]. *)
Record ChatMessage := mkChatMessage { msg_content : string }.
Record Choice := mkChoice { message : ChatMessage }.
Record Response := mkResponse { choices : list Choice }.

(** A piece of an f-string. *)
Inductive Frag :=
| Lit (s : string)
| Int (z : Z)
| Uid (u : UUID).

Definition Text := list Frag.

Record LeaderboardEntry := mkEntry {
  entry_id : UUID;
  entry_score : Q;
  entry_mutations : list string;
}.

(** What a run does to the outside, in order. *)
Inductive Event :=
| LogInfo (msg : Text)
| LogError (msg : Text)
| Print (msg : Text)
| MutateCalled (problem : loc) (mutation_type : string)
| ChatRequest (model system user : string)
| FileWritten (path : Text) (text : string)
| LeaderboardWritten (path : string) (timestamp : Z) (round_number : Z)
                     (problems : list LeaderboardEntry).

(** The program state: the store, the state of module [random] (its seed and
    the number of draws since seeding), the number of calls made to the other
    oracles, and the events so far (latest last). *)
Record World := mkWorld {
  objects : heap;
  rng_seed : Z;
  rng_pos : nat;
  ticks : nat;
  trace : list Event;
}.

(** The outside world.  Each oracle is a function of what the program passes
    and, where the answer may change from call to call, of the call's number. *)
Record Env := mkEnv {
  (** the [n]-th number drawn from [random] after [random.seed(seed)] *)
  random_bits : Z -> nat -> nat;
  uuid4 : nat -> UUID;
  datetime_now : nat -> Z;
  (** [path.read_text()], when a file exists at [path] *)
  read_text : nat -> string -> option string;
  (** [template.format(problem=text)] *)
  str_format : string -> string -> result string;
  (** [openai.ChatCompletion.acreate(model, messages=[system, user])] *)
  chat_completion : nat -> string -> string -> string -> result Response;
  (** [textstat.flesch_reading_ease] *)
  flesch_reading_ease : string -> Q;
  (** whether a write to the disk goes through *)
  disk_write : nat -> option exn;
  (** the lines of [problems/problems.txt], when the file exists *)
  problems_txt : option (list string);
}.

(** [argparse]'s namespace, and the [Config] dataclass of [config.py]. *)
Record Args := mkArgs {
  arg_seed : Z;
  arg_agent : string;
  arg_num_rounds : Z;
  arg_num_problems : Z;
  arg_topk_problems : Z;
  arg_mutate_on_start : bool;
  arg_openai_api_key : string;
}.

Record Config := mkConfig {
  seed : Z;
  agent : string;
  num_rounds : Z;
  num_problems : Z;
  topk_problems : Z;
  mutate_on_start : bool;
  openai_api_key : string;
  current_round : Z;
}.

(** ** Computations: state and exceptions

    A computation runs on a [World] and returns a value or raises; the changes
    made to the world before an exception are kept, as in Python. *)
Definition M (A : Type) : Type := World -> result A * World.

Definition ret {A} (a : A) : M A := fun w => (Ok a, w).

Definition raise {A} (e : exn) : M A := fun w => (Raise e, w).

Definition bind {A B} (m : M A) (k : A -> M B) : M B :=
  fun w => match m w with
           | (Ok a, w') => k a w'
           | (Raise e, w') => (Raise e, w')
           end.

(** [try: m except Exception as e: h e] *)
Definition try_except {A} (m : M A) (h : exn -> M A) : M A :=
  fun w => match m w with
           | (Ok a, w') => (Ok a, w')
           | (Raise e, w') => h e w'
           end.

(** [m] run to its outcome, which is handed on as a value. *)
Definition attempt {A} (m : M A) : M (result A) :=
  fun w => match m w with (r, w') => (Ok r, w') end.

Declare Scope py_scope.
Delimit Scope py_scope with py.
Notation "x <- m ;; k" := (bind m (fun x => k))
  (at level 100, m at next level, right associativity) : py_scope.
Notation "m ;; k" := (bind m (fun _ => k))
  (at level 100, right associativity) : py_scope.
Local Open Scope py_scope.

Definition emit (e : Event) : M unit :=
  fun w => (Ok tt, mkWorld (objects w) (rng_seed w) (rng_pos w) (ticks w)
                           (trace w ++ [e])).

(** The number of the next oracle call. *)
Definition tick : M nat :=
  fun w => (Ok (ticks w), mkWorld (objects w) (rng_seed w) (rng_pos w)
                                  (S (ticks w)) (trace w)).

(** A new object. *)
Definition alloc (o : Obj) : M loc :=
  fun w => (Ok (length (objects w)),
            mkWorld (objects w ++ [o]) (rng_seed w) (rng_pos w) (ticks w)
                    (trace w)).

(** Reading through a reference.  A reference of a running program always
    leads to an object of the expected class; the exception covers the stores
    that no run produces. *)
Definition bad_reference : exn := mkExn SystemError "bad reference".

Definition read_problem (a : loc) : M Problem :=
  fun w => match objects w !! a with
           | Some (ObjProblem p) => (Ok p, w)
           | _ => (Raise bad_reference, w)
           end.

Definition read_list (a : loc) : M (list string) :=
  fun w => match objects w !! a with
           | Some (ObjList l) => (Ok l, w)
           | _ => (Raise bad_reference, w)
           end.

(** [problem.attr = v]: the object at [a] is replaced by [f] of itself. *)
Definition update_problem (a : loc) (f : Problem -> Problem) : M unit :=
  fun w => match objects w !! a with
           | Some (ObjProblem p) =>
               (Ok tt, mkWorld (<[a := ObjProblem (f p)]> (objects w))
                               (rng_seed w) (rng_pos w) (ticks w) (trace w))
           | _ => (Raise bad_reference, w)
           end.

Definition getattr {A} (field : Problem -> A) (a : loc) : M A :=
  p <- read_problem a;; ret (field p).

(** An oracle's answer, as a computation. *)
Definition lift {A} (r : result A) : M A :=
  match r with Ok a => ret a | Raise e => raise e end.

Section Program.
Context (env : Env).

(** ** Module [random] *)

Definition next_random : M nat :=
  fun w => (Ok (random_bits env (rng_seed w) (rng_pos w)),
            mkWorld (objects w) (rng_seed w) (S (rng_pos w)) (ticks w)
                    (trace w)).

(** [random.seed(s)] *)
Definition random_seed (s : Z) : M unit :=
  fun w => (Ok tt, mkWorld (objects w) s 0 (ticks w) (trace w)).

(** A number below [n], for [0 < n]. *)
Definition randbelow (n : nat) : M nat :=
  r <- next_random;; ret (r mod n).

(** [random.choice(seq)] *)
Definition random_choice {A} (seq : list A) : M A :=
  match seq with
  | [] => raise (mkExn IndexError "Cannot choose from an empty sequence")
  | _ :: _ =>
      i <- randbelow (length seq);;
      match seq !! i with
      | Some x => ret x
      | None => raise (mkExn IndexError "list index out of range")
      end
  end.

(** The draws of [random.sample]: [k] times, an element is taken from a
    random position of the pool and leaves the pool. *)
Fixpoint sample_pool {A} (pool : list A) (k : nat) : M (list A) :=
  match k with
  | O => ret []
  | S k' =>
      j <- randbelow (length pool);;
      match pool !! j with
      | Some x => rest <- sample_pool (delete j pool) k';; ret (x :: rest)
      | None => raise (mkExn IndexError "list index out of range")
      end
  end.

(** [random.sample(population, k)] *)
Definition random_sample {A} (population : list A) (k : Z) : M (list A) :=
  if ((0 <=? k) && (k <=? Z.of_nat (length population)))%Z
  then sample_pool population (Z.to_nat k)
  else raise (mkExn ValueError "Sample larger than population or is negative").

(** ** [problem.py] *)

(** The generated [__init__] followed by [__post_init__]: a missing
    [mutations] becomes a new empty list, a missing [created_at] the current
    time. *)
Definition Problem_init (id : UUID) (content : string) (score : Q)
    (parent_id : option UUID) (mutations : option loc)
    (created_at : option Z) : M loc :=
  mutations' <- match mutations with
                | None => alloc (ObjList [])
                | Some m => ret m
                end;;
  created_at' <- match created_at with
                 | None => n <- tick;; ret (datetime_now env n)
                 | Some t => ret t
                 end;;
  alloc (ObjProblem (mkProblem id content score parent_id mutations'
                               created_at')).

(** [Problem.create(content, parent_id=None)] *)
Definition Problem_create (content : string) (parent_id : option UUID)
    : M loc :=
  n <- tick;;
  Problem_init (uuid4 env n) content 0 parent_id None None.

(** ** [mutation.py] *)

Definition prompt_dir : string := "output/prompts/mutations".

(** [MutationHandler.load_prompt] *)
Definition load_prompt (mutation_type : string) : M string :=
  let prompt_path := prompt_dir +:+ "/" +:+ mutation_type +:+ ".txt" in
  n <- tick;;
  match read_text env n prompt_path with
  | None =>
      raise (mkExn FileNotFoundError
                   ("Prompt file not found: " +:+ prompt_path))
  | Some text => ret text
  end.

(** [response['choices'][0]['message']['content']] *)
Definition first_completion (response : Response) : M string :=
  match choices response !! 0 with
  | Some choice => ret (msg_content (message choice))
  | None => raise (mkExn IndexError "list index out of range")
  end.

Definition mutation_failed {A} (e : exn) : M A :=
  raise (mkExn RuntimeError ("Mutation failed: " +:+ exn_str e)).

(** [MutationHandler.mutate] *)
Definition mutate (cfg : Config) (problem : loc) (mutation_type : string)
    : M loc :=
  prompt_template <- load_prompt mutation_type;;
  text <- getattr content problem;;
  prompt <- lift (str_format env prompt_template text);;
  try_except
    (user <- getattr content problem;;
     n <- tick;;
     emit (ChatRequest (agent cfg) prompt user);;
     response <- lift (chat_completion env n (agent cfg) prompt user);;
     new_content <- first_completion response;;
     parent <- getattr id problem;;
     new_problem <- Problem_create new_content (Some parent);;
     history <- getattr mutations problem;;
     labels <- read_list history;;
     extended <- alloc (ObjList (labels ++ [mutation_type]));;
     update_problem new_problem (set_mutations extended);;
     ret new_problem)
    mutation_failed.

(** The class attribute [MutationHandler.mutation_types]. *)
Definition handler_mutation_types : list string :=
  ["rephrase"; "expand"; "simplify"; "add_constraints"].

(** [MutationHandler.add_constraints] *)
Definition add_constraints (cfg : Config) (problem : loc) : M loc :=
  prompt_template <- load_prompt "add_constraints";;
  text <- getattr content problem;;
  prompt <- lift (str_format env prompt_template text);;
  try_except
    (user <- getattr content problem;;
     n <- tick;;
     emit (ChatRequest (agent cfg) prompt user);;
     response <- lift (chat_completion env n (agent cfg) prompt user);;
     new_content <- first_completion response;;
     parent <- getattr id problem;;
     new_problem <- Problem_create new_content (Some parent);;
     history <- getattr mutations problem;;
     labels <- read_list history;;
     extended <- alloc (ObjList (labels ++ ["add_constraints"]));;
     update_problem new_problem (set_mutations extended);;
     ret new_problem)
    mutation_failed.

(** ** [processor.py] *)

(** [ProblemProcessor.__init__]: the handler keeps the configuration, the
    generator is seeded (the log file set up there is not modelled). *)
Definition ProblemProcessor_init (cfg : Config) : M unit :=
  random_seed (seed cfg).

(** One operation on the disk: it goes through or raises. *)
Definition disk_op : M unit :=
  n <- tick;;
  match disk_write env n with
  | Some e => raise e
  | None => ret tt
  end.

(** [ProblemProcessor.save_problem] *)
Definition save_problem (problem : loc) : M unit :=
  disk_op;;   (* output_dir.mkdir(exist_ok=True) *)
  ident <- getattr id problem;;
  let output_path := [Lit "output/"; Uid ident; Lit ".txt"] in
  disk_op;;   (* open(output_path, "w") *)
  text <- getattr content problem;;
  emit (FileWritten output_path text).

Definition technical_terms : list string :=
  ["implement"; "design"; "optimize"; "algorithm"; "system"].

(** [ProblemProcessor._calculate_complexity] *)
Definition _calculate_complexity (problem : loc) : M Q :=
  text <- getattr content problem;;
  let words := PyStr.split text in
  let word_count := length words in
  let length_score := py_min (int_div word_count 100) 1 in
  let tech_score :=
    int_div (sum_list (map (fun _ => 1%nat)
                           (filter (fun word => PyStr.mem (PyStr.lower word)
                                                  technical_terms = true)
                                   words)))
            (Z.of_nat (length technical_terms)) in
  text' <- getattr content problem;;
  let nested_score := int_div (PyStr.count text' (String "010" "- ")) 10 in
  ret ((length_score + tech_score + nested_score) / 3)%Q.

(** [ProblemProcessor._calculate_clarity] *)
Definition _calculate_clarity (problem : loc) : M Q :=
  text <- getattr content problem;;
  let readability := (flesch_reading_ease env text / 100)%Q in
  text1 <- getattr content problem;;
  let paragraphs :=
    (PyStr.count text1 (String "010" (String "010" "")) + 1)%nat in
  let structure_score := py_min (int_div paragraphs 5) 1 in
  text2 <- getattr content problem;;
  text3 <- getattr content problem;;
  let format_score :=
    if String.eqb (PyStr.strip text2) text3 then 1%Q else (8 # 10)%Q in
  ret ((readability + structure_score + format_score) / 3)%Q.

(** [ProblemProcessor._calculate_diversity] *)
Definition _calculate_diversity (problem : loc) : M Q :=
  history <- getattr mutations problem;;
  labels <- read_list history;;
  let mutation_variety := size (list_to_set (C := gset string) labels) in
  ret (py_min (int_div mutation_variety 3) 1).

(** [ProblemProcessor.evaluate_problem]: the dictionary [factors] keeps its
    four entries in the order they are written. *)
Definition evaluate_problem (problem : loc) : M Q :=
  complexity <- _calculate_complexity problem;;
  clarity <- _calculate_clarity problem;;
  diversity <- _calculate_diversity problem;;
  history <- getattr mutations problem;;
  labels <- read_list history;;
  let factors : list (string * Q) :=
    [("complexity", complexity); ("clarity", clarity);
     ("diversity", diversity);
     ("mutation_quality", int_div (length labels) 10)] in
  ret (py_sum (map snd factors) / inject_Z (Z.of_nat (length factors)))%Q.

(** [[f(x) for x in xs]], left to right. *)
Fixpoint map_M {A B} (f : A -> M B) (xs : list A) : M (list B) :=
  match xs with
  | [] => ret []
  | x :: xs' => y <- f x;; ys <- map_M f xs';; ret (y :: ys)
  end.

(** [sorted(problems, key=lambda x: x.score, reverse=True)] *)
Definition sorted_by_score (problems : list loc) : M (list loc) :=
  keyed <- map_M (fun x => s <- getattr score x;; ret (s, x)) problems;;
  ret (map snd (sort_desc keyed)).

(** The list [mutation_types] local to [process_round]. *)
Definition round_mutation_types : list string :=
  ["rephrase"; "expand"; "simplify"].

(** The handler of the loop: [print(f"Error processing problem ...")]. *)
Definition report_error (problem : loc) (e : exn) : M unit :=
  ident <- getattr id problem;;
  emit (Print [Lit "Error processing problem "; Uid ident; Lit ": ";
               Lit (exn_str e)]).

(** One turn of the [for problem in selected_problems] loop of
    [process_round], with the list [new_problems] built so far.  The [try]
    block appends the child before it saves it, so an exception raised by
    [save_problem] leaves the child in the list: the block is split at the
    [append].  The progress bar is not modelled; [MutateCalled] records the
    call of [mutation_handler.mutate]. *)
Definition mutation_step (cfg : Config) (mutation_types : list string)
    (problem : loc) (new_problems : list loc) : M (list loc) :=
  mutation_type <- random_choice mutation_types;;
  emit (MutateCalled problem mutation_type);;
  scored <- attempt
              (new_problem <- mutate cfg problem mutation_type;;
               s <- evaluate_problem new_problem;;
               update_problem new_problem (set_score s);;
               ret new_problem);;
  match scored with
  | Ok new_problem =>
      try_except (save_problem new_problem) (report_error problem);;
      ret (new_problems ++ [new_problem])
  | Raise e => report_error problem e;; ret new_problems
  end.

Fixpoint mutation_loop (cfg : Config) (mutation_types : list string)
    (selected_problems : list loc) (new_problems : list loc)
    : M (list loc) :=
  match selected_problems with
  | [] => ret new_problems
  | problem :: rest =>
      new_problems' <- mutation_step cfg mutation_types problem new_problems;;
      mutation_loop cfg mutation_types rest new_problems'
  end.

(** The second loop of [process_round]: a problem whose score is [0] is
    scored. *)
Fixpoint score_unscored (problems : list loc) : M unit :=
  match problems with
  | [] => ret tt
  | problem :: rest =>
      s <- getattr score problem;;
      (if Qeq_bool s 0
       then v <- evaluate_problem problem;;
            update_problem problem (set_score v)
       else ret tt);;
      score_unscored rest
  end.

(** [ProblemProcessor.process_round] *)
Definition process_round (cfg : Config) (problems : list loc)
    : M (list loc) :=
  emit (LogInfo [Lit "Starting processing round with ";
                 Int (Z.of_nat (length problems)); Lit " problems"]);;
  selected_problems <-
    random_sample problems
                  (Z.min (num_problems cfg) (Z.of_nat (length problems)));;
  let mutation_types := round_mutation_types in
  new_problems <- mutation_loop cfg mutation_types selected_problems [];;
  emit (LogInfo [Lit "Round completed. Generated ";
                 Int (Z.of_nat (length new_problems));
                 Lit " new variants"]);;
  score_unscored problems;;
  ranked <- sorted_by_score (new_problems ++ problems);;
  ret (slice_to (topk_problems cfg) ranked).

(** [ProblemProcessor.load_problems]: one problem for each line that is not
    blank, without the white space around it. *)
Definition load_problems : M (list loc) :=
  match problems_txt env with
  | None => raise (mkExn FileNotFoundError "problems.txt not found")
  | Some lines =>
      map_M (fun line => Problem_create (PyStr.strip line) None)
            (filter (fun line => PyStr.is_empty (PyStr.strip line) = false)
                    lines)
  end.

(** ** [config.py] *)

(** [Config.from_args] *)
Definition from_args (args : Args) : result Config :=
  if (arg_num_rounds args <? 1)%Z
  then Raise (mkExn ValidationError "num_rounds must be positive")
  else if (arg_num_problems args <? 1)%Z
  then Raise (mkExn ValidationError "num_problems must be positive")
  else if (arg_topk_problems args <? 1)%Z
  then Raise (mkExn ValidationError "topk_problems must be positive")
  else if (arg_topk_problems args >? arg_num_problems args)%Z
  then Raise (mkExn ValidationError
                    "topk_problems cannot exceed num_problems")
  else Ok (mkConfig (arg_seed args) (arg_agent args) (arg_num_rounds args)
                    (arg_num_problems args) (arg_topk_problems args)
                    (arg_mutate_on_start args) (arg_openai_api_key args) 0).

(** [Config.save_leaderboard], with its default path. *)
Definition save_leaderboard (cfg : Config) (problems : list loc) : M unit :=
  n <- tick;;
  let timestamp := datetime_now env n in
  ranked <- sorted_by_score problems;;
  entries <- map_M (fun p =>
                      ident <- getattr id p;;
                      s <- getattr score p;;
                      history <- getattr mutations p;;
                      labels <- read_list history;;
                      ret (mkEntry ident s labels)) ranked;;
  disk_op;;
  emit (LeaderboardWritten "leaderboard.yaml" timestamp (current_round cfg)
                           entries).

(** ** [main.py] *)

(** The [for round_num in range(config.num_rounds)] loop, [todo] rounds
    before its end. *)
Fixpoint rounds_loop (cfg : Config) (todo : nat) (round_num : Z)
    (problems : list loc) : M (list loc) :=
  match todo with
  | O => ret problems
  | S todo' =>
      emit (Print [Lit "Processing round "; Int (round_num + 1); Lit "/";
                   Int (num_rounds cfg)]);;
      problems' <- process_round cfg problems;;
      save_leaderboard cfg problems';;
      rounds_loop cfg todo' (round_num + 1) problems'
  end.

(** The [try] block of [main], from the parsed arguments on. *)
Definition main_body (args : Args) : M unit :=
  config <- lift (from_args args);;
  ProblemProcessor_init config;;
  problems <- load_problems;;
  problems1 <- (if mutate_on_start config
                then process_round config problems
                else ret problems);;
  rounds_loop config (Z.to_nat (num_rounds config)) 0 problems1;;
  ret tt.

(** The [except] clauses of [main], in their order. *)
Definition error_label (c : exn_class) : string :=
  match c with
  | ConfigurationError => "Configuration error: "
  | MutationError => "Mutation error: "
  | ResourceError => "Resource error: "
  | ValidationError => "Validation error: "
  | _ => "Unexpected error: "
  end.

(** [main]: the exit code and the final state. *)
Definition main (args : Args) (w : World) : Z * World :=
  match main_body args w with
  | (Ok _, w') => (0%Z, w')
  | (Raise e, w') =>
      (1%Z, snd (emit (LogError [Lit (error_label (exn_type e));
                                 Lit (exn_str e)]) w'))
  end.

End Program.

(** ** The states a call of [mutate] leads to *)

Section Outcomes.
Context (env : Env).

(** After [k] more calls to the oracles. *)
Definition later (k : nat) (w : World) : World :=
  mkWorld (objects w) (rng_seed w) (rng_pos w) (k + ticks w) (trace w).

(** After the prompt was read and the request sent. *)
Definition after_request (cfg : Config) (prompt user : string) (w : World)
    : World :=
  mkWorld (objects w) (rng_seed w) (rng_pos w) (2 + ticks w)
          (trace w ++ [ChatRequest (agent cfg) prompt user]).

(** The child made from [p] and the completion [text], in the state [w] of
    the call. *)
Definition child_of (p : Problem) (text : string) (w : World) : Problem :=
  mkProblem (uuid4 env (2 + ticks w)) text 0 (Some (id p))
            (2 + length (objects w))
            (datetime_now env (3 + ticks w)).

(** After a successful call: the store has three more objects, the list
    [Problem.create] made, the child, and the child's mutation list. *)
Definition after_mutation (cfg : Config) (p : Problem)
    (labels : list string) (prompt mutation_type text : string) (w : World)
    : World :=
  mkWorld (objects w ++ [ObjList []; ObjProblem (child_of p text w);
                         ObjList (labels ++ [mutation_type])])
          (rng_seed w) (rng_pos w) (4 + ticks w)
          (trace w ++ [ChatRequest (agent cfg) prompt (content p)]).

End Outcomes.

(** ** Observations of the state *)

(** [a] refers to a problem [p] whose mutation list holds [labels]. *)
Definition problem_at (h : heap) (a : loc) (p : Problem)
    (labels : list string) : Prop :=
  h !! a = Some (ObjProblem p) /\ h !! mutations p = Some (ObjList labels).

Definition is_problem (h : heap) (a : loc) : Prop :=
  exists p labels, problem_at h a p labels.

(** The calls of [mutate] recorded in a trace. *)
Definition mutate_calls (events : list Event) : list (loc * string) :=
  omap (fun ev => match ev with
                  | MutateCalled problem mutation_type =>
                      Some (problem, mutation_type)
                  | _ => None
                  end) events.

(** [h'] is [h] after some objects were added and some problems scored. *)
Definition rescored (h h' : heap) : Prop :=
  length h <= length h'
  /\ forall a o, h !! a = Some o ->
       match o with
       | ObjList items => h' !! a = Some (ObjList items)
       | ObjProblem p => exists s, h' !! a = Some (ObjProblem (set_score s p))
       end.

(** The problems of [l] are in descending order of score. *)
Definition sorted_by_score_desc (h : heap) (l : list loc) : Prop :=
  forall i j a b pa pb,
    i <= j -> l !! i = Some a -> l !! j = Some b ->
    h !! a = Some (ObjProblem pa) -> h !! b = Some (ObjProblem pb) ->
    (score pb <= score pa)%Q.

(** [mutate] raises, whatever it is called on. *)
Definition mutation_always_fails (env : Env) (cfg : Config) : Prop :=
  forall problem mutation_type w,
    exists e w', mutate env cfg problem mutation_type w = (Raise e, w').

(** [m] leaves the observation [f] of the state as it was. *)
Definition preserves {A B} (f : World -> B) (m : M A) : Prop :=
  forall w, f (snd (m w)) = f w.

(** The calls of [mutate] made so far. *)
Definition calls_of (w : World) : list (loc * string) :=
  mutate_calls (trace w).

(** The score of the problem at [a]. *)
Definition score_at (h : heap) (a : loc) : Q :=
  match h !! a with
  | Some (ObjProblem p) => score p
  | _ => 0%Q
  end.

(** ** The scorer on a well-formed problem

    [evaluate_problem] only reads the store; what it returns is a function of
    the problem's content and of the labels of its mutation list. *)

Definition complexity_value (text : string) : Q :=
  let words := PyStr.split text in
  ((py_min (int_div (length words) 100) 1
    + int_div (sum_list (map (fun _ => 1%nat)
                             (filter (fun word => PyStr.mem (PyStr.lower word)
                                                    technical_terms = true)
                                     words)))
              (Z.of_nat (length technical_terms))
    + int_div (PyStr.count text (String "010" "- ")) 10) / 3)%Q.

Definition clarity_value (env : Env) (text : string) : Q :=
  ((flesch_reading_ease env text / 100
    + py_min (int_div (PyStr.count text (String "010" (String "010" "")) + 1)
                      5) 1
    + (if String.eqb (PyStr.strip text) text then 1 else 8 # 10)) / 3)%Q.

Definition diversity_value (labels : list string) : Q :=
  py_min (int_div (size (list_to_set (C := gset string) labels)) 3) 1.

Definition score_value (env : Env) (text : string) (labels : list string)
    : Q :=
  (py_sum [complexity_value text; clarity_value env text;
           diversity_value labels; int_div (length labels) 10]
   / inject_Z 4)%Q.

(** ** The scoring formula as the specification words it

    score = average of complexity, clarity, diversity and mutation quality. *)
Module Spec.

Definition word_count (text : string) : nat := length (PyStr.split text).

(** The words that match the vocabulary once put in lower case. *)
Definition tech_term_count (text : string) : nat :=
  length (filter (fun word => PyStr.lower word ∈ technical_terms)
                 (PyStr.split text)).

Definition complexity (text : string) : Q :=
  ((Qmin (Z.of_nat (word_count text) # 100) 1
    + (Z.of_nat (tech_term_count text) # 5)
    + (Z.of_nat (PyStr.count text (String "010" "- ")) # 10)) / 3)%Q.

Definition clarity (env : Env) (text : string) : Q :=
  ((flesch_reading_ease env text / 100
    + Qmin (Z.of_nat (PyStr.count text (String "010" (String "010" "")) + 1)
            # 5) 1
    + (if decide (text = PyStr.strip text) then 1 else 8 # 10)) / 3)%Q.

Definition diversity (labels : list string) : Q :=
  Qmin (Z.of_nat (length (remove_dups labels)) # 3) 1.

Definition mutation_quality (labels : list string) : Q :=
  Z.of_nat (length labels) # 10.

Definition score (env : Env) (text : string) (labels : list string) : Q :=
  ((complexity text + clarity env text + diversity labels
    + mutation_quality labels) / 4)%Q.

End Spec.

(** ** A concrete environment and stores, for the examples *)

(** Every prompt file exists, formatting puts the text after the template,
    the backend answers with one completion, every text reads at 50. *)
Definition demo_env : Env :=
  mkEnv (fun _ n => n) (fun n => N.of_nat n) (fun n => Z.of_nat n)
        (fun _ _ => Some "Rewrite this problem: ")
        (fun template text => Ok (template +:+ text))
        (fun _ _ _ user =>
           Ok (mkResponse [mkChoice (mkChatMessage ("Mutated " +:+ user))]))
        (fun _ => 50%Q)
        (fun _ => None)
        (Some ["Problem 1"; "Problem 2"; "Problem 3"]).

(** No prompt file exists: every mutation fails in [load_prompt]. *)
Definition broken_env : Env :=
  mkEnv (fun _ n => n) (fun n => N.of_nat n) (fun n => Z.of_nat n)
        (fun _ _ => None)
        (fun template text => Ok (template +:+ text))
        (fun _ _ _ user =>
           Ok (mkResponse [mkChoice (mkChatMessage ("Mutated " +:+ user))]))
        (fun _ => 50%Q)
        (fun _ => None)
        (Some ["Problem 1"; "Problem 2"; "Problem 3"]).

Definition demo_seed : Problem :=
  mkProblem 7%N "Design a system" 0 None 0 0.

(** Same content and history as [demo_seed], the rest differs. *)
Definition demo_twin : Problem :=
  mkProblem 8%N "Design a system" (1 # 2) (Some 7%N) 2 5.

Definition demo_world : World :=
  mkWorld [ObjList ["rephrase"]; ObjProblem demo_seed;
           ObjList ["rephrase"]; ObjProblem demo_twin] 42 0 0 [].

Definition long_lineage_world : World :=
  mkWorld [ObjList (replicate 40 "rephrase");
           ObjProblem (mkProblem 1%N "Problem 1" 0 None 0 0)] 42 0 0 [].

Definition empty_world : World := mkWorld [] 0 0 0 [].

(** The arguments [--num_rounds 5 --num_problems 2 --topk_problems 2], and
    the configuration [Config.from_args] makes of them. *)
Definition demo_args : Args := mkArgs 42 "gpt-4" 5 2 2 false "key".

Definition demo_config : Config := mkConfig 42 "gpt-4" 5 2 2 false "key" 0.

(** The content, the labels and the score of the problems of [l]. *)
Definition describe (l : list loc) : M (list (string * list string * Q)) :=
  map_M (fun a => text <- getattr content a;;
                  history <- getattr mutations a;;
                  labels <- read_list history;;
                  s <- getattr score a;;
                  ret (text, labels, Qred s)) l.

(** ** More environments and observations, for the properties of the rest
    of the code *)

(** Every prompt file exists, but no template can be formatted. *)
Definition unformattable_env : Env :=
  mkEnv (fun _ n => n) (fun n => N.of_nat n) (fun n => Z.of_nat n)
        (fun _ _ => Some "Rewrite {this}: ")
        (fun _ _ => Raise (mkExn KeyError "'this'"))
        (fun _ _ _ user =>
           Ok (mkResponse [mkChoice (mkChatMessage ("Mutated " +:+ user))]))
        (fun _ => 50%Q)
        (fun _ => None)
        (Some ["Problem 1"; "Problem 2"; "Problem 3"]).

(** The backend times out on every request. *)
Definition offline_env : Env :=
  mkEnv (fun _ n => n) (fun n => N.of_nat n) (fun n => Z.of_nat n)
        (fun _ _ => Some "Rewrite this problem: ")
        (fun template text => Ok (template +:+ text))
        (fun _ _ _ _ => Raise (mkExn OSError "timed out"))
        (fun _ => 50%Q)
        (fun _ => None)
        None.


(** The first character of [s], if any, is not white space. *)
Definition clean (s : string) : Prop :=
  match s with
  | EmptyString => True
  | String c _ => PyStr.is_space c = false
  end.

(** At [a] is the seed problem of the line [line]. *)
Definition seed_of (h : heap) (a : loc) (line : string) : Prop :=
  exists p,
    problem_at h a p []
    /\ content p = PyStr.strip line
    /\ score p = 0%Q
    /\ parent_id p = None.

(** [m] adds events to the trace, all of them in [Q], and removes none. *)
Definition emits_only (Q : Event -> Prop) {A} (m : M A) : Prop :=
  forall w, exists events,
    trace (snd (m w)) = trace w ++ events /\ Forall Q events.

(** What a round may do to the outside: log, print, call [mutate], send a
    request for the configured model, write the file of a problem. *)
Definition round_event (cfg : Config) (ev : Event) : Prop :=
  match ev with
  | LogInfo _ | Print _ | MutateCalled _ _ => True
  | ChatRequest model _ _ => model = agent cfg
  | FileWritten path _ =>
      exists ident, path = [Lit "output/"; Uid ident; Lit ".txt"]
  | LogError _ | LeaderboardWritten _ _ _ _ => False
  end.

(** What a run with the arguments [args] may do to the outside: what its
    rounds do, the leaderboard, and the error of its end. *)
Definition run_event (args : Args) (ev : Event) : Prop :=
  match ev with
  | LogInfo _ | Print _ | MutateCalled _ _ | LogError _ => True
  | ChatRequest model _ _ => model = arg_agent args
  | FileWritten path _ =>
      exists ident, path = [Lit "output/"; Uid ident; Lit ".txt"]
  | LeaderboardWritten path _ round_number _ =>
      path = "leaderboard.yaml" /\ round_number = 0%Z
  end.

(** The leaderboards written, each with its round number and entries. *)
Definition leaderboards (events : list Event)
    : list (Z * list LeaderboardEntry) :=
  omap (fun ev => match ev with
                  | LeaderboardWritten _ _ round_number entries =>
                      Some (round_number, entries)
                  | _ => None
                  end) events.

(** The entry of the problem at [a] in a leaderboard. *)
Definition entry_at (h : heap) (a : loc) : LeaderboardEntry :=
  match h !! a with
  | Some (ObjProblem p) =>
      match h !! mutations p with
      | Some (ObjList labels) => mkEntry (id p) (score p) labels
      | _ => mkEntry (id p) (score p) []
      end
  | _ => mkEntry 0%N 0%Q []
  end.

(** The disk is full: every operation on it raises. *)
Definition full_disk_env : Env :=
  mkEnv (fun _ n => n) (fun n => N.of_nat n) (fun n => Z.of_nat n)
        (fun _ _ => Some "Rewrite this problem: ")
        (fun template text => Ok (template +:+ text))
        (fun _ _ _ user =>
           Ok (mkResponse [mkChoice (mkChatMessage ("Mutated " +:+ user))]))
        (fun _ => 50%Q)
        (fun _ => Some (mkExn OSError "No space left on device"))
        (Some ["Problem 1"; "Problem 2"; "Problem 3"]).

(** Every object that [w] holds is the same after [m]. *)
Definition keeps_old {A} (m : M A) (w : World) : Prop :=
  forall a o, objects w !! a = Some o -> objects (snd (m w)) !! a = Some o.

(** The prompt files are there, every template can be formatted and the
    backend answers every request with at least one choice. *)
Definition always_answers (env : Env) : Prop :=
  (forall n path, read_text env n path <> None)
  /\ (forall template text,
        exists prompt, str_format env template text = Ok prompt)
  /\ (forall n model system user,
        exists response choice,
          chat_completion env n model system user = Ok response
          /\ choices response !! 0 = Some choice).

(** The problem [p] of the population after the second loop of a round: it
    is scored if its score was 0, and is as it was otherwise. *)
Definition scored_once (env : Env) (p : Problem) (labels : list string)
    : Problem :=
  if Qeq_bool (score p) 0
  then set_score (score_value env (content p) labels) p
  else p.

(** The message a round logs at the end of its first loop. *)
Definition round_completed (generated : nat) : Event :=
  LogInfo [Lit "Round completed. Generated "; Int (Z.of_nat generated);
           Lit " new variants"].
(** * The model at work *)

Section Examples.
Local Open Scope py_scope.

Example split_words :
  PyStr.split "  Design an  algorithm " = ["Design"; "an"; "algorithm"].
Proof. reflexivity. Qed.

Example strip_both_ends : PyStr.strip "  two words  " = "two words".
Proof. reflexivity. Qed.

(** Occurrences do not overlap: three line feeds hold one blank line. *)
Example count_blank_lines :
  PyStr.count (String "010" (String "010" (String "010" "")))
              (String "010" (String "010" "")) = 1.
Proof. reflexivity. Qed.

Example lower_mixed_case : PyStr.lower "DeSIGN" = "design".
Proof. reflexivity. Qed.

Example slice_negative : slice_to (-1) [1; 2; 3] = [1; 2].
Proof. reflexivity. Qed.

(** Equal keys keep the order of the input. *)
Example sort_desc_stable :
  map snd (sort_desc [(1 # 2, "a"); (3 # 4, "b"); (1 # 2, "c")]%Q)
  = ["b"; "a"; "c"].
Proof. reflexivity. Qed.

(** Three seed problems, a sample of two, the best two kept: the two
    children win. *)
Example one_round :
  fst ((problems <- load_problems demo_env;;
        result <- process_round demo_env demo_config problems;;
        describe result) empty_world)
  = Ok [("Mutated Problem 1", ["simplify"], 101 # 400);
        ("Mutated Problem 3", ["rephrase"], 101 # 400)]%Q.
Proof. vm_compute. reflexivity. Qed.

(** Without prompt files no child is made: the first two seeds are kept. *)
Example one_round_without_prompts :
  fst ((problems <- load_problems broken_env;;
        result <- process_round broken_env demo_config problems;;
        describe result) empty_world)
  = Ok [("Problem 1", [], 43 # 300); ("Problem 2", [], 43 # 300)]%Q.
Proof. vm_compute. reflexivity. Qed.

(** A whole run of two rounds ends with exit code 0. *)
Example two_rounds :
  fst (main demo_env (mkArgs 42 "gpt-4" 2 2 2 false "key") empty_world)
  = 0%Z.
Proof. vm_compute. reflexivity. Qed.

End Examples.

(** * Properties *)

Section Reads.
Context (env : Env).

Lemma read_problem_at w a p :
  objects w !! a = Some (ObjProblem p) -> read_problem a w = (Ok p, w).
Proof. intros H. unfold read_problem. now rewrite H. Qed.

Lemma getattr_at {A} (field : Problem -> A) w a p :
  objects w !! a = Some (ObjProblem p) ->
  getattr field a w = (Ok (field p), w).
Proof.
  intros H. unfold getattr, bind. now rewrite (read_problem_at _ _ _ H).
Qed.

Lemma read_list_at w a l :
  objects w !! a = Some (ObjList l) -> read_list a w = (Ok l, w).
Proof. intros H. unfold read_list. now rewrite H. Qed.

Lemma calculate_complexity_at w a p :
  objects w !! a = Some (ObjProblem p) ->
  _calculate_complexity a w = (Ok (complexity_value (content p)), w).
Proof.
  intros H. unfold _calculate_complexity, bind.
  now rewrite !(getattr_at content _ _ _ H).
Qed.

Lemma calculate_clarity_at w a p :
  objects w !! a = Some (ObjProblem p) ->
  _calculate_clarity env a w = (Ok (clarity_value env (content p)), w).
Proof.
  intros H. unfold _calculate_clarity, bind.
  now rewrite !(getattr_at content _ _ _ H).
Qed.

Lemma calculate_diversity_at w a p labels :
  problem_at (objects w) a p labels ->
  _calculate_diversity a w = (Ok (diversity_value labels), w).
Proof.
  intros [H L]. unfold _calculate_diversity, bind.
  now rewrite (getattr_at mutations _ _ _ H), (read_list_at _ _ _ L).
Qed.

Lemma evaluate_problem_at w a p labels :
  problem_at (objects w) a p labels ->
  evaluate_problem env a w = (Ok (score_value env (content p) labels), w).
Proof.
  intros HP. pose proof HP as [H L]. unfold evaluate_problem, bind.
  rewrite (calculate_complexity_at _ _ _ H), (calculate_clarity_at _ _ _ H),
    (calculate_diversity_at _ _ _ _ HP), (getattr_at mutations _ _ _ H),
    (read_list_at _ _ _ L).
  reflexivity.
Qed.

End Reads.

(** ** The scorer against the formula of the specification *)

Section Scoring.
Context (env : Env).

Lemma int_div_Qmake n (d : positive) :
  (int_div n (Z.pos d) == Z.of_nat n # d)%Q.
Proof.
  unfold int_div. rewrite (Qmake_Qdiv (Z.of_nat n) d). reflexivity.
Qed.

Lemma py_min_Qmin a b : (py_min a b == Qmin a b)%Q.
Proof.
  unfold py_min. destruct (Qlt_le_dec b a) as [Hlt | Hle].
  - symmetry. apply Q.min_r. now apply Qlt_le_weak.
  - symmetry. now apply Q.min_l.
Qed.

Lemma py_min_nonneg a b : (0 <= a -> 0 <= b -> 0 <= py_min a b)%Q.
Proof. intros. unfold py_min. now destruct (Qlt_le_dec b a). Qed.

Lemma int_div_nonneg n (d : positive) : (0 <= int_div n (Z.pos d))%Q.
Proof.
  rewrite int_div_Qmake. unfold Qle. simpl. lia.
Qed.

Lemma sum_list_ones {A} (l : list A) :
  sum_list (map (fun _ => 1%nat) l) = length l.
Proof. induction l as [| x l IH]; simpl; [reflexivity | now rewrite IH]. Qed.

Lemma mem_elem_of w words : PyStr.mem w words = true <-> w ∈ words.
Proof.
  unfold PyStr.mem. rewrite existsb_exists, list_elem_of_In. split.
  - intros [x [Hin Heq]]. apply String.eqb_eq in Heq. now subst.
  - intros Hin. exists w. split; [assumption | apply String.eqb_refl].
Qed.

Lemma tech_terms_counted words :
  sum_list (map (fun _ => 1%nat)
                (filter (fun word => PyStr.mem (PyStr.lower word)
                                       technical_terms = true) words))
  = length (filter (fun word => PyStr.lower word ∈ technical_terms) words).
Proof.
  rewrite sum_list_ones. f_equal. apply list_filter_iff.
  intros word. apply mem_elem_of.
Qed.

Lemma distinct_labels (labels : list string) :
  size (list_to_set (C := gset string) labels) = length (remove_dups labels).
Proof.
  rewrite <- (size_list_to_set (C := gset string) (remove_dups labels))
    by apply NoDup_remove_dups.
  f_equal. apply set_eq. intros x.
  now rewrite !elem_of_list_to_set, elem_of_remove_dups.
Qed.

Lemma complexity_value_spec text :
  (complexity_value text == Spec.complexity text)%Q.
Proof.
  unfold complexity_value, Spec.complexity, Spec.tech_term_count,
    Spec.word_count.
  rewrite tech_terms_counted, !py_min_Qmin.
  change (Z.of_nat (length technical_terms)) with 5%Z.
  now rewrite !int_div_Qmake.
Qed.

Lemma clarity_value_spec text :
  (clarity_value env text == Spec.clarity env text)%Q.
Proof.
  unfold clarity_value, Spec.clarity.
  rewrite py_min_Qmin, int_div_Qmake.
  destruct (String.eqb_spec (PyStr.strip text) text) as [Heq | Hne];
    destruct (decide (text = PyStr.strip text)) as [Heq' | Hne'];
    try reflexivity; congruence.
Qed.

Lemma diversity_value_spec labels :
  (diversity_value labels == Spec.diversity labels)%Q.
Proof.
  unfold diversity_value, Spec.diversity.
  now rewrite py_min_Qmin, int_div_Qmake, distinct_labels.
Qed.

Lemma score_value_spec text labels :
  (score_value env text labels == Spec.score env text labels)%Q.
Proof.
  unfold score_value, Spec.score, Spec.mutation_quality, py_sum.
  simpl fold_left.
  rewrite complexity_value_spec, clarity_value_spec, diversity_value_spec,
    int_div_Qmake.
  field.
Qed.

End Scoring.

(** C2.  On every problem [v] (an object of the store whose mutation list
    holds [labels]), [evaluate_problem] returns, and what it returns is the
    average of the four factors of the specification: complexity, clarity,
    diversity and mutation quality ([Spec.score]). *)
Theorem evaluate_problem_is_average (env : Env) (w : World) (v : loc)
    (p : Problem) (labels : list string) :
  problem_at (objects w) v p labels ->
  exists s, evaluate_problem env v w = (Ok s, w)
            /\ (s == Spec.score env (content p) labels)%Q.
Proof.
  intros HP. exists (score_value env (content p) labels).
  split; [now apply evaluate_problem_at | apply score_value_spec].
Qed.

Lemma evaluate_problem_is_average_witness :
  problem_at (objects demo_world) 1 demo_seed ["rephrase"]
  /\ exists s, evaluate_problem demo_env 1 demo_world = (Ok s, demo_world)
               /\ (s == Spec.score demo_env "Design a system" ["rephrase"])%Q.
Proof.
  split.
  - split; reflexivity.
  - apply (evaluate_problem_is_average demo_env demo_world 1 demo_seed).
    split; reflexivity.
Defined.

(** ** The range of the score *)

Lemma complexity_value_nonneg text : (0 <= complexity_value text)%Q.
Proof.
  unfold complexity_value.
  change (Z.of_nat (length technical_terms)) with 5%Z.
  pose proof (py_min_nonneg (int_div (length (PyStr.split text)) 100) 1
                (int_div_nonneg _ _) ltac:(discriminate)) as H1.
  pose proof (int_div_nonneg
                (sum_list (map (fun _ => 1%nat)
                   (filter (fun word => PyStr.mem (PyStr.lower word)
                                          technical_terms = true)
                           (PyStr.split text)))) 5) as H2.
  pose proof (int_div_nonneg (PyStr.count text (String "010" "- ")) 10) as H3.
  apply Qle_shift_div_l; [reflexivity |]. lra.
Qed.

Lemma clarity_value_ge env text :
  ((flesch_reading_ease env text / 100 + 1) / 3 <= clarity_value env text)%Q.
Proof.
  unfold clarity_value.
  set (n := (PyStr.count text (String "010" (String "010" "")) + 1)%nat).
  assert (8 # 10 <= (if String.eqb (PyStr.strip text) text
                     then 1 else 8 # 10))%Q
    as Hfmt by (destruct (String.eqb _ _); [discriminate | apply Qle_refl]).
  assert (2 # 10 <= py_min (int_div n 5) 1)%Q as Hstruct.
  { unfold py_min. destruct (Qlt_le_dec 1 (int_div n 5)); [discriminate |].
    rewrite int_div_Qmake. unfold Qle, n. simpl. lia. }
  apply Qle_shift_div_l; [reflexivity |].
  set (r := (flesch_reading_ease env text / 100)%Q) in *.
  field_simplify ((r + 1) / 3 * 3)%Q. lra.
Qed.

Lemma clarity_value_lower env text :
  (-100 <= flesch_reading_ease env text -> 0 <= clarity_value env text)%Q.
Proof.
  intros Hfre. eapply Qle_trans; [| apply clarity_value_ge].
  apply Qle_shift_div_l; [reflexivity |].
  assert (-1 <= flesch_reading_ease env text / 100)%Q.
  { apply Qle_shift_div_l; [reflexivity |]. lra. }
  lra.
Qed.

Lemma diversity_value_nonneg labels : (0 <= diversity_value labels)%Q.
Proof.
  unfold diversity_value. apply py_min_nonneg;
    [apply int_div_nonneg | discriminate].
Qed.

Lemma diversity_value_pos label labels :
  (1 # 3 <= diversity_value (label :: labels))%Q.
Proof.
  unfold diversity_value.
  set (n := size (list_to_set (C := gset string) (label :: labels))).
  assert (n <> 0)%nat as Hn.
  { unfold n. apply size_non_empty_iff. intros Hempty.
    apply (not_elem_of_empty (C := gset string) label).
    rewrite <- Hempty. set_solver. }
  unfold py_min. destruct (Qlt_le_dec 1 (int_div n 3)); [discriminate |].
  rewrite int_div_Qmake. unfold Qle. simpl. lia.
Qed.

(** C3 (the code against its own docstring, "Score between 0 and 1").  A
    problem with a history of at least forty mutations, whose text has a
    reading ease of at least -100, is scored above 1. *)
Theorem evaluate_problem_above_one (env : Env) (w : World) (v : loc)
    (p : Problem) (labels : list string) :
  problem_at (objects w) v p labels ->
  (40 <= length labels)%nat ->
  (-100 <= flesch_reading_ease env (content p))%Q ->
  exists s, evaluate_problem env v w = (Ok s, w) /\ (1 < s)%Q.
Proof.
  intros HP Hlen Hfre. exists (score_value env (content p) labels).
  split; [now apply evaluate_problem_at |].
  unfold score_value, py_sum. simpl fold_left.
  pose proof (complexity_value_nonneg (content p)) as Hc.
  pose proof (clarity_value_lower env (content p) Hfre) as Hcl.
  assert (1 # 3 <= diversity_value labels)%Q as Hd.
  { destruct labels as [| label labels]; [simpl in Hlen; lia |].
    apply diversity_value_pos. }
  assert (4 <= int_div (length labels) 10)%Q as Hm.
  { rewrite int_div_Qmake. unfold Qle. simpl. lia. }
  apply Qlt_shift_div_l; [reflexivity |].
  change (inject_Z 4) with 4%Q. lra.
Qed.

Lemma evaluate_problem_above_one_witness :
  exists s, evaluate_problem demo_env 1 long_lineage_world
            = (Ok s, long_lineage_world) /\ (1 < s)%Q.
Proof.
  apply (evaluate_problem_above_one demo_env long_lineage_world 1
           (mkProblem 1%N "Problem 1" 0 None 0 0) (replicate 40 "rephrase")).
  - split; reflexivity.
  - vm_compute. lia.
  - vm_compute. discriminate.
Defined.

(** Whatever the reading ease of a text, a lineage that is long enough puts
    its score above 1. *)
Lemma score_value_above_one_eventually (env : Env) (text : string) :
  exists n, forall labels,
    n <= length labels -> (1 < score_value env text labels)%Q.
Proof.
  set (x := (4 - (flesch_reading_ease env text / 100 + 1) / 3)%Q).
  exists (S (Z.to_nat (Qceiling (10 * x)))). intros labels Hlen.
  unfold score_value, py_sum. simpl fold_left.
  pose proof (complexity_value_nonneg text) as Hc.
  pose proof (clarity_value_ge env text) as Hcl.
  pose proof (diversity_value_nonneg labels) as Hd.
  assert (10 * x < inject_Z (Z.of_nat (length labels)))%Q as Hn.
  { eapply Qle_lt_trans; [apply Qle_ceiling |].
    rewrite <- Zlt_Qlt. lia. }
  assert (x < int_div (length labels) 10)%Q as Hm.
  { unfold int_div. change (inject_Z 10) with 10%Q.
    apply Qlt_shift_div_l; [reflexivity |]. lra. }
  apply Qlt_shift_div_l; [reflexivity |].
  change (inject_Z 4) with 4%Q. unfold x in Hm. lra.
Qed.

(** C4.  Two problems with the same content and the same mutation history
    get the same score, whatever their other attributes and wherever they
    are in the store. *)
Theorem evaluate_problem_deterministic (env : Env) (w1 w2 : World)
    (v1 v2 : loc) (p1 p2 : Problem) (labels : list string) :
  problem_at (objects w1) v1 p1 labels ->
  problem_at (objects w2) v2 p2 labels ->
  content p1 = content p2 ->
  exists s, evaluate_problem env v1 w1 = (Ok s, w1)
            /\ evaluate_problem env v2 w2 = (Ok s, w2).
Proof.
  intros H1 H2 Hc. exists (score_value env (content p1) labels).
  split; [now apply evaluate_problem_at |].
  rewrite Hc. now apply evaluate_problem_at.
Qed.

Lemma evaluate_problem_deterministic_witness :
  exists s, evaluate_problem demo_env 1 demo_world = (Ok s, demo_world)
            /\ evaluate_problem demo_env 3 demo_world = (Ok s, demo_world).
Proof.
  apply (evaluate_problem_deterministic demo_env demo_world demo_world 1 3
           demo_seed demo_twin ["rephrase"]).
  - split; reflexivity.
  - split; reflexivity.
  - reflexivity.
Defined.

(** ** Creating problems *)

Section Creation.
Context (env : Env).

(** What [Problem.create] does, exactly: an empty list and the problem are
    put at the end of the store, the identifier and the time are drawn. *)
Lemma Problem_create_eq text parent w :
  Problem_create env text parent w
  = (Ok (S (length (objects w))),
     mkWorld (objects w
              ++ [ObjList [];
                  ObjProblem (mkProblem (uuid4 env (ticks w)) text 0 parent
                                        (length (objects w))
                                        (datetime_now env (S (ticks w))))])
             (rng_seed w) (rng_pos w) (S (S (ticks w))) (trace w)).
Proof.
  unfold Problem_create, Problem_init, bind, tick, alloc, ret. simpl.
  rewrite length_app, Nat.add_1_r, <- app_assoc. reflexivity.
Qed.

(** What [mutate] does on a well-formed parent, by the answers of the
    oracles. *)
Lemma mutate_eq cfg a t w p labels :
  problem_at (objects w) a p labels ->
  mutate env cfg a t w =
  let prompt_path := prompt_dir +:+ "/" +:+ t +:+ ".txt" in
  match read_text env (ticks w) prompt_path with
  | None =>
      (Raise (mkExn FileNotFoundError
                    ("Prompt file not found: " +:+ prompt_path)), later 1 w)
  | Some template =>
      match str_format env template (content p) with
      | Raise e => (Raise e, later 1 w)
      | Ok prompt =>
          let failed (reason : string) :=
            (Raise (mkExn RuntimeError ("Mutation failed: " +:+ reason)),
             after_request cfg prompt (content p) w) in
          match chat_completion env (1 + ticks w) (agent cfg) prompt
                                (content p)
          with
          | Raise e => failed (exn_str e)
          | Ok response =>
              match choices response !! 0 with
              | None => failed "list index out of range"
              | Some choice =>
                  (Ok (S (length (objects w))),
                   after_mutation env cfg p labels prompt t
                                  (msg_content (message choice)) w)
              end
          end
      end
  end.
Proof.
  intros [Ha Hl]. cbv zeta.
  unfold mutate, load_prompt.
  unfold bind at 1. unfold bind at 1. unfold tick at 1.
  change (mkWorld (objects w) (rng_seed w) (rng_pos w) (S (ticks w))
                  (trace w)) with (later 1 w).
  destruct (read_text env _ _) as [tpl |]; [| reflexivity].
  unfold ret at 1.
  unfold bind at 1. rewrite (getattr_at content (later 1 w) _ _ Ha).
  unfold bind at 1.
  destruct (str_format env tpl (content p)) as [prompt | e]; [| reflexivity].
  unfold lift, ret at 1.
  unfold try_except.
  unfold bind at 1. rewrite (getattr_at content (later 1 w) _ _ Ha).
  unfold bind at 1. unfold tick at 1.
  unfold bind at 1. unfold emit at 1.
  unfold bind at 1. cbn [ticks objects rng_seed rng_pos trace later].
  change (mkWorld (objects w) (rng_seed w) (rng_pos w) (S (1 + ticks w))
                  (trace w ++ [ChatRequest (agent cfg) prompt (content p)]))
    with (after_request cfg prompt (content p) w).
  destruct (chat_completion env _ _ _ _) as [resp | e]; [| reflexivity].
  unfold lift, ret at 1.
  unfold bind at 1. unfold first_completion.
  destruct (choices resp !! 0) as [choice |]; [| reflexivity].
  unfold ret at 1.
  unfold bind at 1.
  rewrite (getattr_at id (after_request cfg prompt (content p) w) _ _ Ha).
  unfold bind at 1. rewrite Problem_create_eq.
  unfold bind at 1. erewrite (getattr_at mutations _ a p).
  2:{ cbn [objects after_request]. rewrite lookup_app_l; [exact Ha |].
      eapply lookup_lt_Some, Ha. }
  unfold bind at 1. erewrite (read_list_at _ _ labels).
  2:{ cbn [objects after_request]. rewrite lookup_app_l; [exact Hl |].
      eapply lookup_lt_Some, Hl. }
  unfold bind at 1. unfold alloc at 1.
  unfold bind at 1. unfold update_problem.
  cbn [ticks objects rng_seed rng_pos trace after_request].
  rewrite <- app_assoc. cbn [app].
  rewrite length_app. cbn [length].
  replace (S (length (objects w))) with (length (objects w) + 1) by lia.
  rewrite lookup_app_r by lia.
  replace (length (objects w) + 1 - length (objects w)) with 1 by lia.
  cbn [lookup list_lookup].
  rewrite insert_app_r. cbn [insert list_insert].
  unfold ret, after_mutation, child_of, set_mutations. cbn.
  repeat f_equal; lia.
Qed.

End Creation.

(** C9.  [Problem.create(c)] returns a new problem whose content is [c],
    whose mutation list is empty, whose score is 0 and which has no parent. *)
Theorem Problem_create_fields (env : Env) (c : string) (w : World) :
  exists v w' p,
    Problem_create env c None w = (Ok v, w')
    /\ objects w' !! v = Some (ObjProblem p)
    /\ content p = c
    /\ objects w' !! mutations p = Some (ObjList [])
    /\ score p = 0%Q
    /\ parent_id p = None.
Proof.
  eexists _, _, _. split; [apply Problem_create_eq |]. simpl.
  split.
  - rewrite (lookup_app_r (objects w)) by lia.
    replace (S (length (objects w)) - length (objects w)) with 1 by lia.
    reflexivity.
  - simpl. repeat split.
    rewrite (lookup_app_r (objects w)) by lia.
    now rewrite Nat.sub_diag.
Qed.

(** ** The child of a mutation and its parent *)

Section Mutation.
Context (env : Env).

Lemma lookup_old {A} (h extra : list A) a x :
  h !! a = Some x -> (h ++ extra) !! a = Some x.
Proof.
  intros H. rewrite lookup_app_l; [exact H | eapply lookup_lt_Some, H].
Qed.

(** The store is only extended by [mutate]. *)
Lemma mutate_extends cfg a t w p labels :
  problem_at (objects w) a p labels ->
  exists extra, objects (snd (mutate env cfg a t w)) = objects w ++ extra.
Proof.
  intros HP. rewrite (mutate_eq env cfg a t w p labels HP). cbv zeta.
  destruct (read_text env _ _) as [tpl |];
    [| exists []; cbn [snd objects later]; now rewrite app_nil_r].
  destruct (str_format env tpl (content p)) as [prompt | e];
    [| exists []; cbn [snd objects later]; now rewrite app_nil_r].
  destruct (chat_completion env _ _ _ _) as [response | e];
    [| exists []; cbn [snd objects after_request]; now rewrite app_nil_r].
  destruct (choices response !! 0) as [choice |];
    [| exists []; cbn [snd objects after_request]; now rewrite app_nil_r].
  eexists. reflexivity.
Qed.

(** A successful call, read backwards. *)
Lemma mutate_Ok_inv cfg a t w p labels child w' :
  problem_at (objects w) a p labels ->
  mutate env cfg a t w = (Ok child, w') ->
  exists template prompt response choice,
    read_text env (ticks w) (prompt_dir +:+ "/" +:+ t +:+ ".txt")
    = Some template
    /\ str_format env template (content p) = Ok prompt
    /\ chat_completion env (1 + ticks w) (agent cfg) prompt (content p)
       = Ok response
    /\ choices response !! 0 = Some choice
    /\ child = S (length (objects w))
    /\ w' = after_mutation env cfg p labels prompt t
                           (msg_content (message choice)) w.
Proof.
  intros HP. rewrite (mutate_eq env cfg a t w p labels HP). cbv zeta.
  destruct (read_text env _ _) as [tpl |] eqn:Hread; [| discriminate].
  destruct (str_format env tpl (content p)) as [prompt | e] eqn:Hfmt;
    [| discriminate].
  destruct (chat_completion env _ _ _ _) as [response | e] eqn:Hchat;
    [| discriminate].
  destruct (choices response !! 0) as [choice |] eqn:Hchoice;
    [| discriminate].
  intros [= <- <-]. now exists tpl, prompt, response, choice.
Qed.

Lemma after_mutation_child cfg p labels prompt t text w :
  problem_at (objects (after_mutation env cfg p labels prompt t text w))
             (S (length (objects w))) (child_of env p text w)
             (labels ++ [t]).
Proof.
  unfold problem_at, after_mutation. cbn [objects child_of mutations].
  replace (2 + length (objects w)) with (length (objects w) + 2) by lia.
  replace (S (length (objects w))) with (length (objects w) + 1) by lia.
  rewrite !lookup_app_r by lia.
  replace (length (objects w) + 1 - length (objects w)) with 1 by lia.
  replace (length (objects w) + 2 - length (objects w)) with 2 by lia.
  split; reflexivity.
Qed.

End Mutation.

(** C5.  When [mutate(p, t)] succeeds, the child it returns has [p]'s id as
    its [parent_id], its mutation list holds [p]'s labels followed by [t],
    and its content is the content of the first choice of the reply the
    backend gave to the request (the formatted template of [t] as
    instruction, [p]'s content as input). *)
Theorem mutate_child (env : Env) (cfg : Config) (w w' : World)
    (parent child : loc) (t : string) (p : Problem) (labels : list string) :
  problem_at (objects w) parent p labels ->
  mutate env cfg parent t w = (Ok child, w') ->
  exists c template prompt response choice,
    problem_at (objects w') child c (labels ++ [t])
    /\ parent_id c = Some (id p)
    /\ read_text env (ticks w) (prompt_dir +:+ "/" +:+ t +:+ ".txt")
       = Some template
    /\ str_format env template (content p) = Ok prompt
    /\ chat_completion env (1 + ticks w) (agent cfg) prompt (content p)
       = Ok response
    /\ choices response !! 0 = Some choice
    /\ content c = msg_content (message choice).
Proof.
  intros HP Hrun.
  destruct (mutate_Ok_inv env cfg parent t w p labels child w' HP Hrun)
    as (template & prompt & response & choice
        & Hread & Hfmt & Hchat & Hchoice & -> & ->).
  exists (child_of env p (msg_content (message choice)) w), template, prompt,
    response, choice.
  split; [apply after_mutation_child |]. now repeat split.
Qed.

Lemma mutate_child_witness :
  exists c template prompt response choice,
    problem_at (objects (snd (mutate demo_env demo_config 1 "expand"
                                     demo_world)))
               5 c (["rephrase"] ++ ["expand"])
    /\ parent_id c = Some (id demo_seed)
    /\ read_text demo_env (ticks demo_world)
                 (prompt_dir +:+ "/" +:+ "expand" +:+ ".txt")
       = Some template
    /\ str_format demo_env template (content demo_seed) = Ok prompt
    /\ chat_completion demo_env (1 + ticks demo_world) (agent demo_config)
                       prompt (content demo_seed) = Ok response
    /\ choices response !! 0 = Some choice
    /\ content c = msg_content (message choice).
Proof.
  apply (mutate_child demo_env demo_config demo_world _ 1 5 "expand"
           demo_seed ["rephrase"]).
  - split; reflexivity.
  - reflexivity.
Defined.

(** C10.  [mutate(p, t)] changes no object of the store it was called on,
    whether it returns or raises: the parent has the attributes it had and
    its mutation list the labels it had.  A child that is returned is a new
    object, and so is its mutation list. *)
Theorem mutate_leaves_parent (env : Env) (cfg : Config) (w : World)
    (parent : loc) (t : string) (p : Problem) (labels : list string) :
  problem_at (objects w) parent p labels ->
  let w' := snd (mutate env cfg parent t w) in
  problem_at (objects w') parent p labels
  /\ (forall a o, objects w !! a = Some o -> objects w' !! a = Some o)
  /\ (forall child, fst (mutate env cfg parent t w) = Ok child ->
        length (objects w) <= child
        /\ exists c, objects w' !! child = Some (ObjProblem c)
                     /\ length (objects w) <= mutations c).
Proof.
  intros HP w'.
  destruct (mutate_extends env cfg parent t w p labels HP) as [extra Hext].
  assert (forall a o, objects w !! a = Some o -> objects w' !! a = Some o)
    as Hframe.
  { intros a o Ha. unfold w'. rewrite Hext. now apply lookup_old. }
  split; [| split].
  - destruct HP as [Ha Hl]. split; now apply Hframe.
  - exact Hframe.
  - intros child Hchild.
    destruct (mutate env cfg parent t w) as [r w1] eqn:Hrun.
    simpl in Hchild. subst r.
    destruct (mutate_Ok_inv env cfg parent t w p labels child w1 HP Hrun)
      as (template & prompt & response & choice & _ & _ & _ & _ & -> & ->).
    split; [lia |].
    exists (child_of env p (msg_content (message choice)) w).
    split; [apply after_mutation_child | simpl; lia].
Qed.

Lemma mutate_leaves_parent_witness :
  let w' := snd (mutate demo_env demo_config 1 "expand" demo_world) in
  problem_at (objects w') 1 demo_seed ["rephrase"]
  /\ (forall a o, objects demo_world !! a = Some o -> objects w' !! a = Some o)
  /\ (forall child,
        fst (mutate demo_env demo_config 1 "expand" demo_world) = Ok child ->
        length (objects demo_world) <= child
        /\ exists c, objects w' !! child = Some (ObjProblem c)
                     /\ length (objects demo_world) <= mutations c).
Proof.
  apply (mutate_leaves_parent demo_env demo_config demo_world 1 "expand"
           demo_seed ["rephrase"]).
  split; reflexivity.
Defined.

(** ** Validation of the configuration *)

Lemma from_args_Raise_main (env : Env) (args : Args) (w : World) (e : exn) :
  from_args args = Raise e ->
  main env args w
  = (1%Z, mkWorld (objects w) (rng_seed w) (rng_pos w) (ticks w)
                  (trace w ++ [LogError [Lit (error_label (exn_type e));
                                         Lit (exn_str e)]])).
Proof.
  intros H. unfold main, main_body, bind. now rewrite H.
Qed.

(** C7.  [Config.from_args] raises [ValidationError] when [topk_problems]
    exceeds [num_problems] and when one of [num_rounds], [num_problems],
    [topk_problems] is below 1.  [main] then logs the validation error and
    returns 1, and nothing else has happened: no object was made, no number
    drawn, no round started. *)
Theorem from_args_rejects (env : Env) (args : Args) (w : World) :
  (arg_topk_problems args > arg_num_problems args
   \/ arg_num_rounds args < 1
   \/ arg_num_problems args < 1
   \/ arg_topk_problems args < 1)%Z ->
  exists msg,
    from_args args = Raise (mkExn ValidationError msg)
    /\ main env args w
       = (1%Z, mkWorld (objects w) (rng_seed w) (rng_pos w) (ticks w)
                       (trace w ++ [LogError [Lit "Validation error: ";
                                              Lit msg]])).
Proof.
  intros Hbad.
  assert (exists msg, from_args args = Raise (mkExn ValidationError msg))
    as [msg Hmsg].
  { unfold from_args.
    destruct (Z.ltb_spec (arg_num_rounds args) 1); [eauto |].
    destruct (Z.ltb_spec (arg_num_problems args) 1); [eauto |].
    destruct (Z.ltb_spec (arg_topk_problems args) 1); [eauto |].
    destruct (Z.gtb_spec (arg_topk_problems args) (arg_num_problems args));
      [eauto | lia]. }
  exists msg. split; [exact Hmsg |].
  now rewrite (from_args_Raise_main env args w _ Hmsg).
Qed.

Lemma from_args_rejects_witness :
  exists msg,
    from_args (mkArgs 42 "gpt-4" 5 2 3 false "key")
    = Raise (mkExn ValidationError msg)
    /\ main demo_env (mkArgs 42 "gpt-4" 5 2 3 false "key") empty_world
       = (1%Z, mkWorld [] 0 0 0 [LogError [Lit "Validation error: ";
                                           Lit msg]]).
Proof.
  apply (from_args_rejects demo_env (mkArgs 42 "gpt-4" 5 2 3 false "key")
           empty_world).
  left. reflexivity.
Defined.

(** A configuration that passed [from_args] has [1 <= topk_problems <=
    num_problems]. *)
Lemma from_args_Ok (args : Args) (cfg : Config) :
  from_args args = Ok cfg ->
  (1 <= num_rounds cfg /\ 1 <= topk_problems cfg
   /\ topk_problems cfg <= num_problems cfg)%Z.
Proof.
  unfold from_args.
  destruct (Z.ltb_spec (arg_num_rounds args) 1); [discriminate |].
  destruct (Z.ltb_spec (arg_num_problems args) 1); [discriminate |].
  destruct (Z.ltb_spec (arg_topk_problems args) 1); [discriminate |].
  destruct (Z.gtb_spec (arg_topk_problems args) (arg_num_problems args));
    [discriminate |].
  intros [= <-]. simpl. lia.
Qed.

(** ** The stable descending sort *)

Section SortDesc.
Context {A : Type}.
Implicit Types (x y : Q * A) (l : list (Q * A)).

Lemma key_ge_trans x y z : key_ge x y -> key_ge y z -> key_ge x z.
Proof. unfold key_ge. intros Hxy Hyz. eapply Qle_trans; eassumption. Qed.

Lemma insert_desc_Permutation x l : insert_desc x l ≡ₚ x :: l.
Proof.
  induction l as [| y l IH]; simpl; [reflexivity |].
  destruct (Qle_bool (fst y) (fst x)); [reflexivity |].
  rewrite IH. apply Permutation_swap.
Qed.

Lemma sort_desc_Permutation l : sort_desc l ≡ₚ l.
Proof.
  induction l as [| x l IH]; simpl; [reflexivity |].
  now rewrite insert_desc_Permutation, IH.
Qed.

Lemma insert_desc_sorted x l :
  StronglySorted key_ge l -> StronglySorted key_ge (insert_desc x l).
Proof.
  induction l as [| y l IH]; intros Hs; simpl.
  - repeat constructor.
  - apply StronglySorted_inv in Hs as [Hl Hy].
    destruct (Qle_bool (fst y) (fst x)) eqn:Hcmp.
    + apply Qle_bool_iff in Hcmp.
      constructor; [now constructor |].
      constructor; [exact Hcmp |].
      eapply Forall_impl; [exact Hy |].
      intros z Hz. eapply key_ge_trans; [exact Hcmp | exact Hz].
    + assert (fst x < fst y)%Q as Hlt.
      { apply Qnot_le_lt. intros Hle. apply Qle_bool_iff in Hle. congruence. }
      constructor; [now apply IH |].
      rewrite insert_desc_Permutation.
      constructor; [now apply Qlt_le_weak | exact Hy].
Qed.

Lemma sort_desc_sorted l : StronglySorted key_ge (sort_desc l).
Proof.
  induction l as [| x l IH]; simpl; [constructor | now apply insert_desc_sorted].
Qed.

Lemma StronglySorted_lookup (R : relation (Q * A)) l i j x y :
  StronglySorted R l -> i < j -> l !! i = Some x -> l !! j = Some y -> R x y.
Proof.
  intros Hs. revert i j. induction Hs as [| z l Hs IH Hz]; intros i j Hij Hi Hj.
  - discriminate.
  - destruct j as [| j]; [lia |]. destruct i as [| i]; simpl in *.
    + injection Hi as <-. rewrite Forall_forall in Hz. apply Hz.
      apply list_elem_of_lookup. eauto.
    + eapply IH; [| eassumption | eassumption]. lia.
Qed.

End SortDesc.

(** ** What a computation leaves unchanged *)

Section Preserves.
Context {B : Type} (f : World -> B).

Lemma preserves_ret {A} (a : A) : preserves f (ret a).
Proof. intros w. reflexivity. Qed.

Lemma preserves_raise {A} (e : exn) : preserves f (raise (A := A) e).
Proof. intros w. reflexivity. Qed.

Lemma preserves_bind {A C} (m : M A) (k : A -> M C) :
  preserves f m -> (forall a, preserves f (k a)) -> preserves f (bind m k).
Proof.
  intros Hm Hk w. unfold bind. specialize (Hm w).
  destruct (m w) as [[a | e] w1]; simpl in *; [| exact Hm].
  now rewrite Hk.
Qed.

Lemma preserves_try_except {A} (m : M A) (h : exn -> M A) :
  preserves f m -> (forall e, preserves f (h e)) ->
  preserves f (try_except m h).
Proof.
  intros Hm Hh w. unfold try_except. specialize (Hm w).
  destruct (m w) as [[a | e] w1]; simpl in *; [exact Hm |].
  now rewrite Hh.
Qed.

Lemma preserves_attempt {A} (m : M A) :
  preserves f m -> preserves f (attempt m).
Proof.
  intros Hm w. unfold attempt. specialize (Hm w).
  now destruct (m w) as [r w1].
Qed.

Lemma preserves_lift {A} (r : result A) : preserves f (lift r).
Proof. destruct r; intros w; reflexivity. Qed.

Lemma preserves_read_problem a : preserves f (read_problem a).
Proof.
  intros w. unfold read_problem.
  now destruct (objects w !! a) as [[|] |].
Qed.

Lemma preserves_read_list a : preserves f (read_list a).
Proof.
  intros w. unfold read_list.
  now destruct (objects w !! a) as [[|] |].
Qed.

Lemma preserves_getattr {A} (field : Problem -> A) a :
  preserves f (getattr field a).
Proof.
  unfold getattr. apply preserves_bind; [apply preserves_read_problem |].
  intros p. apply preserves_ret.
Qed.

Lemma preserves_map_M {A C} (g : A -> M C) (xs : list A) :
  (forall x, preserves f (g x)) -> preserves f (map_M g xs).
Proof.
  intros Hg. induction xs as [| x xs IH]; simpl; [apply preserves_ret |].
  apply preserves_bind; [apply Hg |]. intros y.
  apply preserves_bind; [exact IH |]. intros ys. apply preserves_ret.
Qed.

End Preserves.

Create HintDb preserves.
#[local] Hint Resolve preserves_ret preserves_raise preserves_bind
  preserves_try_except preserves_attempt preserves_lift
  preserves_read_problem preserves_read_list preserves_getattr
  preserves_map_M : preserves.

(** *** The store *)

Section PreservesObjects.
Context (env : Env).

Lemma objects_emit ev : preserves objects (emit ev).
Proof. intros w. reflexivity. Qed.

Lemma objects_tick : preserves objects tick.
Proof. intros w. reflexivity. Qed.

Lemma objects_next_random : preserves objects (next_random env).
Proof. intros w. reflexivity. Qed.

Hint Resolve objects_emit objects_tick objects_next_random : preserves.

Lemma objects_randbelow n : preserves objects (randbelow env n).
Proof. unfold randbelow. eauto with preserves. Qed.

Hint Resolve objects_randbelow : preserves.

Lemma objects_random_choice {A} (seq : list A) :
  preserves objects (random_choice env seq).
Proof.
  unfold random_choice. destruct seq as [| x seq]; [eauto with preserves |].
  apply preserves_bind; [eauto with preserves |]. intros i.
  destruct (_ !! i); eauto with preserves.
Qed.

Lemma objects_sample_pool {A} (pool : list A) k :
  preserves objects (sample_pool env pool k).
Proof.
  revert pool. induction k as [| k IH]; intros pool; simpl;
    [eauto with preserves |].
  apply preserves_bind; [eauto with preserves |]. intros j.
  destruct (pool !! j); eauto with preserves.
Qed.

Lemma objects_random_sample {A} (population : list A) k :
  preserves objects (random_sample env population k).
Proof.
  unfold random_sample.
  destruct (_ && _); [apply objects_sample_pool | eauto with preserves].
Qed.

Lemma objects_disk_op : preserves objects (disk_op env).
Proof.
  unfold disk_op. apply preserves_bind; [eauto with preserves |]. intros n.
  destruct (disk_write env n); eauto with preserves.
Qed.

Hint Resolve objects_disk_op : preserves.

Lemma objects_save_problem a : preserves objects (save_problem env a).
Proof. unfold save_problem. eauto 15 with preserves. Qed.

Lemma objects_report_error a e : preserves objects (report_error a e).
Proof. unfold report_error. eauto with preserves. Qed.

End PreservesObjects.

(** *** The recorded calls of [mutate] *)

Section PreservesCalls.
Context (env : Env).

Lemma calls_emit ev :
  (forall a t, ev <> MutateCalled a t) -> preserves calls_of (emit ev).
Proof.
  intros Hev w. unfold calls_of, mutate_calls, emit. simpl.
  rewrite omap_app. simpl.
  destruct ev; try (now rewrite app_nil_r). now destruct (Hev problem mutation_type).
Qed.

Lemma calls_tick : preserves calls_of tick.
Proof. intros w. reflexivity. Qed.

Lemma calls_alloc o : preserves calls_of (alloc o).
Proof. intros w. reflexivity. Qed.

Lemma calls_update_problem a g : preserves calls_of (update_problem a g).
Proof.
  intros w. unfold update_problem. now destruct (objects w !! a) as [[|] |].
Qed.

Lemma calls_next_random : preserves calls_of (next_random env).
Proof. intros w. reflexivity. Qed.

Hint Resolve calls_tick calls_alloc calls_update_problem calls_next_random
  : preserves.

Lemma calls_random_choice {A} (seq : list A) :
  preserves calls_of (random_choice env seq).
Proof.
  unfold random_choice, randbelow.
  destruct seq as [| x seq]; [eauto with preserves |].
  apply preserves_bind; [eauto with preserves |]. intros i.
  destruct (_ !! i); eauto with preserves.
Qed.

Lemma calls_sample_pool {A} (pool : list A) k :
  preserves calls_of (sample_pool env pool k).
Proof.
  revert pool. induction k as [| k IH]; intros pool; simpl;
    [eauto with preserves |].
  apply preserves_bind; [unfold randbelow; eauto with preserves |]. intros j.
  destruct (pool !! j); eauto with preserves.
Qed.

Lemma calls_random_sample {A} (population : list A) k :
  preserves calls_of (random_sample env population k).
Proof.
  unfold random_sample.
  destruct (_ && _); [apply calls_sample_pool | eauto with preserves].
Qed.

Lemma calls_disk_op : preserves calls_of (disk_op env).
Proof.
  unfold disk_op. apply preserves_bind; [eauto with preserves |]. intros n.
  destruct (disk_write env n); eauto with preserves.
Qed.

Hint Resolve calls_disk_op : preserves.

Lemma calls_save_problem a : preserves calls_of (save_problem env a).
Proof.
  unfold save_problem.
  repeat (apply preserves_bind; [eauto with preserves |]; intros ?).
  now apply calls_emit.
Qed.

Lemma calls_report_error a e : preserves calls_of (report_error a e).
Proof.
  unfold report_error. apply preserves_bind; [eauto with preserves |].
  intros ident. now apply calls_emit.
Qed.

Lemma calls_Problem_create text parent :
  preserves calls_of (Problem_create env text parent).
Proof. intros w. now rewrite Problem_create_eq. Qed.

Lemma calls_evaluate_problem a : preserves calls_of (evaluate_problem env a).
Proof.
  unfold evaluate_problem, _calculate_complexity, _calculate_clarity,
    _calculate_diversity.
  eauto 30 with preserves.
Qed.

Lemma calls_mutate cfg a t : preserves calls_of (mutate env cfg a t).
Proof.
  unfold mutate, load_prompt, mutation_failed, first_completion.
  apply preserves_bind.
  { apply preserves_bind; [eauto with preserves |]. intros n.
    destruct (read_text env n _); eauto with preserves. }
  intros template. apply preserves_bind; [eauto with preserves |].
  intros text. apply preserves_bind; [eauto with preserves |].
  intros prompt. apply preserves_try_except; [| eauto with preserves].
  apply preserves_bind; [eauto with preserves |]. intros user.
  apply preserves_bind; [eauto with preserves |]. intros n.
  apply preserves_bind; [now apply calls_emit |]. intros _.
  apply preserves_bind; [eauto with preserves |]. intros response.
  apply preserves_bind.
  { destruct (choices response !! 0); eauto with preserves. }
  intros new_content. apply preserves_bind; [eauto with preserves |].
  intros parent. apply preserves_bind; [apply calls_Problem_create |].
  intros new_problem. eauto 15 with preserves.
Qed.

End PreservesCalls.

(** ** Running a sequence *)

Lemma bind_Ok {A B} (m : M A) (k : A -> M B) w a w1 :
  m w = (Ok a, w1) -> bind m k w = k a w1.
Proof. intros H. unfold bind. now rewrite H. Qed.

Lemma bind_Raise {A B} (m : M A) (k : A -> M B) w e w1 :
  m w = (Raise e, w1) -> bind m k w = (Raise e, w1).
Proof. intros H. unfold bind. now rewrite H. Qed.

(** ** Stores that grow and get scored *)

Section Rescored.
Implicit Types (h : heap) (p : Problem).

Lemma set_score_same p : set_score (score p) p = p.
Proof. now destruct p. Qed.

Lemma rescored_refl h : rescored h h.
Proof.
  split; [lia |]. intros a [items | p] Ha; [exact Ha |].
  exists (score p). now rewrite set_score_same.
Qed.

Lemma rescored_trans h1 h2 h3 :
  rescored h1 h2 -> rescored h2 h3 -> rescored h1 h3.
Proof.
  intros [Hlen12 H12] [Hlen23 H23]. split; [lia |].
  intros a [items | p] Ha.
  - apply (H23 a (ObjList items)). now apply (H12 a (ObjList items)).
  - destruct (H12 a (ObjProblem p) Ha) as [s Hs].
    destruct (H23 a _ Hs) as [s' Hs']. exists s'. exact Hs'.
Qed.

Lemma rescored_app h extra : rescored h (h ++ extra).
Proof.
  split; [rewrite length_app; lia |].
  intros a [items | p] Ha.
  - now apply lookup_old.
  - exists (score p). rewrite set_score_same. now apply lookup_old.
Qed.

Lemma rescored_insert h a p s :
  h !! a = Some (ObjProblem p) ->
  rescored h (<[a := ObjProblem (set_score s p)]> h).
Proof.
  intros Ha. split; [now rewrite length_insert |].
  intros b o Hb. destruct (decide (a = b)) as [<- | Hne].
  - rewrite Hb in Ha. injection Ha as ->.
    exists s. apply list_lookup_insert_eq. eapply lookup_lt_Some, Hb.
  - rewrite list_lookup_insert_ne by exact Hne.
    destruct o as [items | q]; [exact Hb |].
    exists (score q). now rewrite set_score_same.
Qed.

Lemma rescored_problem_at h h' a p labels :
  rescored h h' -> problem_at h a p labels ->
  exists s, problem_at h' a (set_score s p) labels.
Proof.
  intros [_ H] [Ha Hl]. destruct (H a _ Ha) as [s Hs].
  exists s. split; [exact Hs |]. exact (H _ _ Hl).
Qed.

Lemma rescored_is_problem h h' a :
  rescored h h' -> is_problem h a -> is_problem h' a.
Proof.
  intros Hr (p & labels & HP).
  destruct (rescored_problem_at h h' a p labels Hr HP) as [s Hs].
  now exists (set_score s p), labels.
Qed.

Lemma rescored_all_problems h h' (l : list loc) :
  rescored h h' -> Forall (is_problem h) l -> Forall (is_problem h') l.
Proof.
  intros Hr Hl. eapply Forall_impl; [exact Hl |].
  intros a. now apply rescored_is_problem.
Qed.

End Rescored.

(** ** Sampling *)

Section Sampling.
Context (env : Env).

Lemma randbelow_lt n w :
  0 < n ->
  exists j w', randbelow env n w = (Ok j, w') /\ j < n.
Proof.
  intros Hn. eexists _, _. split; [reflexivity |].
  apply Nat.mod_upper_bound. lia.
Qed.

Lemma random_choice_Ok {A} (seq : list A) w :
  seq <> [] ->
  exists x w', random_choice env seq w = (Ok x, w') /\ x ∈ seq.
Proof.
  intros Hne. destruct seq as [| y seq]; [congruence |].
  unfold random_choice.
  destruct (randbelow_lt (length (y :: seq)) w ltac:(simpl; lia))
    as (j & w' & Hj & Hlt).
  rewrite (bind_Ok _ _ _ _ _ Hj).
  destruct (lookup_lt_is_Some_2 (y :: seq) j Hlt) as [x Hx].
  rewrite Hx. exists x, w'. split; [reflexivity |].
  apply list_elem_of_lookup. eauto.
Qed.

Lemma sample_pool_Ok {A} (pool : list A) k w :
  k <= length pool ->
  exists selected w',
    sample_pool env pool k w = (Ok selected, w')
    /\ length selected = k /\ selected ⊆+ pool.
Proof.
  revert pool w. induction k as [| k IH]; intros pool w Hk; simpl.
  - exists [], w. repeat split. apply submseteq_nil_l.
  - destruct (randbelow_lt (length pool) w ltac:(lia)) as (j & w1 & Hj & Hlt).
    rewrite (bind_Ok _ _ _ _ _ Hj).
    destruct (lookup_lt_is_Some_2 pool j Hlt) as [x Hx]. rewrite Hx.
    destruct (IH (delete j pool) w1) as (rest & w2 & Hrest & Hlen & Hsub).
    { rewrite length_delete by eauto. lia. }
    rewrite (bind_Ok _ _ _ _ _ Hrest).
    exists (x :: rest), w2. split; [reflexivity |].
    split; [simpl; now rewrite Hlen |].
    rewrite (delete_Permutation pool j x Hx). now apply submseteq_skip.
Qed.

Lemma random_sample_Ok {A} (population : list A) (k : Z) w :
  (0 <= k <= Z.of_nat (length population))%Z ->
  exists selected w',
    random_sample env population k w = (Ok selected, w')
    /\ length selected = Z.to_nat k /\ selected ⊆+ population.
Proof.
  intros Hk. unfold random_sample.
  replace ((0 <=? k)%Z && (k <=? Z.of_nat (length population))%Z)
    with true by (symmetry; apply andb_true_iff; split; apply Z.leb_le; lia).
  apply sample_pool_Ok. lia.
Qed.

End Sampling.

(** ** One turn of the mutation loop *)

Section Round.
Context (env : Env).

Lemma report_error_Ok a e w :
  is_problem (objects w) a ->
  exists w', report_error a e w = (Ok tt, w').
Proof.
  intros (p & labels & Ha & _). unfold report_error.
  rewrite (bind_Ok _ _ _ _ _ (getattr_at id w a p Ha)).
  eexists. reflexivity.
Qed.

(** The child is saved, or the failure is reported: the [try] goes on. *)
Lemma save_or_report c problem w :
  is_problem (objects w) problem ->
  exists w',
    try_except (save_problem env c) (report_error problem) w = (Ok tt, w')
    /\ objects w' = objects w /\ calls_of w' = calls_of w.
Proof.
  intros HP. unfold try_except.
  pose proof (objects_save_problem env c w) as Hobj.
  pose proof (calls_save_problem env c w) as Hcalls.
  destruct (save_problem env c w) as [[[] | e] w1]; simpl in Hobj, Hcalls.
  - now exists w1.
  - rewrite <- Hobj in HP.
    destruct (report_error_Ok problem e w1 HP) as [w2 Hw2].
    pose proof (objects_report_error env problem e w1) as Hobj2.
    pose proof (calls_report_error problem e w1) as Hcalls2.
    rewrite Hw2 in *. simpl in Hobj2, Hcalls2.
    exists w2. split; [reflexivity |]. split; congruence.
Qed.

(** The first part of the [try]: the child is made and scored, or an
    exception is on its way to the handler. *)
Lemma scored_child cfg problem t w :
  is_problem (objects w) problem ->
  exists r w',
    attempt (new_problem <- mutate env cfg problem t;;
             s <- evaluate_problem env new_problem;;
             update_problem new_problem (set_score s);;
             ret new_problem) w = (Ok r, w')
    /\ rescored (objects w) (objects w')
    /\ calls_of w' = calls_of w
    /\ (forall c, r = Ok c -> is_problem (objects w') c)
    /\ (mutation_always_fails env cfg -> exists e, r = Raise e).
Proof.
  intros (p & labels & HP).
  assert (preserves calls_of
            (attempt (new_problem <- mutate env cfg problem t;;
                      s <- evaluate_problem env new_problem;;
                      update_problem new_problem (set_score s);;
                      ret new_problem))) as Hcalls.
  { apply preserves_attempt.
    apply preserves_bind; [apply calls_mutate |]. intros c.
    apply preserves_bind; [apply calls_evaluate_problem |]. intros s.
    apply preserves_bind; [apply calls_update_problem |]. intros _.
    apply preserves_ret. }
  specialize (Hcalls w). unfold attempt in *.
  destruct (mutate env cfg problem t w) as [[child | e] wm] eqn:Hm.
  - destruct (mutate_Ok_inv env cfg problem t w p labels child wm HP Hm)
      as (template & prompt & response & choice & _ & _ & _ & _ & -> & ->).
    set (text := msg_content (message choice)) in *.
    set (wm := after_mutation env cfg p labels prompt t text w) in *.
    pose proof (after_mutation_child env cfg p labels prompt t text w)
      as Hchild.
    fold wm in Hchild. pose proof Hchild as [Hc Hl].
    revert Hcalls.
    rewrite (bind_Ok _ _ _ _ _ Hm).
    rewrite (bind_Ok _ _ _ _ _ (evaluate_problem_at env wm _ _ _ Hchild)).
    unfold bind, update_problem, ret. rewrite Hc. simpl. intros Hcalls.
    eexists _, _. split; [reflexivity |]. simpl.
    split; [| split; [exact Hcalls | split]].
    + eapply rescored_trans; [| now apply rescored_insert].
      apply rescored_app.
    + intros c [= <-]. apply (rescored_is_problem (objects wm));
        [apply rescored_insert; exact Hc |].
      exists (child_of env p text w), (labels ++ [t]). exact Hchild.
    + intros Hfail. destruct (Hfail problem t w) as (e & w1 & He). congruence.
  - revert Hcalls. rewrite (bind_Raise _ _ _ _ _ Hm). simpl. intros Hcalls.
    exists (Raise e), wm. split; [reflexivity |].
    destruct (mutate_extends env cfg problem t w p labels HP) as [extra Hext].
    rewrite Hm in Hext. simpl in Hext.
    split; [rewrite Hext; apply rescored_app |].
    split; [exact Hcalls |]. split; [discriminate | eauto].
Qed.

Lemma calls_of_emit_call a t w :
  calls_of (snd (emit (MutateCalled a t) w)) = calls_of w ++ [(a, t)].
Proof. unfold calls_of, mutate_calls, emit. simpl. now rewrite omap_app. Qed.

Lemma mutation_step_run cfg types problem new w :
  types <> [] ->
  is_problem (objects w) problem ->
  Forall (is_problem (objects w)) new ->
  exists new' w' t,
    mutation_step env cfg types problem new w = (Ok new', w')
    /\ rescored (objects w) (objects w')
    /\ Forall (is_problem (objects w')) new'
    /\ calls_of w' = calls_of w ++ [(problem, t)]
    /\ t ∈ types
    /\ (mutation_always_fails env cfg -> new' = new).
Proof.
  intros Hne HP Hnew. unfold mutation_step.
  destruct (random_choice_Ok env types w Hne) as (t & w1 & Hchoice & Ht).
  pose proof (objects_random_choice env types w) as Hobj1.
  pose proof (calls_random_choice env types w) as Hcalls1.
  rewrite Hchoice in Hobj1, Hcalls1. simpl in Hobj1, Hcalls1.
  rewrite (bind_Ok _ _ _ _ _ Hchoice).
  pose proof (calls_of_emit_call problem t w1) as Hcalls2.
  destruct (emit (MutateCalled problem t) w1) as [r2 w2] eqn:Hemit.
  assert (r2 = Ok tt /\ objects w2 = objects w1) as [-> Hobj2]
    by (unfold emit in Hemit; injection Hemit as <- <-; now split).
  simpl in Hcalls2. rewrite (bind_Ok _ _ _ _ _ Hemit).
  assert (is_problem (objects w2) problem) as HP2 by congruence.
  destruct (scored_child cfg problem t w2 HP2)
    as (r & w3 & Hattempt & Hres3 & Hcalls3 & Hchild & Hfail).
  rewrite (bind_Ok _ _ _ _ _ Hattempt).
  assert (rescored (objects w) (objects w3)) as Hres by congruence.
  assert (calls_of w3 = calls_of w ++ [(problem, t)]) as Hcalls by congruence.
  destruct r as [child | e].
  - destruct (save_or_report child problem w3) as (w4 & Hsave & Hobj4 & Hcalls4).
    { now apply (rescored_is_problem (objects w)). }
    rewrite (bind_Ok _ _ _ _ _ Hsave).
    exists (new ++ [child]), w4, t. split; [reflexivity |].
    rewrite Hobj4, Hcalls4. split; [exact Hres |].
    split; [| split; [exact Hcalls | split; [exact Ht |]]].
    + apply Forall_app. split; [now apply (rescored_all_problems (objects w)) |].
      constructor; [now apply Hchild | constructor].
    + intros Hf. destruct (Hfail Hf) as [e He]. discriminate.
  - destruct (report_error_Ok problem e w3) as [w4 Hreport].
    { now apply (rescored_is_problem (objects w)). }
    pose proof (objects_report_error env problem e w3) as Hobj4.
    pose proof (calls_report_error problem e w3) as Hcalls4.
    rewrite Hreport in Hobj4, Hcalls4. simpl in Hobj4, Hcalls4.
    rewrite (bind_Ok _ _ _ _ _ Hreport).
    exists new, w4, t. split; [reflexivity |].
    rewrite Hobj4, Hcalls4. split; [exact Hres |].
    split; [now apply (rescored_all_problems (objects w)) |].
    split; [exact Hcalls |]. split; [exact Ht | reflexivity].
Qed.

End Round.

(** ** The loops of a round *)

Section Loops.
Context (env : Env).

Lemma mutation_loop_run cfg types selected new w :
  types <> [] ->
  Forall (is_problem (objects w)) selected ->
  Forall (is_problem (objects w)) new ->
  exists new' w' chosen,
    mutation_loop env cfg types selected new w = (Ok new', w')
    /\ rescored (objects w) (objects w')
    /\ Forall (is_problem (objects w')) new'
    /\ calls_of w' = calls_of w ++ zip selected chosen
    /\ length chosen = length selected
    /\ Forall (fun t => t ∈ types) chosen
    /\ (mutation_always_fails env cfg -> new' = new).
Proof.
  intros Hne. revert new w.
  induction selected as [| problem rest IH]; intros new w Hsel Hnew; simpl.
  - exists new, w, []. split; [reflexivity |].
    split; [apply rescored_refl |]. split; [exact Hnew |].
    split; [now rewrite app_nil_r |]. repeat split. constructor.
  - apply Forall_cons in Hsel as [HP Hrest].
    destruct (mutation_step_run env cfg types problem new w Hne HP Hnew)
      as (new1 & w1 & t & Hstep & Hres1 & Hnew1 & Hcalls1 & Ht & Hfail1).
    rewrite (bind_Ok _ _ _ _ _ Hstep).
    destruct (IH new1 w1) as (new2 & w2 & chosen & Hloop & Hres2 & Hnew2
                              & Hcalls2 & Hlen & Hchosen & Hfail2).
    { now apply (rescored_all_problems (objects w)). }
    { exact Hnew1. }
    exists new2, w2, (t :: chosen). split; [exact Hloop |].
    split; [now apply (rescored_trans _ (objects w1)) |].
    split; [exact Hnew2 |].
    split; [rewrite Hcalls2, Hcalls1, <- app_assoc; reflexivity |].
    split; [simpl; now rewrite Hlen |].
    split; [now constructor |].
    intros Hf. rewrite (Hfail2 Hf). now apply Hfail1.
Qed.

Lemma calls_score_unscored problems :
  preserves calls_of (score_unscored env problems).
Proof.
  induction problems as [| a rest IH]; simpl; [apply preserves_ret |].
  apply preserves_bind; [apply preserves_getattr |]. intros s.
  apply preserves_bind; [| intros _; exact IH].
  destruct (Qeq_bool s 0); [| apply preserves_ret].
  apply preserves_bind; [apply calls_evaluate_problem |]. intros v.
  apply calls_update_problem.
Qed.

Lemma score_unscored_run problems w :
  Forall (is_problem (objects w)) problems ->
  exists w',
    score_unscored env problems w = (Ok tt, w')
    /\ rescored (objects w) (objects w').
Proof.
  revert w. induction problems as [| a rest IH]; intros w Hall; simpl.
  - exists w. split; [reflexivity | apply rescored_refl].
  - apply Forall_cons in Hall as [(p & labels & HP) Hrest].
    pose proof HP as [Ha Hl].
    rewrite (bind_Ok _ _ _ _ _ (getattr_at score w a p Ha)).
    destruct (Qeq_bool (score p) 0).
    + set (v := score_value env (content p) labels).
      set (w1 := mkWorld (<[a := ObjProblem (set_score v p)]> (objects w))
                         (rng_seed w) (rng_pos w) (ticks w) (trace w)).
      assert ((v <- evaluate_problem env a;;
               update_problem a (set_score v)) w = (Ok tt, w1)) as Hscore.
      { rewrite (bind_Ok _ _ _ _ _ (evaluate_problem_at env w a p labels HP)).
        unfold update_problem. now rewrite Ha. }
      rewrite (bind_Ok _ _ _ _ _ Hscore).
      assert (rescored (objects w) (objects w1)) as Hres
        by now apply rescored_insert.
      destruct (IH w1) as (w2 & Hrun & Hres2).
      { now apply (rescored_all_problems (objects w)). }
      exists w2. split; [exact Hrun |].
      now apply (rescored_trans _ (objects w1)).
    + unfold bind, ret. now apply IH.
Qed.

Lemma keyed_run (l : list loc) w :
  Forall (is_problem (objects w)) l ->
  map_M (fun x => s <- getattr score x;; ret (s, x)) l w
  = (Ok (map (fun a => (score_at (objects w) a, a)) l), w).
Proof.
  induction l as [| a l IH]; intros Hall; simpl; [reflexivity |].
  apply Forall_cons in Hall as [(p & labels & Ha & _) Hl].
  unfold bind at 1. unfold bind at 1.
  rewrite (getattr_at score w a p Ha). unfold ret at 1.
  rewrite (bind_Ok _ _ _ _ _ (IH Hl)).
  unfold ret, score_at. now rewrite Ha.
Qed.

Lemma sorted_by_score_run (l : list loc) w :
  Forall (is_problem (objects w)) l ->
  sorted_by_score l w
  = (Ok (map snd (sort_desc (map (fun a => (score_at (objects w) a, a)) l))),
     w).
Proof.
  intros Hall. unfold sorted_by_score.
  now rewrite (bind_Ok _ _ _ _ _ (keyed_run l w Hall)).
Qed.

Lemma ranked_Permutation (h : heap) (l : list loc) :
  map snd (sort_desc (map (fun a => (score_at h a, a)) l)) ≡ₚ l.
Proof.
  rewrite sort_desc_Permutation, map_map. simpl. now rewrite map_id.
Qed.

Lemma ranked_sorted (h : heap) (l : list loc) :
  sorted_by_score_desc h
    (map snd (sort_desc (map (fun a => (score_at h a, a)) l))).
Proof.
  set (keyed := sort_desc (map (fun a => (score_at h a, a)) l)).
  assert (Forall (fun x => fst x = score_at h (snd x)) keyed) as Hkeys.
  { unfold keyed. rewrite sort_desc_Permutation.
    apply Forall_forall. intros x Hx.
    apply list_elem_of_fmap in Hx as (a & -> & _). reflexivity. }
  pose proof (sort_desc_sorted (map (fun a => (score_at h a, a)) l)) as Hs.
  fold keyed in Hs.
  intros i j a b pa pb Hij Hi Hj Ha Hb.
  change (map snd keyed) with (snd <$> keyed) in Hi, Hj.
  apply list_lookup_fmap_Some in Hi as ([ka a'] & Heqa & Hi).
  apply list_lookup_fmap_Some in Hj as ([kb b'] & Heqb & Hj).
  simpl in Heqa, Heqb. subst a' b'.
  rewrite Forall_forall in Hkeys.
  assert (ka = score pa) as ->.
  { assert ((ka, a) ∈ keyed) as Hin by (apply list_elem_of_lookup; eauto).
    apply Hkeys in Hin. simpl in Hin. unfold score_at in Hin.
    now rewrite Ha in Hin. }
  assert (kb = score pb) as ->.
  { assert ((kb, b) ∈ keyed) as Hin by (apply list_elem_of_lookup; eauto).
    apply Hkeys in Hin. simpl in Hin. unfold score_at in Hin.
    now rewrite Hb in Hin. }
  destruct (decide (i = j)) as [-> | Hne].
  - rewrite Hi in Hj. injection Hj as -> ->. apply Qle_refl.
  - exact (StronglySorted_lookup key_ge keyed i j _ _ Hs ltac:(lia) Hi Hj).
Qed.

Lemma sorted_take (h : heap) (l : list loc) n :
  sorted_by_score_desc h l -> sorted_by_score_desc h (take n l).
Proof.
  intros Hs i j a b pa pb Hij Hi Hj.
  apply lookup_take_Some in Hi as [Hi _].
  apply lookup_take_Some in Hj as [Hj _].
  now apply (Hs i j).
Qed.

Lemma sorted_slice_to (h : heap) (l : list loc) k :
  sorted_by_score_desc h l -> sorted_by_score_desc h (slice_to k l).
Proof. unfold slice_to. destruct (0 <=? k)%Z; apply sorted_take. Qed.

Lemma slice_to_length {A} (l : list A) k :
  (0 <= k)%Z -> length (slice_to k l) = Nat.min (Z.to_nat k) (length l).
Proof.
  intros Hk. unfold slice_to.
  destruct (Z.leb_spec 0 k); [apply length_take | lia].
Qed.

Lemma slice_to_submseteq {A} (l : list A) k : slice_to k l ⊆+ l.
Proof. unfold slice_to. destruct (0 <=? k)%Z; apply submseteq_take. Qed.

Lemma ranked_all_problems (h : heap) (l : list loc) k :
  Forall (is_problem h) l ->
  Forall (is_problem h)
    (slice_to k (map snd (sort_desc (map (fun a => (score_at h a, a)) l)))).
Proof.
  intros Hall. rewrite Forall_forall in Hall |- *. intros a Ha. apply Hall.
  eapply elem_of_submseteq; [exact Ha |].
  etransitivity; [apply slice_to_submseteq |].
  apply Permutation_submseteq, ranked_Permutation.
Qed.

End Loops.

(** ** When no mutation can succeed *)

Section Failures.
Context (env : Env) (cfg : Config).

Ltac run_bind :=
  match goal with
  | |- context [bind ?m ?k ?w] =>
      let E := fresh "E" in
      destruct (m w) as [[? | ?] ?] eqn:E;
      [rewrite (bind_Ok _ _ _ _ _ E) | rewrite (bind_Raise _ _ _ _ _ E)]
  end.

(** The backend is down: every request raises. *)
Lemma backend_down_fails :
  (forall n model system user,
     exists e, chat_completion env n model system user = Raise e) ->
  mutation_always_fails env cfg.
Proof.
  intros Hdown problem t w. unfold mutate.
  run_bind; [| eauto]. run_bind; [| eauto]. run_bind; [| eauto].
  unfold try_except.
  match goal with
  | |- context [bind ?m ?k ?w] =>
      assert (exists e w', bind m k w = (Raise e, w')) as (e & w' & ->)
  end; [| unfold mutation_failed, raise; eauto].
  run_bind; [| eauto]. run_bind; [| eauto]. run_bind; [| eauto].
  match goal with
  | |- context [chat_completion env ?n ?model ?system ?user] =>
      destruct (Hdown n model system user) as [e ->]
  end.
  eexists _, _. apply bind_Raise. reflexivity.
Qed.

(** No template can be formatted. *)
Lemma templating_down_fails :
  (forall template text, exists e, str_format env template text = Raise e) ->
  mutation_always_fails env cfg.
Proof.
  intros Hdown problem t w. unfold mutate.
  run_bind; [| eauto]. run_bind; [| eauto].
  match goal with
  | |- context [str_format env ?template ?text] =>
      destruct (Hdown template text) as [e ->]
  end.
  eexists _, _. apply bind_Raise. reflexivity.
Qed.

(** No prompt file exists. *)
Lemma prompts_missing_fails :
  (forall n path, read_text env n path = None) ->
  mutation_always_fails env cfg.
Proof.
  intros Hnone problem t w. unfold mutate, load_prompt.
  eexists _, _. apply bind_Raise.
  unfold bind, tick. now rewrite Hnone.
Qed.

End Failures.

(** The strategy [add_constraints] is one of the handler's, and is not one
    of those a round chooses from. *)
Lemma add_constraints_not_chosen :
  "add_constraints" ∈ handler_mutation_types
  /\ "add_constraints" ∉ round_mutation_types.
Proof.
  split.
  - unfold handler_mutation_types. set_solver.
  - unfold round_mutation_types. intros Hin.
    repeat (apply elem_of_cons in Hin as [Hin | Hin]; [discriminate |]).
    now apply elem_of_nil in Hin.
Qed.

(** ** A round *)

Section ProcessRound.
Context (env : Env).

(** A round on a well-formed population, with a sample size that is not
    negative: it returns the first [topk_problems] of the children and the
    population in descending order of score. *)
Lemma process_round_run cfg problems w :
  (0 <= num_problems cfg)%Z ->
  Forall (is_problem (objects w)) problems ->
  exists selected chosen new w',
    process_round env cfg problems w
    = (Ok (slice_to (topk_problems cfg)
             (map snd (sort_desc (map (fun a => (score_at (objects w') a, a))
                                      (new ++ problems))))), w')
    /\ rescored (objects w) (objects w')
    /\ Forall (is_problem (objects w')) (new ++ problems)
    /\ selected ⊆+ problems
    /\ length selected
       = Z.to_nat (Z.min (num_problems cfg) (Z.of_nat (length problems)))
    /\ calls_of w' = calls_of w ++ zip selected chosen
    /\ length chosen = length selected
    /\ Forall (fun t => t ∈ round_mutation_types) chosen
    /\ (mutation_always_fails env cfg -> new = []).
Proof.
  intros Hnum Hall. unfold process_round.
  set (start := LogInfo _).
  assert (preserves calls_of (emit start)) as Hc0
    by (now apply calls_emit).
  specialize (Hc0 w).
  destruct (emit start w) as [r0 w0] eqn:Hstart.
  assert (r0 = Ok tt /\ objects w0 = objects w) as [-> Hobj0]
    by (unfold emit in Hstart; injection Hstart as <- <-; now split).
  simpl in Hc0. rewrite (bind_Ok _ _ _ _ _ Hstart).
  destruct (random_sample_Ok env problems
              (Z.min (num_problems cfg) (Z.of_nat (length problems))) w0
              ltac:(lia))
    as (selected & w1 & Hsample & Hlen & Hsub).
  pose proof (objects_random_sample env problems
                (Z.min (num_problems cfg) (Z.of_nat (length problems))) w0)
    as Hobj1.
  pose proof (calls_random_sample env problems
                (Z.min (num_problems cfg) (Z.of_nat (length problems))) w0)
    as Hc1.
  rewrite Hsample in Hobj1, Hc1. simpl in Hobj1, Hc1.
  rewrite (bind_Ok _ _ _ _ _ Hsample).
  assert (Forall (is_problem (objects w1)) problems) as Hall1 by congruence.
  assert (Forall (is_problem (objects w1)) selected) as Hsel.
  { rewrite Forall_forall in Hall1 |- *. intros a Ha. apply Hall1.
    eapply elem_of_submseteq; eassumption. }
  destruct (mutation_loop_run env cfg round_mutation_types selected [] w1
              ltac:(discriminate) Hsel ltac:(constructor))
    as (new & w2 & chosen & Hloop & Hres2 & Hnew2 & Hc2 & Hlen2 & Hchosen
        & Hfail).
  rewrite (bind_Ok _ _ _ _ _ Hloop).
  set (finished := LogInfo _).
  assert (preserves calls_of (emit finished)) as Hc3
    by (now apply calls_emit).
  specialize (Hc3 w2).
  destruct (emit finished w2) as [r3 w3] eqn:Hdone.
  assert (r3 = Ok tt /\ objects w3 = objects w2) as [-> Hobj3]
    by (unfold emit in Hdone; injection Hdone as <- <-; now split).
  simpl in Hc3. rewrite (bind_Ok _ _ _ _ _ Hdone).
  assert (Forall (is_problem (objects w3)) problems) as Hall3.
  { rewrite Hobj3. now apply (rescored_all_problems (objects w1)). }
  destruct (score_unscored_run env problems w3 Hall3) as (w4 & Hscore & Hres4).
  pose proof (calls_score_unscored env problems w3) as Hc4.
  rewrite Hscore in Hc4. simpl in Hc4.
  rewrite (bind_Ok _ _ _ _ _ Hscore).
  assert (Forall (is_problem (objects w4)) (new ++ problems)) as Hall4.
  { apply (rescored_all_problems (objects w3)); [exact Hres4 |].
    apply Forall_app. split; [congruence | exact Hall3]. }
  rewrite (bind_Ok _ _ _ _ _ (sorted_by_score_run (new ++ problems) w4 Hall4)).
  exists selected, chosen, new, w4. split; [reflexivity |].
  split.
  { apply (rescored_trans _ (objects w2)); [congruence |].
    now rewrite <- Hobj3. }
  split; [exact Hall4 |]. split; [exact Hsub |]. split; [exact Hlen |].
  split; [congruence |]. split; [exact Hlen2 |]. split; [exact Hchosen |].
  exact Hfail.
Qed.

End ProcessRound.

(** C1.  With a sample size and a top-K that are not negative (as
    [Config.from_args] ensures), a round on any population of problems
    returns, whatever is drawn and whatever the backend answers; the list it
    returns has at most [topk_problems] entries, all of them problems, and
    is in descending order of score. *)
Theorem process_round_bounded_sorted (env : Env) (cfg : Config)
    (problems : list loc) (w : World) :
  (0 <= num_problems cfg)%Z ->
  (0 <= topk_problems cfg)%Z ->
  Forall (is_problem (objects w)) problems ->
  exists result w',
    process_round env cfg problems w = (Ok result, w')
    /\ (Z.of_nat (length result) <= topk_problems cfg)%Z
    /\ Forall (is_problem (objects w')) result
    /\ sorted_by_score_desc (objects w') result.
Proof.
  intros Hnum Htopk Hall.
  destruct (process_round_run env cfg problems w Hnum Hall)
    as (selected & chosen & new & w' & Hrun & _ & Hall' & _).
  eexists _, w'. split; [exact Hrun |]. split; [| split].
  - rewrite slice_to_length by exact Htopk. lia.
  - now apply ranked_all_problems.
  - apply sorted_slice_to, ranked_sorted.
Qed.

Lemma process_round_bounded_sorted_witness :
  exists result w',
    process_round demo_env demo_config [1; 3] demo_world = (Ok result, w')
    /\ (Z.of_nat (length result) <= topk_problems demo_config)%Z
    /\ Forall (is_problem (objects w')) result
    /\ sorted_by_score_desc (objects w') result.
Proof.
  destruct (from_args_Ok demo_args demo_config eq_refl) as (_ & Htopk & Hnum).
  apply (process_round_bounded_sorted demo_env demo_config [1; 3]
           demo_world).
  - lia.
  - lia.
  - repeat constructor.
    + exists demo_seed, ["rephrase"]. split; reflexivity.
    + exists demo_twin, ["rephrase"]. split; reflexivity.
Defined.

(** C6.  When every call of [mutate] raises, a round on a population that
    is not empty still returns: the result is not empty, has
    [min(topk_problems, |P|)] entries, all of them problems of the input
    population (which are as they were, but for the scores the round gave),
    and is in descending order of score. *)
Theorem process_round_all_mutations_fail (env : Env) (cfg : Config)
    (problems : list loc) (w : World) :
  (0 <= num_problems cfg)%Z ->
  (1 <= topk_problems cfg)%Z ->
  problems <> [] ->
  Forall (is_problem (objects w)) problems ->
  mutation_always_fails env cfg ->
  exists result w',
    process_round env cfg problems w = (Ok result, w')
    /\ result <> []
    /\ Z.of_nat (length result)
       = Z.min (topk_problems cfg) (Z.of_nat (length problems))
    /\ result ⊆+ problems
    /\ rescored (objects w) (objects w')
    /\ Forall (is_problem (objects w')) result
    /\ sorted_by_score_desc (objects w') result.
Proof.
  intros Hnum Htopk Hne Hall Hfail.
  destruct (process_round_run env cfg problems w Hnum Hall)
    as (selected & chosen & new & w' & Hrun & Hres & Hall' & _ & _ & _ & _
        & _ & Hnew).
  rewrite (Hnew Hfail) in Hrun, Hall'. simpl in Hrun, Hall'.
  set (ranked := map snd (sort_desc (map (fun a => (score_at (objects w') a, a))
                                         problems))) in *.
  assert (length ranked = length problems) as Hlen
    by (unfold ranked; now rewrite ranked_Permutation).
  assert (Z.of_nat (length (slice_to (topk_problems cfg) ranked))
          = Z.min (topk_problems cfg) (Z.of_nat (length problems))) as Hsize.
  { rewrite slice_to_length by lia. rewrite Hlen. lia. }
  exists (slice_to (topk_problems cfg) ranked), w'.
  split; [exact Hrun |].
  split; [| split; [exact Hsize | split; [| split; [exact Hres | split]]]].
  - intros Hnil. rewrite Hnil in Hsize. simpl in Hsize.
    destruct problems; [congruence | simpl in Hsize; lia].
  - etransitivity; [apply slice_to_submseteq |].
    apply Permutation_submseteq, ranked_Permutation.
  - now apply ranked_all_problems.
  - apply sorted_slice_to, ranked_sorted.
Qed.

Lemma broken_env_fails (cfg : Config) : mutation_always_fails broken_env cfg.
Proof. apply prompts_missing_fails. reflexivity. Qed.

Lemma process_round_all_mutations_fail_witness :
  exists result w',
    process_round broken_env demo_config [1; 3] demo_world = (Ok result, w')
    /\ result <> []
    /\ Z.of_nat (length result)
       = Z.min (topk_problems demo_config) (Z.of_nat (length [1; 3]))
    /\ result ⊆+ [1; 3]
    /\ rescored (objects demo_world) (objects w')
    /\ Forall (is_problem (objects w')) result
    /\ sorted_by_score_desc (objects w') result.
Proof.
  destruct (from_args_Ok demo_args demo_config eq_refl) as (_ & Htopk & Hnum).
  apply (process_round_all_mutations_fail broken_env demo_config [1; 3]
           demo_world).
  - lia.
  - lia.
  - discriminate.
  - repeat constructor.
    + exists demo_seed, ["rephrase"]. split; reflexivity.
    + exists demo_twin, ["rephrase"]. split; reflexivity.
  - apply broken_env_fails.
Defined.

(** C8.  In a round, [mutate] is called once for each sampled problem; the
    sampled problems are [min(num_problems, |P|)] problems of the
    population, drawn without replacement, and each mutation type is one of
    rephrase, expand and simplify, never add_constraints. *)
Theorem process_round_choices (env : Env) (cfg : Config)
    (problems : list loc) (w : World) :
  (0 <= num_problems cfg)%Z ->
  Forall (is_problem (objects w)) problems ->
  exists result w' calls,
    process_round env cfg problems w = (Ok result, w')
    /\ mutate_calls (trace w') = mutate_calls (trace w) ++ calls
    /\ Z.of_nat (length calls)
       = Z.min (num_problems cfg) (Z.of_nat (length problems))
    /\ map fst calls ⊆+ problems
    /\ Forall (fun call => (snd call = "rephrase" \/ snd call = "expand"
                            \/ snd call = "simplify")
                           /\ snd call <> "add_constraints") calls.
Proof.
  intros Hnum Hall.
  destruct (process_round_run env cfg problems w Hnum Hall)
    as (selected & chosen & new & w' & Hrun & _ & _ & Hsub & Hlen & Hcalls
        & Hlen2 & Hchosen & _).
  eexists _, w', (zip selected chosen). split; [exact Hrun |].
  split; [exact Hcalls |].
  split; [rewrite length_zip, Hlen2, Hlen; lia |].
  split; [rewrite fst_zip by lia; exact Hsub |].
  apply Forall_forall. intros [a t] Hin. simpl.
  assert (t ∈ round_mutation_types) as Ht.
  { rewrite Forall_forall in Hchosen. apply Hchosen.
    apply elem_of_zip_r in Hin. exact Hin. }
  unfold round_mutation_types in Ht.
  repeat (apply elem_of_cons in Ht as [-> | Ht]);
    try (split; [tauto | discriminate]).
  now apply elem_of_nil in Ht.
Qed.

Lemma process_round_choices_witness :
  exists result w' calls,
    process_round demo_env demo_config [1; 3] demo_world = (Ok result, w')
    /\ mutate_calls (trace w') = mutate_calls (trace demo_world) ++ calls
    /\ Z.of_nat (length calls)
       = Z.min (num_problems demo_config) (Z.of_nat (length [1; 3]))
    /\ map fst calls ⊆+ [1; 3]
    /\ Forall (fun call => (snd call = "rephrase" \/ snd call = "expand"
                            \/ snd call = "simplify")
                           /\ snd call <> "add_constraints") calls.
Proof.
  destruct (from_args_Ok demo_args demo_config eq_refl) as (_ & Htopk & Hnum).
  apply (process_round_choices demo_env demo_config [1; 3] demo_world).
  - lia.
  - repeat constructor.
    + exists demo_seed, ["rephrase"]. split; reflexivity.
    + exists demo_twin, ["rephrase"]. split; reflexivity.
Defined.

(** * More properties of the code *)

(** ** [mutation.py]: how a mutation fails *)

(** X1.  [add_constraints(p)] is [mutate(p, "add_constraints")]: the two
    methods do the same on every problem and in every state. *)
Theorem add_constraints_is_mutate (env : Env) (cfg : Config) (problem : loc) :
  add_constraints env cfg problem = mutate env cfg problem "add_constraints".
Proof. reflexivity. Qed.

(** X2.  Without the prompt file of the mutation type, [mutate] raises
    [FileNotFoundError] naming the path; the error is not wrapped into a
    "Mutation failed" error, no request is sent and the store is as it was. *)
Theorem mutate_missing_prompt (env : Env) (cfg : Config) (problem : loc)
    (t : string) (w : World) :
  read_text env (ticks w) (prompt_dir +:+ "/" +:+ t +:+ ".txt") = None ->
  mutate env cfg problem t w
  = (Raise (mkExn FileNotFoundError
                  ("Prompt file not found: output/prompts/mutations/"
                   +:+ t +:+ ".txt")),
     mkWorld (objects w) (rng_seed w) (rng_pos w) (S (ticks w)) (trace w)).
Proof.
  intros Hnone. unfold mutate, load_prompt.
  apply bind_Raise. unfold bind, tick. cbn [ticks].
  now rewrite Hnone.
Qed.

Lemma mutate_missing_prompt_witness :
  mutate broken_env demo_config 1 "rephrase" demo_world
  = (Raise (mkExn FileNotFoundError
                  ("Prompt file not found: output/prompts/mutations/"
                   +:+ "rephrase" +:+ ".txt")),
     mkWorld (objects demo_world) (rng_seed demo_world) (rng_pos demo_world)
             (S (ticks demo_world)) (trace demo_world)).
Proof.
  apply (mutate_missing_prompt broken_env demo_config 1 "rephrase"
           demo_world).
  reflexivity.
Defined.

(** X3.  An exception of [str.format] on the template leaves [mutate] as it
    is: the formatting is outside the [try], so the error is not turned into
    a "Mutation failed" error; no request is sent. *)
Theorem mutate_format_error (env : Env) (cfg : Config) (problem : loc)
    (t : string) (w : World) (p : Problem) (labels : list string)
    (template : string) (e : exn) :
  problem_at (objects w) problem p labels ->
  read_text env (ticks w) (prompt_dir +:+ "/" +:+ t +:+ ".txt")
  = Some template ->
  str_format env template (content p) = Raise e ->
  mutate env cfg problem t w
  = (Raise e,
     mkWorld (objects w) (rng_seed w) (rng_pos w) (S (ticks w)) (trace w)).
Proof.
  intros HP Hread Hfmt.
  rewrite (mutate_eq env cfg problem t w p labels HP). cbv zeta.
  now rewrite Hread, Hfmt.
Qed.

Lemma mutate_format_error_witness :
  mutate unformattable_env demo_config 1 "rephrase" demo_world
  = (Raise (mkExn KeyError "'this'"),
     mkWorld (objects demo_world) (rng_seed demo_world) (rng_pos demo_world)
             (S (ticks demo_world)) (trace demo_world)).
Proof.
  apply (mutate_format_error unformattable_env demo_config 1 "rephrase"
           demo_world demo_seed ["rephrase"] "Rewrite {this}: ").
  - split; reflexivity.
  - reflexivity.
  - reflexivity.
Defined.

(** X4.  When the backend raises, or answers with no choice at all,
    [mutate] raises a [RuntimeError] whose message is "Mutation failed: "
    followed by the message of the cause; the request was sent, no problem
    was made and the store is as it was. *)
Theorem mutate_backend_failure (env : Env) (cfg : Config) (problem : loc)
    (t : string) (w : World) (p : Problem) (labels : list string)
    (template prompt : string) :
  problem_at (objects w) problem p labels ->
  read_text env (ticks w) (prompt_dir +:+ "/" +:+ t +:+ ".txt")
  = Some template ->
  str_format env template (content p) = Ok prompt ->
  let sent :=
    mkWorld (objects w) (rng_seed w) (rng_pos w) (2 + ticks w)
            (trace w ++ [ChatRequest (agent cfg) prompt (content p)]) in
  (forall e,
     chat_completion env (1 + ticks w) (agent cfg) prompt (content p)
     = Raise e ->
     mutate env cfg problem t w
     = (Raise (mkExn RuntimeError ("Mutation failed: " +:+ exn_str e)), sent))
  /\ (chat_completion env (1 + ticks w) (agent cfg) prompt (content p)
      = Ok (mkResponse []) ->
      mutate env cfg problem t w
      = (Raise (mkExn RuntimeError
                      "Mutation failed: list index out of range"), sent)).
Proof.
  intros HP Hread Hfmt sent. split.
  - intros e Hchat.
    rewrite (mutate_eq env cfg problem t w p labels HP). cbv zeta.
    now rewrite Hread, Hfmt, Hchat.
  - intros Hchat.
    rewrite (mutate_eq env cfg problem t w p labels HP). cbv zeta.
    now rewrite Hread, Hfmt, Hchat.
Qed.

Lemma mutate_backend_failure_witness :
  let sent :=
    mkWorld (objects demo_world) (rng_seed demo_world) (rng_pos demo_world)
            (2 + ticks demo_world)
            (trace demo_world
             ++ [ChatRequest (agent demo_config)
                             "Rewrite this problem: Design a system"
                             (content demo_seed)]) in
  (forall e,
     chat_completion offline_env (1 + ticks demo_world) (agent demo_config)
                     "Rewrite this problem: Design a system"
                     (content demo_seed) = Raise e ->
     mutate offline_env demo_config 1 "rephrase" demo_world
     = (Raise (mkExn RuntimeError ("Mutation failed: " +:+ exn_str e)), sent))
  /\ (chat_completion offline_env (1 + ticks demo_world) (agent demo_config)
                      "Rewrite this problem: Design a system"
                      (content demo_seed) = Ok (mkResponse []) ->
      mutate offline_env demo_config 1 "rephrase" demo_world
      = (Raise (mkExn RuntimeError
                      "Mutation failed: list index out of range"), sent)).
Proof.
  apply (mutate_backend_failure offline_env demo_config 1 "rephrase"
           demo_world demo_seed ["rephrase"] "Rewrite this problem: ").
  - split; reflexivity.
  - reflexivity.
  - reflexivity.
Defined.

(** X5.  [mutate] sends one request, with the formatted template as the
    system message and the parent's content as the user message, as soon as
    the template is read and formatted, whatever the backend then answers;
    it sends none otherwise.  Nothing else is done to the outside. *)
Theorem mutate_sends_one_request (env : Env) (cfg : Config) (problem : loc)
    (t : string) (w : World) (p : Problem) (labels : list string) :
  problem_at (objects w) problem p labels ->
  trace (snd (mutate env cfg problem t w))
  = match read_text env (ticks w) (prompt_dir +:+ "/" +:+ t +:+ ".txt") with
    | Some template =>
        match str_format env template (content p) with
        | Ok prompt =>
            trace w ++ [ChatRequest (agent cfg) prompt (content p)]
        | Raise _ => trace w
        end
    | None => trace w
    end.
Proof.
  intros HP. rewrite (mutate_eq env cfg problem t w p labels HP). cbv zeta.
  destruct (read_text env _ _) as [template |]; [| reflexivity].
  destruct (str_format env template (content p)) as [prompt | e];
    [| reflexivity].
  destruct (chat_completion env _ _ _ _) as [response | e]; [| reflexivity].
  now destruct (choices response !! 0).
Qed.

Lemma mutate_sends_one_request_witness :
  trace (snd (mutate offline_env demo_config 1 "rephrase" demo_world))
  = match read_text offline_env (ticks demo_world)
                    (prompt_dir +:+ "/" +:+ "rephrase" +:+ ".txt") with
    | Some template =>
        match str_format offline_env template (content demo_seed) with
        | Ok prompt =>
            trace demo_world
            ++ [ChatRequest (agent demo_config) prompt (content demo_seed)]
        | Raise _ => trace demo_world
        end
    | None => trace demo_world
    end.
Proof.
  apply (mutate_sends_one_request offline_env demo_config 1 "rephrase"
           demo_world demo_seed ["rephrase"]).
  split; reflexivity.
Defined.

(** ** [config.py] and [main.py]: what is accepted, and a missing input *)

Lemma from_args_inv (args : Args) (cfg : Config) :
  from_args args = Ok cfg ->
  (1 <= arg_num_rounds args /\ 1 <= arg_topk_problems args
   /\ arg_topk_problems args <= arg_num_problems args)%Z
  /\ cfg = mkConfig (arg_seed args) (arg_agent args)
                    (arg_num_rounds args) (arg_num_problems args)
                    (arg_topk_problems args) (arg_mutate_on_start args)
                    (arg_openai_api_key args) 0.
Proof.
  unfold from_args.
  destruct (Z.ltb_spec (arg_num_rounds args) 1); [discriminate |].
  destruct (Z.ltb_spec (arg_num_problems args) 1); [discriminate |].
  destruct (Z.ltb_spec (arg_topk_problems args) 1); [discriminate |].
  destruct (Z.gtb_spec (arg_topk_problems args) (arg_num_problems args));
    [discriminate |].
  intros [= <-]. split; [lia | reflexivity].
Qed.

(** X6.  [Config.from_args] returns a configuration exactly when
    [num_rounds >= 1] and [1 <= topk_problems <= num_problems]; the
    configuration then carries the arguments unchanged and starts at round
    0. *)
Theorem from_args_accepts (args : Args) (cfg : Config) :
  from_args args = Ok cfg
  <-> ((1 <= arg_num_rounds args /\ 1 <= arg_topk_problems args
        /\ arg_topk_problems args <= arg_num_problems args)%Z
       /\ cfg = mkConfig (arg_seed args) (arg_agent args)
                         (arg_num_rounds args) (arg_num_problems args)
                         (arg_topk_problems args) (arg_mutate_on_start args)
                         (arg_openai_api_key args) 0).
Proof.
  unfold from_args.
  destruct (Z.ltb_spec (arg_num_rounds args) 1);
    [split; [discriminate | lia] |].
  destruct (Z.ltb_spec (arg_num_problems args) 1);
    [split; [discriminate | lia] |].
  destruct (Z.ltb_spec (arg_topk_problems args) 1);
    [split; [discriminate | lia] |].
  destruct (Z.gtb_spec (arg_topk_problems args) (arg_num_problems args));
    [split; [discriminate | lia] |].
  split.
  - intros [= <-]. split; [lia | reflexivity].
  - intros [_ ->]. reflexivity.
Qed.

(** X7.  With valid arguments but no [problems/problems.txt], [main] ends
    with code 1 after logging the error as an unexpected one
    ([FileNotFoundError] is none of the classes [main] names); the generator
    was seeded, and nothing else happened: no problem was made, no round
    started. *)
Theorem main_without_problems_file (env : Env) (args : Args) (cfg : Config)
    (w : World) :
  from_args args = Ok cfg ->
  problems_txt env = None ->
  main env args w
  = (1%Z, mkWorld (objects w) (arg_seed args) 0 (ticks w)
                  (trace w ++ [LogError [Lit "Unexpected error: ";
                                         Lit "problems.txt not found"]])).
Proof.
  intros Hcfg Hfile.
  assert (seed cfg = arg_seed args) as Hseed.
  { apply from_args_inv in Hcfg as [_ ->]. reflexivity. }
  unfold main, main_body, bind, lift, ProblemProcessor_init, random_seed,
    load_problems.
  rewrite Hcfg, Hfile. simpl. now rewrite Hseed.
Qed.

Lemma main_without_problems_file_witness :
  main offline_env demo_args empty_world
  = (1%Z, mkWorld (objects empty_world) (arg_seed demo_args) 0
                  (ticks empty_world)
                  (trace empty_world
                   ++ [LogError [Lit "Unexpected error: ";
                                 Lit "problems.txt not found"]])).
Proof.
  apply (main_without_problems_file offline_env demo_args demo_config
           empty_world).
  - reflexivity.
  - reflexivity.
Defined.

(** ** [processor.py]: the edges of a round *)

(** X8.  A negative sample size makes a round raise the [ValueError] of
    [random.sample], right after the start of the round was logged: nothing
    is mutated, scored or sorted. *)
Theorem process_round_negative_sample (env : Env) (cfg : Config)
    (problems : list loc) (w : World) :
  (num_problems cfg < 0)%Z ->
  process_round env cfg problems w
  = (Raise (mkExn ValueError "Sample larger than population or is negative"),
     mkWorld (objects w) (rng_seed w) (rng_pos w) (ticks w)
             (trace w ++ [LogInfo [Lit "Starting processing round with ";
                                   Int (Z.of_nat (length problems));
                                   Lit " problems"]])).
Proof.
  intros Hneg. unfold process_round.
  unfold bind at 1. unfold emit at 1.
  apply bind_Raise. unfold random_sample.
  replace (0 <=? Z.min (num_problems cfg) (Z.of_nat (length problems)))%Z
    with false by (symmetry; apply Z.leb_gt; lia).
  reflexivity.
Qed.

Lemma process_round_negative_sample_witness :
  process_round demo_env (mkConfig 42 "gpt-4" 5 (-1) 2 false "key" 0) [1; 3]
                demo_world
  = (Raise (mkExn ValueError "Sample larger than population or is negative"),
     mkWorld (objects demo_world) (rng_seed demo_world) (rng_pos demo_world)
             (ticks demo_world)
             (trace demo_world
              ++ [LogInfo [Lit "Starting processing round with ";
                           Int (Z.of_nat (length [1; 3]));
                           Lit " problems"]])).
Proof.
  apply (process_round_negative_sample demo_env
           (mkConfig 42 "gpt-4" 5 (-1) 2 false "key" 0) [1; 3] demo_world).
  reflexivity.
Defined.

(** X9.  A round on the empty population returns the empty population,
    whatever the top-K: it only logs its start and its end with 0 new
    variants; it draws no number and calls nothing. *)
Theorem process_round_empty_population (env : Env) (cfg : Config)
    (w : World) :
  (0 <= num_problems cfg)%Z ->
  process_round env cfg [] w
  = (Ok [],
     mkWorld (objects w) (rng_seed w) (rng_pos w) (ticks w)
             (trace w
              ++ [LogInfo [Lit "Starting processing round with "; Int 0;
                           Lit " problems"]]
              ++ [LogInfo [Lit "Round completed. Generated "; Int 0;
                           Lit " new variants"]])).
Proof.
  intros Hnum. unfold process_round, random_sample.
  replace (Z.min (num_problems cfg) (Z.of_nat (length (@nil loc)))) with 0%Z
    by (simpl; lia).
  unfold bind, emit, ret, slice_to. simpl.
  rewrite <- app_assoc, !take_nil.
  now destruct (0 <=? topk_problems cfg)%Z.
Qed.

Lemma process_round_empty_population_witness :
  process_round demo_env demo_config [] demo_world
  = (Ok [],
     mkWorld (objects demo_world) (rng_seed demo_world) (rng_pos demo_world)
             (ticks demo_world)
             (trace demo_world
              ++ [LogInfo [Lit "Starting processing round with "; Int 0;
                           Lit " problems"]]
              ++ [LogInfo [Lit "Round completed. Generated "; Int 0;
                           Lit " new variants"]])).
Proof.
  apply (process_round_empty_population demo_env demo_config demo_world).
  simpl. lia.
Defined.

(** X10.  When the population is no larger than the sample size (as it is
    from the second round on, since [topk_problems <= num_problems]), every
    problem of the population is sampled: [mutate] is called exactly once
    on each of them. *)
Theorem process_round_samples_everyone (env : Env) (cfg : Config)
    (problems : list loc) (w : World) :
  (Z.of_nat (length problems) <= num_problems cfg)%Z ->
  Forall (is_problem (objects w)) problems ->
  exists result w' calls,
    process_round env cfg problems w = (Ok result, w')
    /\ mutate_calls (trace w') = mutate_calls (trace w) ++ calls
    /\ map fst calls ≡ₚ problems.
Proof.
  intros Hsize Hall.
  destruct (process_round_run env cfg problems w ltac:(lia) Hall)
    as (selected & chosen & new & w' & Hrun & _ & _ & Hsub & Hlen & Hcalls
        & Hlen2 & _).
  eexists _, w', (zip selected chosen). split; [exact Hrun |].
  split; [exact Hcalls |].
  rewrite fst_zip by lia.
  apply submseteq_length_Permutation; [exact Hsub | lia].
Qed.

Lemma process_round_samples_everyone_witness :
  exists result w' calls,
    process_round demo_env demo_config [1; 3] demo_world = (Ok result, w')
    /\ mutate_calls (trace w') = mutate_calls (trace demo_world) ++ calls
    /\ map fst calls ≡ₚ [1; 3].
Proof.
  apply (process_round_samples_everyone demo_env demo_config [1; 3]
           demo_world).
  - simpl. lia.
  - repeat constructor.
    + exists demo_seed, ["rephrase"]. split; reflexivity.
    + exists demo_twin, ["rephrase"]. split; reflexivity.
Defined.

(** ** The scorer: what the lineage is worth *)

Section Lineage.
Context (env : Env).





Lemma diversity_value_le_1 labels : (diversity_value labels <= 1)%Q.
Proof.
  unfold diversity_value, py_min.
  destruct (Qlt_le_dec 1 _); [apply Qle_refl | assumption].
Qed.


End Lineage.



(** X12.  The diversity factor lies between 0 and 1; it is 0 for a problem
    without mutations and 1 as soon as the history has three distinct
    labels. *)
Theorem calculate_diversity_bounds (w : World) (v : loc) (p : Problem)
    (labels : list string) :
  problem_at (objects w) v p labels ->
  exists d,
    _calculate_diversity v w = (Ok d, w)
    /\ (0 <= d /\ d <= 1)%Q
    /\ (labels = [] -> (d == 0)%Q)
    /\ (3 <= length (remove_dups labels) -> (d == 1)%Q).
Proof.
  intros HP. exists (diversity_value labels).
  split; [now apply (calculate_diversity_at w v p) |].
  split; [split; [apply diversity_value_nonneg | apply diversity_value_le_1] |].
  split.
  - intros ->. reflexivity.
  - intros Hthree. unfold diversity_value. rewrite distinct_labels.
    unfold py_min.
    destruct (Qlt_le_dec 1 (int_div (length (remove_dups labels)) 3))
      as [_ | Hle]; [reflexivity |].
    apply Qle_antisym; [exact Hle |].
    rewrite int_div_Qmake. unfold Qle. simpl. lia.
Qed.

Lemma calculate_diversity_bounds_witness :
  exists d,
    _calculate_diversity 1 demo_world = (Ok d, demo_world)
    /\ (0 <= d /\ d <= 1)%Q
    /\ (["rephrase"] = [] -> (d == 0)%Q)
    /\ (3 <= length (remove_dups ["rephrase"]) -> (d == 1)%Q).
Proof.
  apply (calculate_diversity_bounds demo_world 1 demo_seed ["rephrase"]).
  split; reflexivity.
Defined.

(** ** [problem.py]: every problem has a list of its own *)

Lemma lookup_added {A} (h extra : list A) i :
  (h ++ extra) !! (length h + i) = extra !! i.
Proof.
  rewrite lookup_app_r by lia. f_equal. lia.
Qed.

(** X13.  Two problems made by [Problem.create] are two objects with two
    mutation lists, both empty ([__post_init__] makes a list for each problem
    where the default is [None]); each has the parent it was given, and the
    objects that were there before are as they were. *)
Theorem Problem_create_twice (env : Env) (c1 c2 : string)
    (parent1 parent2 : option UUID) (w : World) :
  exists v1 v2 w1 w2 p1 p2,
    Problem_create env c1 parent1 w = (Ok v1, w1)
    /\ Problem_create env c2 parent2 w1 = (Ok v2, w2)
    /\ problem_at (objects w2) v1 p1 []
    /\ problem_at (objects w2) v2 p2 []
    /\ v1 <> v2
    /\ mutations p1 <> mutations p2
    /\ (content p1 = c1 /\ parent_id p1 = parent1)
    /\ (content p2 = c2 /\ parent_id p2 = parent2)
    /\ (forall a o, objects w !! a = Some o -> objects w2 !! a = Some o).
Proof.
  eexists _, _, _, _, _, _.
  split; [apply Problem_create_eq |].
  split; [apply Problem_create_eq |].
  cbn [objects ticks]. rewrite <- app_assoc. cbn [app].
  rewrite length_app. cbn [length].
  replace (S (length (objects w))) with (length (objects w) + 1) by lia.
  replace (S (length (objects w) + 2)) with (length (objects w) + 3) by lia.
  split; [| split; [| split; [| split; [| split; [| split]]]]].
  - split; [now rewrite lookup_added |]. cbn [mutations].
    rewrite lookup_app_r by lia. now rewrite Nat.sub_diag.
  - split; [now rewrite lookup_added |]. cbn [mutations].
    now rewrite lookup_added.
  - lia.
  - cbn [mutations]. lia.
  - split; reflexivity.
  - split; reflexivity.
  - intros a o Ha. now apply lookup_old.
Qed.

(** ** [load_problems]: the seeds *)

Section Strip.

Lemma lstrip_clean s : clean (PyStr.lstrip s).
Proof.
  induction s as [| c s IH]; simpl; [exact I |].
  destruct (PyStr.is_space c) eqn:Hc; [exact IH | exact Hc].
Qed.

Lemma lstrip_of_clean s : clean s -> PyStr.lstrip s = s.
Proof. destruct s as [| c s]; simpl; [reflexivity |]. now intros ->. Qed.

Lemma rstrip_clean s : clean s -> clean (PyStr.rstrip s).
Proof.
  destruct s as [| c s]; simpl; [exact (fun H => H) |].
  intros Hc. rewrite Hc. simpl. exact Hc.
Qed.

Lemma rstrip_idempotent s : PyStr.rstrip (PyStr.rstrip s) = PyStr.rstrip s.
Proof.
  induction s as [| c s IH]; simpl; [reflexivity |].
  destruct (PyStr.is_space c && PyStr.is_empty (PyStr.rstrip s)) eqn:Hdrop;
    [reflexivity |].
  simpl. now rewrite IH, Hdrop.
Qed.

Lemma strip_idempotent s : PyStr.strip (PyStr.strip s) = PyStr.strip s.
Proof.
  unfold PyStr.strip.
  rewrite (lstrip_of_clean (PyStr.rstrip (PyStr.lstrip s)))
    by apply rstrip_clean, lstrip_clean.
  apply rstrip_idempotent.
Qed.

Lemma is_empty_iff s : PyStr.is_empty s = false <-> s <> "".
Proof. destruct s; simpl; split; congruence. Qed.

End Strip.

Section Seeds.
Context (env : Env).

Lemma create_seeds (lines : list string) w :
  exists locs w' extra,
    map_M (fun line => Problem_create env (PyStr.strip line) None) lines w
    = (Ok locs, w')
    /\ objects w' = objects w ++ extra
    /\ Forall2 (seed_of (objects w')) locs lines.
Proof.
  revert w. induction lines as [| line lines IH]; intros w; simpl.
  - exists [], w, []. split; [reflexivity |].
    split; [now rewrite app_nil_r | constructor].
  - rewrite (bind_Ok _ _ _ _ _ (Problem_create_eq env _ None w)).
    set (w1 := mkWorld _ _ _ _ _).
    destruct (IH w1) as (locs & w' & extra & Hrun & Hext & Hseeds).
    rewrite (bind_Ok _ _ _ _ _ Hrun).
    eexists (_ :: locs), w', (_ ++ extra). split; [reflexivity |].
    split; [rewrite Hext; unfold w1; cbn [objects];
            now rewrite <- app_assoc |].
    constructor; [| exact Hseeds].
    exists (mkProblem (uuid4 env (ticks w)) (PyStr.strip line) 0 None
                      (length (objects w)) (datetime_now env (S (ticks w)))).
    rewrite Hext. unfold w1. cbn [objects].
    split; [split | now repeat split].
    + apply lookup_old.
      replace (S (length (objects w))) with (length (objects w) + 1) by lia.
      now rewrite lookup_added.
    + cbn [mutations]. apply lookup_old.
      rewrite lookup_app_r by lia. now rewrite Nat.sub_diag.
Qed.

End Seeds.

(** X14.  [load_problems] makes one problem for each line of
    [problems.txt] that is not blank, in the order of the file: its content
    is the line without the white space around it (so it is its own
    [strip()]), its score is 0, it has no parent and no mutation; the
    objects of the store are as they were. *)
Theorem load_problems_seeds (env : Env) (lines : list string) (w : World) :
  problems_txt env = Some lines ->
  exists locs w',
    load_problems env w = (Ok locs, w')
    /\ Forall2 (fun a line =>
                  exists p,
                    problem_at (objects w') a p []
                    /\ content p = PyStr.strip line
                    /\ PyStr.strip (content p) = content p
                    /\ score p = 0%Q
                    /\ parent_id p = None)
               locs (filter (fun line => PyStr.strip line <> "") lines)
    /\ (forall a o, objects w !! a = Some o -> objects w' !! a = Some o).
Proof.
  intros Hfile. unfold load_problems. rewrite Hfile.
  rewrite (list_filter_iff (fun line => PyStr.strip line <> "")
             (fun line => PyStr.is_empty (PyStr.strip line) = false))
    by (intros line; symmetry; apply is_empty_iff).
  destruct (create_seeds env
              (filter (fun line => PyStr.is_empty (PyStr.strip line) = false)
                      lines) w)
    as (locs & w' & extra & Hrun & Hext & Hseeds).
  exists locs, w'. split; [exact Hrun |]. split.
  - eapply Forall2_impl; [exact Hseeds |].
    intros a line (p & HP & Hc & Hs & Hpar). exists p.
    split; [exact HP |]. split; [exact Hc |].
    split; [rewrite Hc; apply strip_idempotent |]. now split.
  - intros a o Ha. rewrite Hext. now apply lookup_old.
Qed.

Lemma load_problems_seeds_witness :
  exists locs w',
    load_problems demo_env empty_world = (Ok locs, w')
    /\ Forall2 (fun a line =>
                  exists p,
                    problem_at (objects w') a p []
                    /\ content p = PyStr.strip line
                    /\ PyStr.strip (content p) = content p
                    /\ score p = 0%Q
                    /\ parent_id p = None)
               locs (filter (fun line => PyStr.strip line <> "")
                            ["Problem 1"; "Problem 2"; "Problem 3"])
    /\ (forall a o,
          objects empty_world !! a = Some o -> objects w' !! a = Some o).
Proof.
  apply (load_problems_seeds demo_env ["Problem 1"; "Problem 2"; "Problem 3"]
           empty_world).
  reflexivity.
Defined.

(** ** [save_problem]: the file of a problem *)

(** X15.  [save_problem] makes the output directory and opens the file
    [output/<id>.txt], then writes the content of the problem to it.  When
    either of the two disk operations raises, the exception goes on and
    nothing is written; in no case is the store changed. *)
Theorem save_problem_outcome (env : Env) (w : World) (v : loc) (p : Problem) :
  objects w !! v = Some (ObjProblem p) ->
  save_problem env v w
  = match disk_write env (ticks w) with
    | Some e =>
        (Raise e, mkWorld (objects w) (rng_seed w) (rng_pos w)
                          (1 + ticks w) (trace w))
    | None =>
        match disk_write env (1 + ticks w) with
        | Some e =>
            (Raise e, mkWorld (objects w) (rng_seed w) (rng_pos w)
                              (2 + ticks w) (trace w))
        | None =>
            (Ok tt,
             mkWorld (objects w) (rng_seed w) (rng_pos w) (2 + ticks w)
                     (trace w ++ [FileWritten [Lit "output/"; Uid (id p);
                                               Lit ".txt"] (content p)]))
        end
    end.
Proof.
  intros Hv. unfold save_problem, disk_op.
  unfold bind at 1. unfold bind at 1. unfold tick at 1.
  destruct (disk_write env (ticks w)) as [e |]; [reflexivity |].
  unfold ret at 1.
  set (w1 := mkWorld (objects w) (rng_seed w) (rng_pos w) (S (ticks w))
                     (trace w)).
  rewrite (bind_Ok _ _ _ _ _ (getattr_at id w1 v p Hv)).
  unfold bind at 1. unfold bind at 1. unfold tick at 1.
  cbn [ticks w1 objects rng_seed rng_pos trace].
  change (1 + ticks w) with (S (ticks w)).
  destruct (disk_write env (S (ticks w))) as [e |]; [reflexivity |].
  unfold ret at 1.
  set (w2 := mkWorld (objects w) (rng_seed w) (rng_pos w) (S (S (ticks w)))
                     (trace w)).
  rewrite (bind_Ok _ _ _ _ _ (getattr_at content w2 v p Hv)).
  reflexivity.
Qed.

Lemma save_problem_outcome_witness :
  save_problem demo_env 1 demo_world
  = match disk_write demo_env (ticks demo_world) with
    | Some e =>
        (Raise e, mkWorld (objects demo_world) (rng_seed demo_world)
                          (rng_pos demo_world) (1 + ticks demo_world)
                          (trace demo_world))
    | None =>
        match disk_write demo_env (1 + ticks demo_world) with
        | Some e =>
            (Raise e, mkWorld (objects demo_world) (rng_seed demo_world)
                              (rng_pos demo_world) (2 + ticks demo_world)
                              (trace demo_world))
        | None =>
            (Ok tt,
             mkWorld (objects demo_world) (rng_seed demo_world)
                     (rng_pos demo_world) (2 + ticks demo_world)
                     (trace demo_world
                      ++ [FileWritten [Lit "output/"; Uid (id demo_seed);
                                       Lit ".txt"] (content demo_seed)]))
        end
    end.
Proof.
  apply (save_problem_outcome demo_env demo_world 1 demo_seed).
  reflexivity.
Defined.

(** ** The ranking: [sorted(..., key=lambda x: x.score, reverse=True)] *)

Section Stable.
Context {A : Type}.
Implicit Types (x : Q * A) (l : list (Q * A)).

(** The entries whose key is [q]. *)
Lemma insert_desc_same_key q x l :
  List.filter (fun y => Qeq_bool (fst y) q) (insert_desc x l)
  = List.filter (fun y => Qeq_bool (fst y) q) (x :: l).
Proof.
  induction l as [| y l IH]; [reflexivity |].
  cbn [insert_desc].
  destruct (Qle_bool (fst y) (fst x)) eqn:Hcmp; [reflexivity |].
  cbn [List.filter] in *. rewrite IH.
  destruct (Qeq_bool (fst y) q) eqn:Hy; [| reflexivity].
  destruct (Qeq_bool (fst x) q) eqn:Hx; [| reflexivity].
  apply Qeq_bool_iff in Hx, Hy.
  assert (Qle_bool (fst y) (fst x) = true) as Hle.
  { apply Qle_bool_iff. rewrite Hx, Hy. apply Qle_refl. }
  congruence.
Qed.

Lemma sort_desc_same_key q l :
  List.filter (fun y => Qeq_bool (fst y) q) (sort_desc l)
  = List.filter (fun y => Qeq_bool (fst y) q) l.
Proof.
  induction l as [| x l IH]; [reflexivity |].
  cbn [sort_desc]. rewrite insert_desc_same_key.
  cbn [List.filter]. now rewrite IH.
Qed.

Lemma filter_keyed (key : A -> Q) q (items : list A) :
  List.filter (fun y => Qeq_bool (fst y) q) (map (fun a => (key a, a)) items)
  = map (fun a => (key a, a)) (List.filter (fun a => Qeq_bool (key a) q) items).
Proof.
  induction items as [| a items IH]; [reflexivity |].
  cbn [map List.filter fst]. rewrite IH.
  now destruct (Qeq_bool (key a) q).
Qed.

Lemma filter_unkeyed (key : A -> Q) q l :
  Forall (fun x => fst x = key (snd x)) l ->
  List.filter (fun a => Qeq_bool (key a) q) (map snd l)
  = map snd (List.filter (fun y => Qeq_bool (fst y) q) l).
Proof.
  induction 1 as [| x l Hx Hl IH]; [reflexivity |].
  cbn [map List.filter]. rewrite IH, <- Hx.
  now destruct (Qeq_bool (fst x) q).
Qed.

Lemma ranked_same_key (key : A -> Q) q (items : list A) :
  List.filter (fun a => Qeq_bool (key a) q)
              (map snd (sort_desc (map (fun a => (key a, a)) items)))
  = List.filter (fun a => Qeq_bool (key a) q) items.
Proof.
  rewrite filter_unkeyed.
  - rewrite sort_desc_same_key, filter_keyed, map_map. simpl.
    now rewrite map_id.
  - rewrite sort_desc_Permutation. apply Forall_forall. intros x Hx.
    apply list_elem_of_fmap in Hx as (a & -> & _). reflexivity.
Qed.

End Stable.

(** X16.  The ranking used by a round and by the leaderboard only reads
    the store; it returns the problems it was given, each as often as it
    was given, in descending order of score, and problems of equal score in
    the order they came in.  A round ranks the new children before the
    population, so a child goes before a problem of the population with the
    same score. *)
Theorem sorted_by_score_stable (problems : list loc) (w : World) :
  Forall (is_problem (objects w)) problems ->
  exists ranked,
    sorted_by_score problems w = (Ok ranked, w)
    /\ ranked ≡ₚ problems
    /\ sorted_by_score_desc (objects w) ranked
    /\ forall q,
         List.filter (fun a => Qeq_bool (score_at (objects w) a) q) ranked
         = List.filter (fun a => Qeq_bool (score_at (objects w) a) q)
                       problems.
Proof.
  intros Hall. eexists. split; [now apply sorted_by_score_run |].
  split; [apply ranked_Permutation |].
  split; [apply ranked_sorted |].
  intros q. apply (ranked_same_key (score_at (objects w))).
Qed.

Lemma sorted_by_score_stable_witness :
  exists ranked,
    sorted_by_score [1; 3] demo_world = (Ok ranked, demo_world)
    /\ ranked ≡ₚ [1; 3]
    /\ sorted_by_score_desc (objects demo_world) ranked
    /\ forall q,
         List.filter (fun a => Qeq_bool (score_at (objects demo_world) a) q)
                     ranked
         = List.filter (fun a => Qeq_bool (score_at (objects demo_world) a) q)
                       [1; 3].
Proof.
  apply (sorted_by_score_stable [1; 3] demo_world).
  repeat constructor.
  - exists demo_seed, ["rephrase"]. split; reflexivity.
  - exists demo_twin, ["rephrase"]. split; reflexivity.
Defined.

(** ** The events of a computation *)

Section Emits.
Context (Q : Event -> Prop).

Lemma emits_quiet {A} (m : M A) : preserves trace m -> emits_only Q m.
Proof.
  intros Hm w. exists []. rewrite Hm, app_nil_r. split; [reflexivity |].
  constructor.
Qed.

Lemma emits_ret {A} (a : A) : emits_only Q (ret a).
Proof. apply emits_quiet. intros w. reflexivity. Qed.

Lemma emits_raise {A} (e : exn) : emits_only Q (raise (A := A) e).
Proof. apply emits_quiet. intros w. reflexivity. Qed.

Lemma emits_emit ev : Q ev -> emits_only Q (emit ev).
Proof. intros Hev w. exists [ev]. split; [reflexivity | now constructor]. Qed.

Lemma emits_bind {A B} (m : M A) (k : A -> M B) :
  emits_only Q m -> (forall a, emits_only Q (k a)) ->
  emits_only Q (bind m k).
Proof.
  intros Hm Hk w. unfold bind. destruct (Hm w) as (ev1 & Ht1 & HQ1).
  destruct (m w) as [[a | e] w1]; simpl in Ht1; [| now exists ev1].
  destruct (Hk a w1) as (ev2 & Ht2 & HQ2).
  exists (ev1 ++ ev2). rewrite Ht2, Ht1, app_assoc.
  split; [reflexivity | now apply Forall_app].
Qed.

Lemma emits_try_except {A} (m : M A) (h : exn -> M A) :
  emits_only Q m -> (forall e, emits_only Q (h e)) ->
  emits_only Q (try_except m h).
Proof.
  intros Hm Hh w. unfold try_except. destruct (Hm w) as (ev1 & Ht1 & HQ1).
  destruct (m w) as [[a | e] w1]; simpl in Ht1; [now exists ev1 |].
  destruct (Hh e w1) as (ev2 & Ht2 & HQ2).
  exists (ev1 ++ ev2). rewrite Ht2, Ht1, app_assoc.
  split; [reflexivity | now apply Forall_app].
Qed.

Lemma emits_attempt {A} (m : M A) :
  emits_only Q m -> emits_only Q (attempt m).
Proof.
  intros Hm w. unfold attempt. destruct (Hm w) as (ev1 & Ht1 & HQ1).
  destruct (m w) as [r w1]. now exists ev1.
Qed.

Lemma emits_lift {A} (r : result A) : emits_only Q (lift r).
Proof. destruct r; [apply emits_ret | apply emits_raise]. Qed.

Lemma emits_if {A} (b : bool) (m1 m2 : M A) :
  emits_only Q m1 -> emits_only Q m2 ->
  emits_only Q (if b then m1 else m2).
Proof. now destruct b. Qed.

Lemma emits_map_M {A B} (g : A -> M B) (xs : list A) :
  (forall x, emits_only Q (g x)) -> emits_only Q (map_M g xs).
Proof.
  intros Hg. induction xs as [| x xs IH]; simpl; [apply emits_ret |].
  apply emits_bind; [apply Hg |]. intros y.
  apply emits_bind; [exact IH |]. intros ys. apply emits_ret.
Qed.

Lemma trace_tick : preserves trace tick.
Proof. intros w. reflexivity. Qed.

Lemma trace_alloc o : preserves trace (alloc o).
Proof. intros w. reflexivity. Qed.

Lemma trace_update_problem a g : preserves trace (update_problem a g).
Proof.
  intros w. unfold update_problem. now destruct (objects w !! a) as [[|] |].
Qed.

Lemma emits_tick : emits_only Q tick.
Proof. apply emits_quiet, trace_tick. Qed.

Lemma emits_alloc o : emits_only Q (alloc o).
Proof. apply emits_quiet, trace_alloc. Qed.

Lemma emits_update_problem a g : emits_only Q (update_problem a g).
Proof. apply emits_quiet, trace_update_problem. Qed.

Lemma emits_getattr {A} (field : Problem -> A) a :
  emits_only Q (getattr field a).
Proof. apply emits_quiet, preserves_getattr. Qed.

Lemma emits_read_list a : emits_only Q (read_list a).
Proof. apply emits_quiet, preserves_read_list. Qed.

End Emits.

Create HintDb emits.
#[local] Hint Resolve emits_ret emits_raise emits_bind emits_try_except
  emits_attempt emits_lift emits_if emits_map_M emits_tick emits_alloc
  emits_update_problem emits_getattr emits_read_list emits_emit : emits.

Section EmitsProgram.
Context (env : Env) (Q : Event -> Prop).

Lemma emits_next_random : emits_only Q (next_random env).
Proof. apply emits_quiet. intros w. reflexivity. Qed.

Lemma emits_random_seed s : emits_only Q (random_seed s).
Proof. apply emits_quiet. intros w. reflexivity. Qed.

Hint Resolve emits_next_random emits_random_seed : emits.

Lemma emits_random_choice {A} (seq : list A) :
  emits_only Q (random_choice env seq).
Proof.
  unfold random_choice, randbelow.
  destruct seq as [| x seq]; [eauto with emits |].
  apply emits_bind; [eauto with emits |]. intros i.
  destruct (_ !! i); eauto with emits.
Qed.

Lemma emits_sample_pool {A} (pool : list A) k :
  emits_only Q (sample_pool env pool k).
Proof.
  revert pool. induction k as [| k IH]; intros pool; simpl;
    [eauto with emits |].
  apply emits_bind; [unfold randbelow; eauto with emits |]. intros j.
  destruct (pool !! j); eauto with emits.
Qed.

Lemma emits_random_sample {A} (population : list A) k :
  emits_only Q (random_sample env population k).
Proof.
  unfold random_sample.
  destruct (_ && _); [apply emits_sample_pool | eauto with emits].
Qed.

Lemma emits_disk_op : emits_only Q (disk_op env).
Proof.
  unfold disk_op. apply emits_bind; [eauto with emits |]. intros n.
  destruct (disk_write env n); eauto with emits.
Qed.

Lemma emits_Problem_create text parent :
  emits_only Q (Problem_create env text parent).
Proof.
  apply emits_quiet. intros w. now rewrite Problem_create_eq.
Qed.

Lemma emits_evaluate_problem a : emits_only Q (evaluate_problem env a).
Proof.
  unfold evaluate_problem, _calculate_complexity, _calculate_clarity,
    _calculate_diversity.
  eauto 30 with emits.
Qed.

Hint Resolve emits_random_choice emits_random_sample emits_disk_op
  emits_Problem_create emits_evaluate_problem : emits.

Lemma emits_sorted_by_score problems :
  emits_only Q (sorted_by_score problems).
Proof. unfold sorted_by_score. eauto 10 with emits. Qed.

Lemma emits_mutate cfg a t :
  (forall prompt user, Q (ChatRequest (agent cfg) prompt user)) ->
  emits_only Q (mutate env cfg a t).
Proof.
  intros HQ. unfold mutate, load_prompt, mutation_failed, first_completion.
  apply emits_bind.
  { apply emits_bind; [eauto with emits |]. intros n.
    destruct (read_text env n _); eauto with emits. }
  intros template. apply emits_bind; [eauto with emits |].
  intros text. apply emits_bind; [eauto with emits |].
  intros prompt. apply emits_try_except; [| eauto with emits].
  apply emits_bind; [eauto with emits |]. intros user.
  apply emits_bind; [eauto with emits |]. intros n.
  apply emits_bind; [apply emits_emit, HQ |]. intros _.
  apply emits_bind; [eauto with emits |]. intros response.
  apply emits_bind.
  { destruct (choices response !! 0); eauto with emits. }
  intros new_content. eauto 20 with emits.
Qed.

Lemma emits_save_problem a :
  (forall ident text,
     Q (FileWritten [Lit "output/"; Uid ident; Lit ".txt"] text)) ->
  emits_only Q (save_problem env a).
Proof.
  intros HQ. unfold save_problem.
  repeat (apply emits_bind; [eauto with emits |]; intros ?).
  apply emits_emit, HQ.
Qed.

Lemma emits_report_error a e :
  (forall msg, Q (Print msg)) -> emits_only Q (report_error a e).
Proof.
  intros HQ. unfold report_error. apply emits_bind; [eauto with emits |].
  intros ident. apply emits_emit, HQ.
Qed.

Lemma emits_score_unscored problems :
  emits_only Q (score_unscored env problems).
Proof.
  induction problems as [| a rest IH]; simpl; [apply emits_ret |].
  apply emits_bind; [eauto with emits |]. intros s.
  apply emits_bind; [| intros _; exact IH].
  apply emits_if; eauto with emits.
Qed.

Section Round.
Context (cfg : Config).
Hypothesis Q_log : forall msg, Q (LogInfo msg).
Hypothesis Q_print : forall msg, Q (Print msg).
Hypothesis Q_call : forall a t, Q (MutateCalled a t).
Hypothesis Q_request :
  forall prompt user, Q (ChatRequest (agent cfg) prompt user).
Hypothesis Q_file :
  forall ident text,
    Q (FileWritten [Lit "output/"; Uid ident; Lit ".txt"] text).

Lemma emits_mutation_step types problem new :
  emits_only Q (mutation_step env cfg types problem new).
Proof.
  unfold mutation_step.
  apply emits_bind; [eauto with emits |]. intros t.
  apply emits_bind; [apply emits_emit, Q_call |]. intros _.
  apply emits_bind.
  { apply emits_attempt.
    apply emits_bind; [now apply emits_mutate |]. intros c.
    eauto 10 with emits. }
  intros [c | e].
  - apply emits_bind; [| eauto with emits].
    apply emits_try_except; [now apply emits_save_problem |].
    intros e. now apply emits_report_error.
  - apply emits_bind; [now apply emits_report_error | eauto with emits].
Qed.

Lemma emits_mutation_loop types selected new :
  emits_only Q (mutation_loop env cfg types selected new).
Proof.
  revert new. induction selected as [| problem rest IH]; intros new; simpl;
    [apply emits_ret |].
  apply emits_bind; [apply emits_mutation_step | exact IH].
Qed.

Lemma emits_process_round problems :
  emits_only Q (process_round env cfg problems).
Proof.
  unfold process_round.
  apply emits_bind; [apply emits_emit, Q_log |]. intros _.
  apply emits_bind; [eauto with emits |]. intros selected.
  apply emits_bind; [apply emits_mutation_loop |]. intros new.
  apply emits_bind; [apply emits_emit, Q_log |]. intros _.
  apply emits_bind; [apply emits_score_unscored |]. intros _.
  apply emits_bind; [apply emits_sorted_by_score |]. intros ranked.
  apply emits_ret.
Qed.

Hypothesis Q_leaderboard :
  forall timestamp entries,
    Q (LeaderboardWritten "leaderboard.yaml" timestamp (current_round cfg)
                          entries).

Lemma emits_save_leaderboard problems :
  emits_only Q (save_leaderboard env cfg problems).
Proof.
  unfold save_leaderboard.
  apply emits_bind; [eauto with emits |]. intros n.
  apply emits_bind; [apply emits_sorted_by_score |]. intros ranked.
  apply emits_bind; [eauto 20 with emits |]. intros entries.
  apply emits_bind; [eauto with emits |]. intros _.
  apply emits_emit, Q_leaderboard.
Qed.

Lemma emits_rounds_loop todo round_num problems :
  emits_only Q (rounds_loop env cfg todo round_num problems).
Proof.
  revert round_num problems.
  induction todo as [| todo IH]; intros round_num problems; simpl;
    [apply emits_ret |].
  apply emits_bind; [apply emits_emit, Q_print |]. intros _.
  apply emits_bind; [apply emits_process_round |]. intros problems'.
  apply emits_bind; [apply emits_save_leaderboard |]. intros _.
  apply IH.
Qed.

End Round.

Lemma emits_load_problems : emits_only Q (load_problems env).
Proof.
  unfold load_problems. destruct (problems_txt env); eauto with emits.
Qed.

End EmitsProgram.

Lemma emits_bind_ret (Q : Event -> Prop) {A B} (a : A) (k : A -> M B) :
  emits_only Q (k a) -> emits_only Q (bind (ret a) k).
Proof. intros Hk w. exact (Hk w). Qed.

Lemma emits_main_body (env : Env) (args : Args) :
  emits_only (run_event args) (main_body env args).
Proof.
  unfold main_body. destruct (from_args args) as [cfg | e] eqn:Hcfg.
  - apply from_args_inv in Hcfg as [_ ->]. apply emits_bind_ret.
    set (cfg := mkConfig _ _ _ _ _ _ _ _).
    assert (forall problems,
              emits_only (run_event args) (process_round env cfg problems))
      as Hround.
    { intros problems. apply emits_process_round; intros; try exact I.
      - reflexivity.
      - eexists. reflexivity. }
    apply emits_bind; [apply emits_random_seed |]. intros _.
    apply emits_bind; [apply emits_load_problems |]. intros problems.
    apply emits_bind; [apply emits_if; [apply Hround | apply emits_ret] |].
    intros problems1.
    apply emits_bind; [| intros _; apply emits_ret].
    apply emits_rounds_loop; intros; try exact I.
    + reflexivity.
    + eexists. reflexivity.
    + split; reflexivity.
  - intros w. exists []. split; [simpl; now rewrite app_nil_r | constructor].
Qed.

(** X17.  Whatever happens in a round, all it does to the outside is log
    information, print, send requests for the configured model and write
    files named [output/<id>.txt]: it logs no error, writes no leaderboard,
    and what was in the trace stays. *)
Theorem process_round_events (env : Env) (cfg : Config)
    (problems : list loc) (w : World) :
  exists events,
    trace (snd (process_round env cfg problems w)) = trace w ++ events
    /\ Forall (round_event cfg) events.
Proof.
  apply emits_process_round; intros; try exact I.
  - reflexivity.
  - eexists. reflexivity.
Qed.

(** X18.  Whatever the arguments and the environment, every leaderboard a
    run writes goes to [leaderboard.yaml] with round number 0
    ([current_round] is never advanced), every request is for the model given
    as [--agent], and every other file written is [output/<id>.txt]. *)
Theorem main_events (env : Env) (args : Args) (w : World) :
  exists events,
    trace (snd (main env args w)) = trace w ++ events
    /\ Forall (run_event args) events.
Proof.
  unfold main. destruct (emits_main_body env args w) as (events & Ht & HQ).
  destruct (main_body env args w) as [[[] | e] w1]; simpl in Ht.
  - now exists events.
  - exists (events ++ [LogError [Lit (error_label (exn_type e));
                                 Lit (exn_str e)]]).
    simpl. rewrite Ht, app_assoc. split; [reflexivity |].
    apply Forall_app. split; [exact HQ |]. now repeat constructor.
Qed.

(** ** [save_leaderboard]: the snapshot of a population *)

Section Leaderboard.
Context (env : Env).

Lemma entry_at_problem (h : heap) a p labels :
  problem_at h a p labels -> entry_at h a = mkEntry (id p) (score p) labels.
Proof. intros [Ha Hl]. unfold entry_at. now rewrite Ha, Hl. Qed.

Lemma entries_run (l : list loc) w :
  Forall (is_problem (objects w)) l ->
  map_M (fun p => ident <- getattr id p;;
                  s <- getattr score p;;
                  history <- getattr mutations p;;
                  labels <- read_list history;;
                  ret (mkEntry ident s labels)) l w
  = (Ok (map (entry_at (objects w)) l), w).
Proof.
  induction l as [| a l IH]; intros Hall; simpl; [reflexivity |].
  apply Forall_cons in Hall as [(p & labels & HP) Hl].
  pose proof HP as [Ha Hlist].
  unfold bind at 1. unfold bind at 1.
  rewrite (getattr_at id w a p Ha).
  unfold bind at 1. rewrite (getattr_at score w a p Ha).
  unfold bind at 1. rewrite (getattr_at mutations w a p Ha).
  unfold bind at 1. rewrite (read_list_at w _ labels Hlist).
  unfold ret at 1.
  rewrite (bind_Ok _ _ _ _ _ (IH Hl)).
  unfold ret. now rewrite (entry_at_problem _ _ _ _ HP).
Qed.

Lemma save_leaderboard_run cfg (problems : list loc) w :
  Forall (is_problem (objects w)) problems ->
  let ranked :=
    map snd (sort_desc (map (fun a => (score_at (objects w) a, a)) problems))
  in
  save_leaderboard env cfg problems w
  = match disk_write env (1 + ticks w) with
    | Some e =>
        (Raise e, mkWorld (objects w) (rng_seed w) (rng_pos w)
                          (2 + ticks w) (trace w))
    | None =>
        (Ok tt,
         mkWorld (objects w) (rng_seed w) (rng_pos w) (2 + ticks w)
                 (trace w
                  ++ [LeaderboardWritten "leaderboard.yaml"
                        (datetime_now env (ticks w)) (current_round cfg)
                        (map (entry_at (objects w)) ranked)]))
    end.
Proof.
  intros Hall ranked. unfold save_leaderboard.
  unfold bind at 1. unfold tick at 1.
  set (w1 := mkWorld (objects w) (rng_seed w) (rng_pos w) (S (ticks w))
                     (trace w)).
  rewrite (bind_Ok _ _ _ _ _ (sorted_by_score_run problems w1 Hall)).
  fold ranked. change (objects w1) with (objects w).
  assert (Forall (is_problem (objects w1)) ranked) as Hranked.
  { rewrite Forall_forall in Hall |- *. intros a Ha. apply Hall.
    unfold ranked in Ha. now rewrite ranked_Permutation in Ha. }
  rewrite (bind_Ok _ _ _ _ _ (entries_run ranked w1 Hranked)).
  cbv [bind disk_op tick]. cbn [ticks w1].
  change (1 + ticks w) with (S (ticks w)).
  now destruct (disk_write env (S (ticks w))).
Qed.

End Leaderboard.

(** X19.  [save_leaderboard] takes the time, ranks the population and
    writes one entry for each problem, with its id, score and mutation
    labels, best score first, under the round number of the configuration;
    when the disk raises, the exception goes on and nothing is written.  The
    store is not changed. *)
Theorem save_leaderboard_outcome (env : Env) (cfg : Config)
    (problems : list loc) (w : World) :
  Forall (is_problem (objects w)) problems ->
  exists ranked entries,
    save_leaderboard env cfg problems w
    = match disk_write env (1 + ticks w) with
      | Some e =>
          (Raise e, mkWorld (objects w) (rng_seed w) (rng_pos w)
                            (2 + ticks w) (trace w))
      | None =>
          (Ok tt,
           mkWorld (objects w) (rng_seed w) (rng_pos w) (2 + ticks w)
                   (trace w
                    ++ [LeaderboardWritten "leaderboard.yaml"
                          (datetime_now env (ticks w)) (current_round cfg)
                          entries]))
      end
    /\ ranked ≡ₚ problems
    /\ Forall2 (fun entry a =>
                  exists p labels,
                    problem_at (objects w) a p labels
                    /\ entry = mkEntry (id p) (score p) labels)
               entries ranked
    /\ (forall i j ei ej,
          i <= j -> entries !! i = Some ei -> entries !! j = Some ej ->
          (entry_score ej <= entry_score ei)%Q).
Proof.
  intros Hall.
  set (ranked := map snd (sort_desc (map (fun a => (score_at (objects w) a, a))
                                         problems))).
  assert (Forall (is_problem (objects w)) ranked) as Hranked.
  { rewrite Forall_forall in Hall |- *. intros a Ha. apply Hall.
    unfold ranked in Ha. now rewrite ranked_Permutation in Ha. }
  assert (Forall2 (fun entry a =>
                     exists p labels,
                       problem_at (objects w) a p labels
                       /\ entry = mkEntry (id p) (score p) labels)
                  (map (entry_at (objects w)) ranked) ranked) as Hentries.
  { clear -Hranked. induction Hranked as [| a l (p & labels & HP) Hl IH];
      simpl; constructor; [| exact IH].
    exists p, labels. split; [exact HP | now apply entry_at_problem]. }
  exists ranked, (map (entry_at (objects w)) ranked).
  split; [now apply save_leaderboard_run |].
  split; [apply ranked_Permutation |]. split; [exact Hentries |].
  intros i j ei ej Hij Hi Hj.
  change (map (entry_at (objects w)) ranked)
    with (entry_at (objects w) <$> ranked) in Hi, Hj.
  apply list_lookup_fmap_Some in Hi as (a & -> & Hi).
  apply list_lookup_fmap_Some in Hj as (b & -> & Hj).
  rewrite Forall_forall in Hranked.
  destruct (Hranked a) as (pa & la & HPa);
    [apply list_elem_of_lookup; eauto |].
  destruct (Hranked b) as (pb & lb & HPb);
    [apply list_elem_of_lookup; eauto |].
  rewrite (entry_at_problem _ _ _ _ HPa), (entry_at_problem _ _ _ _ HPb).
  simpl.
  exact (ranked_sorted (objects w) problems i j a b pa pb Hij Hi Hj
           (proj1 HPa) (proj1 HPb)).
Qed.

Lemma save_leaderboard_outcome_witness :
  exists ranked entries,
    save_leaderboard demo_env demo_config [1; 3] demo_world
    = match disk_write demo_env (1 + ticks demo_world) with
      | Some e =>
          (Raise e, mkWorld (objects demo_world) (rng_seed demo_world)
                            (rng_pos demo_world) (2 + ticks demo_world)
                            (trace demo_world))
      | None =>
          (Ok tt,
           mkWorld (objects demo_world) (rng_seed demo_world)
                   (rng_pos demo_world) (2 + ticks demo_world)
                   (trace demo_world
                    ++ [LeaderboardWritten "leaderboard.yaml"
                          (datetime_now demo_env (ticks demo_world))
                          (current_round demo_config) entries]))
      end
    /\ ranked ≡ₚ [1; 3]
    /\ Forall2 (fun entry a =>
                  exists p labels,
                    problem_at (objects demo_world) a p labels
                    /\ entry = mkEntry (id p) (score p) labels)
               entries ranked
    /\ (forall i j ei ej,
          i <= j -> entries !! i = Some ei -> entries !! j = Some ej ->
          (entry_score ej <= entry_score ei)%Q).
Proof.
  apply (save_leaderboard_outcome demo_env demo_config [1; 3] demo_world).
  repeat constructor.
  - exists demo_seed, ["rephrase"]. split; reflexivity.
  - exists demo_twin, ["rephrase"]. split; reflexivity.
Defined.

(** ** A whole run *)

Section Run.
Context (env : Env).

Lemma leaderboards_app ev1 ev2 :
  leaderboards (ev1 ++ ev2) = leaderboards ev1 ++ leaderboards ev2.
Proof. apply omap_app. Qed.

Lemma round_events_no_leaderboard cfg events :
  Forall (round_event cfg) events -> leaderboards events = [].
Proof.
  induction 1 as [| ev events Hev _ IH]; [reflexivity |].
  destruct ev; simpl in *; try exact IH; contradiction.
Qed.

(** A round as a step of the run: its result is again a population of
    problems, no larger than the top-K, and it wrote no leaderboard. *)
Lemma round_of_run cfg problems w :
  (0 <= num_problems cfg)%Z ->
  (0 <= topk_problems cfg)%Z ->
  Forall (is_problem (objects w)) problems ->
  exists result w',
    process_round env cfg problems w = (Ok result, w')
    /\ Forall (is_problem (objects w')) result
    /\ length result <= Z.to_nat (topk_problems cfg)
    /\ leaderboards (trace w') = leaderboards (trace w).
Proof.
  intros Hnum Htopk Hall.
  destruct (process_round_run env cfg problems w Hnum Hall)
    as (selected & chosen & new & w' & Hrun & _ & Hall' & _).
  assert (exists events,
            trace (snd (process_round env cfg problems w)) = trace w ++ events
            /\ Forall (round_event cfg) events) as (events & Ht & Hev).
  { apply emits_process_round; intros; try exact I.
    - reflexivity.
    - eexists. reflexivity. }
  rewrite Hrun in Ht. simpl in Ht.
  eexists _, w'. split; [exact Hrun |].
  split; [now apply ranked_all_problems |].
  split; [rewrite slice_to_length by exact Htopk; lia |].
  rewrite Ht, leaderboards_app, (round_events_no_leaderboard cfg events Hev).
  apply app_nil_r.
Qed.

Lemma rounds_loop_run cfg todo round_num problems w :
  (0 <= num_problems cfg)%Z ->
  (0 <= topk_problems cfg)%Z ->
  (forall n, disk_write env n = None) ->
  Forall (is_problem (objects w)) problems ->
  exists final w' boards,
    rounds_loop env cfg todo round_num problems w = (Ok final, w')
    /\ leaderboards (trace w') = leaderboards (trace w) ++ boards
    /\ length boards = todo
    /\ Forall (fun board =>
                 fst board = current_round cfg
                 /\ length (snd board) <= Z.to_nat (topk_problems cfg))
              boards.
Proof.
  intros Hnum Htopk Hdisk.
  revert round_num problems w.
  induction todo as [| todo IH]; intros round_num problems w Hall; simpl.
  - exists problems, w, []. split; [reflexivity |].
    split; [now rewrite app_nil_r |]. split; [reflexivity | constructor].
  - unfold bind at 1. unfold emit at 1.
    set (w0 := mkWorld _ _ _ _ _).
    destruct (round_of_run cfg problems w0 Hnum Htopk Hall)
      as (result & w1 & Hround & Hall1 & Hlen & Hboards1).
    rewrite (bind_Ok _ _ _ _ _ Hround).
    pose proof (save_leaderboard_run env cfg result w1 Hall1) as Hsave.
    cbv zeta in Hsave. rewrite Hdisk in Hsave.
    rewrite (bind_Ok _ _ _ _ _ Hsave).
    set (w2 := mkWorld (objects w1) _ _ _ _) in *.
    destruct (IH (round_num + 1)%Z result w2 Hall1)
      as (final & w3 & boards & Hloop & Hboards3 & Hcount & Hshape).
    eexists final, w3, (_ :: boards). split; [exact Hloop |].
    split.
    { rewrite Hboards3. unfold w2. cbn [trace].
      rewrite leaderboards_app, Hboards1. unfold w0. cbn [trace].
      rewrite leaderboards_app. simpl. rewrite app_nil_r, <- app_assoc.
      reflexivity. }
    split; [simpl; now rewrite Hcount |].
    constructor; [| exact Hshape].
    simpl. split; [reflexivity |].
    rewrite length_map, ranked_Permutation. exact Hlen.
Qed.

Lemma seeds_are_problems h locs (lines : list string) :
  Forall2 (seed_of h) locs lines -> Forall (is_problem h) locs.
Proof.
  induction 1 as [| a line locs lines (p & HP & _) _ IH]; constructor;
    [| exact IH].
  now exists p, [].
Qed.

Lemma load_problems_run lines w :
  problems_txt env = Some lines ->
  exists locs w',
    load_problems env w = (Ok locs, w')
    /\ Forall (is_problem (objects w')) locs
    /\ trace w' = trace w.
Proof.
  intros Hfile.
  pose proof (emits_load_problems env (fun _ => False) w)
    as (events & Ht & Hnone).
  unfold load_problems in *. rewrite Hfile in *.
  destruct (create_seeds env
              (filter (fun line => PyStr.is_empty (PyStr.strip line) = false)
                      lines) w)
    as (locs & w' & extra & Hrun & _ & Hseeds).
  rewrite Hrun in Ht. simpl in Ht.
  exists locs, w'. split; [exact Hrun |].
  split; [eapply seeds_are_problems; exact Hseeds |].
  destruct events as [| ev events]; [now rewrite app_nil_r in Ht |].
  apply Forall_cons in Hnone as [[] _].
Qed.

End Run.

(** X20.  With valid arguments, a [problems.txt] (empty or not) and a disk
    that takes every write, [main] ends with code 0 whatever is drawn and
    whatever the backend does; it has then written one leaderboard for each
    of the [num_rounds] rounds (none for the round of [--mutate_on_start]),
    each with at most [topk_problems] entries and round number 0. *)
Theorem main_completes (env : Env) (args : Args) (cfg : Config)
    (lines : list string) (w : World) :
  from_args args = Ok cfg ->
  problems_txt env = Some lines ->
  (forall n, disk_write env n = None) ->
  exists w' boards,
    main env args w = (0%Z, w')
    /\ leaderboards (trace w') = leaderboards (trace w) ++ boards
    /\ length boards = Z.to_nat (arg_num_rounds args)
    /\ Forall (fun board =>
                 fst board = 0%Z
                 /\ length (snd board)
                    <= Z.to_nat (arg_topk_problems args)) boards.
Proof.
  intros Hcfg Hfile Hdisk.
  pose proof Hcfg as Hvalid. apply from_args_inv in Hvalid as [Hval ->].
  set (cfg := mkConfig _ _ _ _ _ _ _ _) in *.
  assert (0 <= num_problems cfg)%Z as Hnum by (simpl; lia).
  assert (0 <= topk_problems cfg)%Z as Htopk by (simpl; lia).
  unfold main, main_body. rewrite Hcfg.
  unfold bind at 1. unfold lift, ret at 1.
  unfold bind at 1. unfold ProblemProcessor_init, random_seed.
  set (w0 := mkWorld _ _ _ _ _).
  destruct (load_problems_run env lines w0 Hfile)
    as (locs & w1 & Hload & Hseeds & Htrace1).
  rewrite (bind_Ok _ _ _ _ _ Hload).
  assert (exists problems1 w2,
            (if mutate_on_start cfg
             then process_round env cfg locs else ret locs) w1
            = (Ok problems1, w2)
            /\ Forall (is_problem (objects w2)) problems1
            /\ leaderboards (trace w2) = leaderboards (trace w))
    as (problems1 & w2 & Hstart & Hall2 & Hboards2).
  { destruct (mutate_on_start cfg).
    - destruct (round_of_run env cfg locs w1 Hnum Htopk Hseeds)
        as (result & w2 & Hround & Hall2 & _ & Hboards).
      exists result, w2. split; [exact Hround |]. split; [exact Hall2 |].
      now rewrite Hboards, Htrace1.
    - exists locs, w1. split; [reflexivity |]. split; [exact Hseeds |].
      now rewrite Htrace1. }
  rewrite (bind_Ok _ _ _ _ _ Hstart).
  destruct (rounds_loop_run env cfg (Z.to_nat (num_rounds cfg)) 0 problems1
              w2 Hnum Htopk Hdisk Hall2)
    as (final & w3 & boards & Hloop & Hboards3 & Hcount & Hshape).
  rewrite (bind_Ok _ _ _ _ _ Hloop).
  exists w3, boards. split; [reflexivity |].
  split; [now rewrite Hboards3, Hboards2 |]. split; [exact Hcount |].
  exact Hshape.
Qed.

Lemma main_completes_witness :
  exists w' boards,
    main demo_env demo_args empty_world = (0%Z, w')
    /\ leaderboards (trace w') = leaderboards (trace empty_world) ++ boards
    /\ length boards = Z.to_nat (arg_num_rounds demo_args)
    /\ Forall (fun board =>
                 fst board = 0%Z
                 /\ length (snd board)
                    <= Z.to_nat (arg_topk_problems demo_args)) boards.
Proof.
  apply (main_completes demo_env demo_args demo_config
           ["Problem 1"; "Problem 2"; "Problem 3"] empty_world).
  - reflexivity.
  - reflexivity.
  - reflexivity.
Defined.

Lemma rounds_loop_disk_failure (env : Env) cfg todo round_num problems w :
  (0 <= num_problems cfg)%Z ->
  (0 <= topk_problems cfg)%Z ->
  (forall n, disk_write env n <> None) ->
  Forall (is_problem (objects w)) problems ->
  exists e w',
    rounds_loop env cfg (S todo) round_num problems w = (Raise e, w')
    /\ leaderboards (trace w') = leaderboards (trace w).
Proof.
  intros Hnum Htopk Hdisk Hall. simpl.
  unfold bind at 1. unfold emit at 1.
  set (w0 := mkWorld _ _ _ _ _).
  destruct (round_of_run env cfg problems w0 Hnum Htopk Hall)
    as (result & w1 & Hround & Hall1 & _ & Hboards1).
  rewrite (bind_Ok _ _ _ _ _ Hround).
  pose proof (save_leaderboard_run env cfg result w1 Hall1) as Hsave.
  cbv zeta in Hsave.
  destruct (disk_write env (1 + ticks w1)) as [e |] eqn:He;
    [| now destruct (Hdisk (1 + ticks w1))].
  rewrite (bind_Raise _ _ _ _ _ Hsave).
  eexists _, _. split; [reflexivity |].
  cbn [trace]. rewrite Hboards1. unfold w0. cbn [trace].
  rewrite leaderboards_app. simpl. now rewrite app_nil_r.
Qed.

(** X21.  A disk that refuses every write does not stop a round (the child
    that could not be saved is reported and kept), but it stops the run at
    its first leaderboard: with valid arguments and a [problems.txt],
    [main] ends with code 1 and no leaderboard is written. *)
Theorem main_disk_failure (env : Env) (args : Args) (cfg : Config)
    (lines : list string) (w : World) :
  from_args args = Ok cfg ->
  problems_txt env = Some lines ->
  (forall n, disk_write env n <> None) ->
  fst (main env args w) = 1%Z
  /\ leaderboards (trace (snd (main env args w))) = leaderboards (trace w).
Proof.
  intros Hcfg Hfile Hdisk.
  pose proof Hcfg as Hvalid. apply from_args_inv in Hvalid as [Hval ->].
  set (cfg := mkConfig _ _ _ _ _ _ _ _) in *.
  assert (0 <= num_problems cfg)%Z as Hnum by (simpl; lia).
  assert (0 <= topk_problems cfg)%Z as Htopk by (simpl; lia).
  assert (exists e w', main_body env args w = (Raise e, w')
                       /\ leaderboards (trace w') = leaderboards (trace w))
    as (e & w' & Hbody & Hboards).
  { unfold main_body. rewrite Hcfg.
    unfold bind at 1. unfold lift, ret at 1.
    unfold bind at 1. unfold ProblemProcessor_init, random_seed.
    set (w0 := mkWorld _ _ _ _ _).
    destruct (load_problems_run env lines w0 Hfile)
      as (locs & w1 & Hload & Hseeds & Htrace1).
    rewrite (bind_Ok _ _ _ _ _ Hload).
    assert (exists problems1 w2,
              (if mutate_on_start cfg
               then process_round env cfg locs else ret locs) w1
              = (Ok problems1, w2)
              /\ Forall (is_problem (objects w2)) problems1
              /\ leaderboards (trace w2) = leaderboards (trace w))
      as (problems1 & w2 & Hstart & Hall2 & Hboards2).
    { destruct (mutate_on_start cfg).
      - destruct (round_of_run env cfg locs w1 Hnum Htopk Hseeds)
          as (result & w2 & Hround & Hall2 & _ & Hboards).
        exists result, w2. split; [exact Hround |]. split; [exact Hall2 |].
        now rewrite Hboards, Htrace1.
      - exists locs, w1. split; [reflexivity |]. split; [exact Hseeds |].
        now rewrite Htrace1. }
    rewrite (bind_Ok _ _ _ _ _ Hstart).
    destruct (Z.to_nat (num_rounds cfg)) as [| todo] eqn:Hrounds;
      [simpl in Hrounds; lia |].
    destruct (rounds_loop_disk_failure env cfg todo 0 problems1 w2 Hnum Htopk
                Hdisk Hall2) as (e & w3 & Hloop & Hboards3).
    rewrite (bind_Raise _ _ _ _ _ Hloop).
    exists e, w3. split; [reflexivity | congruence]. }
  unfold main. rewrite Hbody. unfold emit. cbn [fst snd trace].
  split; [reflexivity |].
  rewrite leaderboards_app, Hboards. simpl. now rewrite app_nil_r.
Qed.

Lemma main_disk_failure_witness :
  fst (main full_disk_env demo_args empty_world) = 1%Z
  /\ leaderboards (trace (snd (main full_disk_env demo_args empty_world)))
     = leaderboards (trace empty_world).
Proof.
  apply (main_disk_failure full_disk_env demo_args demo_config
           ["Problem 1"; "Problem 2"; "Problem 3"] empty_world).
  - reflexivity.
  - reflexivity.
  - discriminate.
Defined.

(** ** What a round does to the problems it was given *)

Section Frame.
Context (env : Env).

Lemma keeps_old_preserves {A} (m : M A) w :
  preserves objects m -> keeps_old m w.
Proof. intros Hm a o Ha. now rewrite Hm. Qed.

Lemma keeps_old_bind {A B} (m : M A) (k : A -> M B) w :
  keeps_old m w ->
  (forall x w1, m w = (Ok x, w1) -> keeps_old (k x) w1) ->
  keeps_old (bind m k) w.
Proof.
  intros Hm Hk a o Ha. unfold bind. specialize (Hm a o Ha).
  destruct (m w) as [[x | e] w1] eqn:Hrun; simpl in Hm; [| exact Hm].
  now apply (Hk x w1 eq_refl).
Qed.

Lemma keeps_old_is_problem {A} (m : M A) w a :
  keeps_old m w -> is_problem (objects w) a ->
  is_problem (objects (snd (m w))) a.
Proof.
  intros Hm (p & labels & Ha & Hl). exists p, labels.
  split; now apply Hm.
Qed.

Lemma preserved_objects {A} (m : M A) w x w1 :
  preserves objects m -> m w = (x, w1) -> objects w1 = objects w.
Proof. intros Hm Hrun. specialize (Hm w). now rewrite Hrun in Hm. Qed.

Lemma scored_child_frame cfg problem t w :
  is_problem (objects w) problem ->
  keeps_old (attempt (new_problem <- mutate env cfg problem t;;
                      s <- evaluate_problem env new_problem;;
                      update_problem new_problem (set_score s);;
                      ret new_problem)) w.
Proof.
  intros (p & labels & HP) a o Ha. unfold attempt.
  destruct (mutate env cfg problem t w) as [[child | e] wm] eqn:Hm.
  - destruct (mutate_Ok_inv env cfg problem t w p labels child wm HP Hm)
      as (template & prompt & response & choice & _ & _ & _ & _ & -> & ->).
    set (text := msg_content (message choice)) in *.
    set (wm := after_mutation env cfg p labels prompt t text w) in *.
    pose proof (after_mutation_child env cfg p labels prompt t text w)
      as Hchild.
    fold wm in Hchild. pose proof Hchild as [Hc Hl].
    rewrite (bind_Ok _ _ _ _ _ Hm).
    rewrite (bind_Ok _ _ _ _ _ (evaluate_problem_at env wm _ _ _ Hchild)).
    unfold bind, update_problem, ret. rewrite Hc. cbn [snd objects].
    rewrite list_lookup_insert_ne
      by (apply lookup_lt_Some in Ha; lia).
    unfold wm, after_mutation. cbn [objects]. now apply lookup_old.
  - rewrite (bind_Raise _ _ _ _ _ Hm). cbn [snd].
    destruct (mutate_extends env cfg problem t w p labels HP) as [extra Hext].
    rewrite Hm in Hext. simpl in Hext. rewrite Hext. now apply lookup_old.
Qed.

Lemma mutation_step_frame cfg types problem new w :
  is_problem (objects w) problem ->
  keeps_old (mutation_step env cfg types problem new) w.
Proof.
  intros HP. unfold mutation_step.
  apply keeps_old_bind;
    [apply keeps_old_preserves, objects_random_choice |].
  intros t w1 Hchoice.
  apply (preserved_objects _ _ _ _ (objects_random_choice env types))
    in Hchoice.
  apply keeps_old_bind; [apply keeps_old_preserves, objects_emit |].
  intros [] w2 Hemit.
  apply (preserved_objects _ _ _ _ (objects_emit _)) in Hemit.
  apply keeps_old_bind.
  { apply scored_child_frame. congruence. }
  intros scored w3 _. apply keeps_old_preserves.
  destruct scored as [c | e].
  - apply preserves_bind; [| intros; apply preserves_ret].
    apply preserves_try_except; [apply objects_save_problem |].
    intros e. apply (objects_report_error env).
  - apply preserves_bind; [apply (objects_report_error env) |].
    intros; apply preserves_ret.
Qed.

Lemma mutation_loop_frame cfg types selected new w :
  Forall (is_problem (objects w)) selected ->
  keeps_old (mutation_loop env cfg types selected new) w.
Proof.
  revert new w.
  induction selected as [| problem rest IH]; intros new w Hall; simpl.
  - apply keeps_old_preserves, preserves_ret.
  - apply Forall_cons in Hall as [HP Hrest].
    apply keeps_old_bind; [now apply mutation_step_frame |].
    intros new1 w1 Hstep. apply IH.
    pose proof (mutation_step_frame cfg types problem new w HP) as Hframe.
    unfold keeps_old in Hframe. rewrite Hstep in Hframe.
    eapply Forall_impl; [exact Hrest |]. intros a (p & labels & Ha & Hl).
    exists p, labels. split; now apply Hframe.
Qed.

(** The second loop: what becomes of the problem at [a]. *)
Lemma score_unscored_effect problems w a p labels :
  Forall (is_problem (objects w)) problems ->
  problem_at (objects w) a p labels ->
  exists w',
    score_unscored env problems w = (Ok tt, w')
    /\ problem_at (objects w') a
         (if bool_decide (a ∈ problems) then scored_once env p labels else p)
         labels.
Proof.
  revert w p. induction problems as [| b rest IH]; intros w p Hall HP; simpl.
  - exists w. split; [reflexivity | exact HP].
  - apply Forall_cons in Hall as [(pb & lb & HPb) Hrest].
    pose proof HPb as [Hb Hlb]. pose proof HP as [Ha Hl].
    rewrite (bind_Ok _ _ _ _ _ (getattr_at score w b pb Hb)).
    destruct (Qeq_bool (score pb) 0) eqn:Hzero.
    + set (v := score_value env (content pb) lb).
      set (w1 := mkWorld (<[b := ObjProblem (set_score v pb)]> (objects w))
                         (rng_seed w) (rng_pos w) (ticks w) (trace w)).
      assert ((v <- evaluate_problem env b;;
               update_problem b (set_score v)) w = (Ok tt, w1)) as Hscore.
      { rewrite (bind_Ok _ _ _ _ _ (evaluate_problem_at env w b pb lb HPb)).
        unfold update_problem. now rewrite Hb. }
      rewrite (bind_Ok _ _ _ _ _ Hscore).
      assert (Forall (is_problem (objects w1)) rest) as Hrest1.
      { apply (rescored_all_problems (objects w)); [| exact Hrest].
        now apply rescored_insert. }
      assert (mutations p <> b) as Hlist by congruence.
      destruct (decide (a = b)) as [-> | Hne].
      * assert (pb = p) as -> by congruence.
        assert (lb = labels) as -> by congruence.
        destruct (IH w1 (set_score v p) Hrest1) as (w' & Hrun & Hfinal).
        { split; cbn [objects w1 mutations set_score].
          - apply list_lookup_insert_eq. eapply lookup_lt_Some, Hb.
          - now rewrite list_lookup_insert_ne. }
        exists w'. split; [exact Hrun |].
        rewrite bool_decide_eq_true_2 by (apply elem_of_cons; now left).
        unfold scored_once in *. rewrite Hzero. fold v.
        destruct (bool_decide (b ∈ rest)); [| exact Hfinal].
        cbn [score set_score] in Hfinal.
        now destruct (Qeq_bool v 0).
      * destruct (IH w1 p Hrest1) as (w' & Hrun & Hfinal).
        { split; cbn [objects w1]; now rewrite list_lookup_insert_ne. }
        exists w'. split; [exact Hrun |].
        rewrite (bool_decide_ext (a ∈ b :: rest) (a ∈ rest));
          [exact Hfinal |].
        rewrite elem_of_cons. tauto.
    + unfold bind at 1. unfold ret at 1.
      destruct (IH w p Hrest HP) as (w' & Hrun & Hfinal).
      exists w'. split; [exact Hrun |].
      destruct (decide (a = b)) as [-> | Hne].
      * assert (pb = p) as -> by congruence.
        rewrite bool_decide_eq_true_2 by (apply elem_of_cons; now left).
        unfold scored_once in *. rewrite Hzero in *.
        now destruct (bool_decide (b ∈ rest)).
      * rewrite (bool_decide_ext (a ∈ b :: rest) (a ∈ rest));
          [exact Hfinal |].
        rewrite elem_of_cons. tauto.
Qed.

End Frame.

Section RoundSteps.
Context (env : Env).

(** The four phases of a round: the sample, the first loop, the second loop
    and the ranking, with the states between them. *)
Lemma process_round_steps cfg problems w :
  (0 <= num_problems cfg)%Z ->
  Forall (is_problem (objects w)) problems ->
  exists selected w1 new w2 w4 events,
    objects w1 = objects w
    /\ selected ⊆+ problems
    /\ length selected
       = Z.to_nat (Z.min (num_problems cfg) (Z.of_nat (length problems)))
    /\ mutation_loop env cfg round_mutation_types selected [] w1
       = (Ok new, w2)
    /\ score_unscored env problems
         (snd (emit (round_completed (length new)) w2)) = (Ok tt, w4)
    /\ trace w4 = trace w ++ events
    /\ round_completed (length new) ∈ events
    /\ process_round env cfg problems w
       = (Ok (slice_to (topk_problems cfg)
                (map snd (sort_desc (map (fun a => (score_at (objects w4) a, a))
                                         (new ++ problems))))), w4).
Proof.
  intros Hnum Hall. unfold process_round.
  set (start := LogInfo _).
  set (w0 := snd (emit start w)).
  assert (emit start w = (Ok tt, w0)) as Hstart by reflexivity.
  rewrite (bind_Ok _ _ _ _ _ Hstart).
  set (k := Z.min (num_problems cfg) (Z.of_nat (length problems))).
  destruct (random_sample_Ok env problems k w0 ltac:(lia))
    as (selected & w1 & Hsample & Hlen & Hsub).
  pose proof (objects_random_sample env problems k w0) as Hobj1.
  destruct (emits_random_sample env (fun _ => True) problems k w0)
    as (ev1 & Hev1 & _).
  rewrite Hsample in Hobj1, Hev1. simpl in Hobj1, Hev1.
  rewrite (bind_Ok _ _ _ _ _ Hsample).
  assert (Forall (is_problem (objects w1)) problems) as Hall1 by congruence.
  assert (Forall (is_problem (objects w1)) selected) as Hsel.
  { rewrite Forall_forall in Hall1 |- *. intros a Ha. apply Hall1.
    eapply elem_of_submseteq; eassumption. }
  destruct (mutation_loop_run env cfg round_mutation_types selected [] w1
              ltac:(discriminate) Hsel ltac:(constructor))
    as (new & w2 & chosen & Hloop & Hres2 & Hnew2 & _).
  assert (exists ev2, trace w2 = trace w1 ++ ev2) as [ev2 Hev2].
  { assert (emits_only (fun _ => True)
              (mutation_loop env cfg round_mutation_types selected []))
      as Hemits by (apply emits_mutation_loop; intros; exact I).
    destruct (Hemits w1) as (ev2 & Hev2 & _).
    rewrite Hloop in Hev2. now exists ev2. }
  rewrite (bind_Ok _ _ _ _ _ Hloop).
  change (LogInfo [Lit "Round completed. Generated ";
                   Int (Z.of_nat (length new)); Lit " new variants"])
    with (round_completed (length new)).
  set (w3 := snd (emit (round_completed (length new)) w2)).
  assert (emit (round_completed (length new)) w2 = (Ok tt, w3)) as Hdone
    by reflexivity.
  rewrite (bind_Ok _ _ _ _ _ Hdone).
  assert (Forall (is_problem (objects w3)) problems) as Hall3
    by now apply (rescored_all_problems (objects w1)).
  destruct (score_unscored_run env problems w3 Hall3)
    as (w4 & Hscore & Hres4).
  destruct (emits_score_unscored env (fun _ => True) problems w3)
    as (ev4 & Hev4 & _).
  rewrite Hscore in Hev4. simpl in Hev4.
  rewrite (bind_Ok _ _ _ _ _ Hscore).
  assert (Forall (is_problem (objects w4)) (new ++ problems)) as Hall4.
  { apply (rescored_all_problems (objects w3)); [exact Hres4 |].
    apply Forall_app. split; [exact Hnew2 | exact Hall3]. }
  rewrite (bind_Ok _ _ _ _ _
             (sorted_by_score_run (new ++ problems) w4 Hall4)).
  exists selected, w1, new, w2, w4,
    ([start] ++ ev1 ++ ev2 ++ [round_completed (length new)] ++ ev4).
  split; [exact Hobj1 |]. split; [exact Hsub |]. split; [exact Hlen |].
  split; [exact Hloop |]. split; [exact Hscore |].
  split.
  { rewrite Hev4. subst w3. cbn [emit snd trace].
    rewrite Hev2, Hev1. subst w0. cbn [emit snd trace].
    now rewrite <- !app_assoc. }
  split; [| reflexivity].
  rewrite !elem_of_app. do 3 right. left. apply elem_of_cons. now left.
Qed.

Lemma mutate_answers cfg a t w p labels :
  always_answers env ->
  problem_at (objects w) a p labels ->
  exists prompt text,
    mutate env cfg a t w
    = (Ok (S (length (objects w))),
       after_mutation env cfg p labels prompt t text w).
Proof.
  intros (Hread & Hformat & Hchat) HP.
  rewrite (mutate_eq env cfg a t w p labels HP). cbv zeta.
  destruct (read_text env _ _) as [template |] eqn:Htemplate;
    [| now apply Hread in Htemplate].
  destruct (Hformat template (content p)) as [prompt ->].
  destruct (Hchat (1 + ticks w) (agent cfg) prompt (content p))
    as (response & choice & -> & ->).
  now exists prompt, (msg_content (message choice)).
Qed.

Lemma mutation_step_child cfg types problem new w :
  always_answers env -> types <> [] ->
  is_problem (objects w) problem ->
  exists child w',
    mutation_step env cfg types problem new w = (Ok (new ++ [child]), w').
Proof.
  intros Henv Hne HP. unfold mutation_step.
  destruct (random_choice_Ok env types w Hne) as (t & w1 & Hchoice & _).
  pose proof (objects_random_choice env types w) as Hobj1.
  rewrite Hchoice in Hobj1. simpl in Hobj1.
  rewrite (bind_Ok _ _ _ _ _ Hchoice).
  set (w2 := snd (emit (MutateCalled problem t) w1)).
  assert (emit (MutateCalled problem t) w1 = (Ok tt, w2)) as Hemit
    by reflexivity.
  rewrite (bind_Ok _ _ _ _ _ Hemit).
  assert (is_problem (objects w2) problem) as HP2 by now rewrite <- Hobj1 in HP.
  pose proof (scored_child_frame env cfg problem t w2 HP2) as Hframe.
  destruct HP2 as (p & labels & HP2).
  destruct (mutate_answers cfg problem t w2 p labels Henv HP2)
    as (prompt & text & Hm).
  set (wm := after_mutation env cfg p labels prompt t text w2) in *.
  pose proof (after_mutation_child env cfg p labels prompt t text w2)
    as Hchild.
  fold wm in Hchild. pose proof Hchild as [Hc Hl].
  assert (exists w3,
    attempt (new_problem <- mutate env cfg problem t;;
             s <- evaluate_problem env new_problem;;
             update_problem new_problem (set_score s);;
             ret new_problem) w2 = (Ok (Ok (S (length (objects w2)))), w3))
    as [w3 Hattempt].
  { unfold attempt. rewrite (bind_Ok _ _ _ _ _ Hm).
    rewrite (bind_Ok _ _ _ _ _ (evaluate_problem_at env wm _ _ _ Hchild)).
    unfold bind, update_problem, ret. rewrite Hc. cbn [fst snd].
    eauto. }
  unfold keeps_old in Hframe. rewrite Hattempt in Hframe. cbn [snd] in Hframe.
  rewrite (bind_Ok _ _ _ _ _ Hattempt).
  destruct (save_or_report env (S (length (objects w2))) problem w3)
    as (w4 & Hsave & _).
  { exists p, labels. destruct HP2. split; now apply Hframe. }
  rewrite (bind_Ok _ _ _ _ _ Hsave). unfold ret. eauto.
Qed.

Lemma mutation_loop_children cfg types selected new w :
  always_answers env -> types <> [] ->
  Forall (is_problem (objects w)) selected ->
  exists children w',
    mutation_loop env cfg types selected new w = (Ok (new ++ children), w')
    /\ length children = length selected.
Proof.
  intros Henv Hne. revert new w.
  induction selected as [| problem rest IH]; intros new w Hall; simpl.
  - exists [], w. now rewrite app_nil_r.
  - apply Forall_cons in Hall as [HP Hrest].
    destruct (mutation_step_child cfg types problem new w Henv Hne HP)
      as (child & w1 & Hstep).
    rewrite (bind_Ok _ _ _ _ _ Hstep).
    pose proof (mutation_step_frame env cfg types problem new w HP) as Hframe.
    unfold keeps_old in Hframe. rewrite Hstep in Hframe. cbn [snd] in Hframe.
    destruct (IH (new ++ [child]) w1) as (children & w' & Hrun & Hlen).
    { eapply Forall_impl; [exact Hrest |]. intros a (p & labels & Ha & Hl).
      exists p, labels. split; now apply Hframe. }
    exists (child :: children), w'. split; [| simpl; now rewrite Hlen].
    rewrite Hrun. now rewrite <- app_assoc.
Qed.

End RoundSteps.

(** X22.  A round changes nothing of a problem that was in the store before
    it but, at most, its score: a problem of the population whose score is 0
    gets the score [evaluate_problem] gives to its content and its lineage;
    every other problem (one whose score is not 0, or one that is not in the
    population) is after the round exactly as it was, with the same
    lineage. *)
Theorem process_round_keeps_population (env : Env) (cfg : Config)
    (problems : list loc) (w : World) (a : loc) (p : Problem)
    (labels : list string) :
  (0 <= num_problems cfg)%Z ->
  Forall (is_problem (objects w)) problems ->
  problem_at (objects w) a p labels ->
  exists result w',
    process_round env cfg problems w = (Ok result, w')
    /\ problem_at (objects w') a
         (if bool_decide (a ∈ problems) then scored_once env p labels else p)
         labels.
Proof.
  intros Hnum Hall [Ha Hl].
  destruct (process_round_steps env cfg problems w Hnum Hall)
    as (selected & w1 & new & w2 & w4 & events & Hobj1 & Hsub & _ & Hloop
        & Hscore & _ & _ & Hrun).
  assert (Forall (is_problem (objects w1)) problems) as Hall1 by congruence.
  assert (Forall (is_problem (objects w1)) selected) as Hsel.
  { rewrite Forall_forall in Hall1 |- *. intros b Hb. apply Hall1.
    eapply elem_of_submseteq; eassumption. }
  pose proof (mutation_loop_frame env cfg round_mutation_types selected [] w1
                Hsel) as Hframe.
  unfold keeps_old in Hframe. rewrite Hloop in Hframe. cbn [snd] in Hframe.
  set (w3 := snd (emit (round_completed (length new)) w2)) in *.
  assert (forall b o, objects w !! b = Some o -> objects w3 !! b = Some o)
    as Hold.
  { intros b o Hb. apply Hframe. now rewrite Hobj1. }
  destruct (score_unscored_effect env problems w3 a p labels) as (w' & Hw' & HP).
  { eapply Forall_impl; [exact Hall |]. intros b (pb & lb & Hb & Hlb).
    exists pb, lb. split; now apply Hold. }
  { split; now apply Hold. }
  rewrite Hscore in Hw'. injection Hw' as <-.
  eexists _, w4. split; [exact Hrun | exact HP].
Qed.

Lemma process_round_keeps_population_witness :
  exists result w',
    process_round demo_env demo_config [1] demo_world = (Ok result, w')
    /\ problem_at (objects w') 3
         (if bool_decide (3 ∈ [1]) then scored_once demo_env demo_twin
                                          ["rephrase"]
          else demo_twin)
         ["rephrase"].
Proof.
  apply (process_round_keeps_population demo_env demo_config [1] demo_world 3
           demo_twin ["rephrase"]).
  - simpl. lia.
  - repeat constructor. exists demo_seed, ["rephrase"]. split; reflexivity.
  - split; reflexivity.
Defined.

(** X23.  When the prompt files are there, every template can be formatted
    and the backend answers every request with a choice, a round makes one
    child for each problem it sampled, whether the children can be written to
    disk or not: it logs that [min(num_problems, len(problems))] variants were
    generated and returns [min(topk_problems, len(problems) + that number)]
    problems. *)
Theorem process_round_children (env : Env) (cfg : Config)
    (problems : list loc) (w : World) :
  always_answers env ->
  (0 <= num_problems cfg)%Z -> (0 <= topk_problems cfg)%Z ->
  Forall (is_problem (objects w)) problems ->
  let sampled :=
    Z.to_nat (Z.min (num_problems cfg) (Z.of_nat (length problems))) in
  exists result w' events,
    process_round env cfg problems w = (Ok result, w')
    /\ trace w' = trace w ++ events
    /\ round_completed sampled ∈ events
    /\ length result
       = Nat.min (Z.to_nat (topk_problems cfg)) (sampled + length problems).
Proof.
  intros Henv Hnum Htopk Hall sampled.
  destruct (process_round_steps env cfg problems w Hnum Hall)
    as (selected & w1 & new & w2 & w4 & events & Hobj1 & Hsub & Hlen & Hloop
        & _ & Htrace & Hevent & Hrun).
  assert (Forall (is_problem (objects w1)) selected) as Hsel.
  { rewrite Hobj1. rewrite Forall_forall in Hall |- *. intros b Hb.
    apply Hall. eapply elem_of_submseteq; eassumption. }
  destruct (mutation_loop_children env cfg round_mutation_types selected []
              w1 Henv ltac:(discriminate) Hsel)
    as (children & w2' & Hchildren & Hcount).
  rewrite Hloop in Hchildren. injection Hchildren as -> <-.
  simpl in Hevent, Hrun. rewrite Hcount, Hlen in Hevent.
  eexists _, w4, events. split; [exact Hrun |]. split; [exact Htrace |].
  split; [exact Hevent |].
  rewrite slice_to_length by exact Htopk.
  rewrite length_map, (Permutation_length (sort_desc_Permutation _)),
    length_map, length_app.
  unfold sampled. now rewrite Hcount, Hlen.
Qed.

Lemma process_round_children_witness :
  exists result w' events,
    process_round (full_disk_env) demo_config [1; 3] demo_world
    = (Ok result, w')
    /\ trace w' = trace demo_world ++ events
    /\ round_completed 2 ∈ events
    /\ length result = 2.
Proof.
  apply (process_round_children full_disk_env demo_config [1; 3] demo_world).
  - split; [discriminate |]. split; intros; simpl; eauto.
  - simpl. lia.
  - simpl. lia.
  - repeat constructor.
    + exists demo_seed, ["rephrase"]. split; reflexivity.
    + exists demo_twin, ["rephrase"]. split; reflexivity.
Defined.

(** ** The scorer: the range of its parts *)

Section Ranges.
Context (env : Env).

Lemma int_div_le_py_min_sum (a b c : Q) :
  (0 <= a -> 0 <= b -> 0 <= c ->
   b / 3 <= (a + b + c) / 3 /\ c / 3 <= (a + b + c) / 3)%Q.
Proof.
  intros Ha Hb Hc. split.
  - apply Qle_shift_div_l; [reflexivity |].
    field_simplify (b / 3 * 3)%Q. lra.
  - apply Qle_shift_div_l; [reflexivity |].
    field_simplify (c / 3 * 3)%Q. lra.
Qed.

Lemma complexity_value_parts text :
  (Z.of_nat (length (filter (fun word => PyStr.lower word ∈ technical_terms)
                            (PyStr.split text))) # 15
   <= complexity_value text
   /\ Z.of_nat (PyStr.count text (String "010" "- ")) # 30
      <= complexity_value text)%Q.
Proof.
  unfold complexity_value. rewrite tech_terms_counted.
  change (Z.of_nat (length technical_terms)) with 5%Z.
  set (words := length (PyStr.split text)).
  set (terms := length (filter _ _)).
  set (items := PyStr.count _ _).
  pose proof (py_min_nonneg (int_div words 100) 1
                (int_div_nonneg _ _) ltac:(discriminate)) as H1.
  pose proof (int_div_nonneg terms 5) as H2.
  pose proof (int_div_nonneg items 10) as H3.
  destruct (int_div_le_py_min_sum _ _ _ H1 H2 H3) as [Hterms Hitems].
  split.
  - eapply Qle_trans; [| exact Hterms]. rewrite int_div_Qmake.
    unfold Qdiv, Qle, Qmult, Qinv. simpl. lia.
  - eapply Qle_trans; [| exact Hitems]. rewrite int_div_Qmake.
    unfold Qdiv, Qle, Qmult, Qinv. simpl. lia.
Qed.


Lemma score_value_lower text labels :
  ((flesch_reading_ease env text / 100 + 1) / 12
   + (Z.of_nat (length labels) # 40)
   <= score_value env text labels)%Q.
Proof.
  unfold score_value, py_sum. simpl fold_left.
  change (inject_Z 4) with 4%Q.
  pose proof (complexity_value_nonneg text) as Hc.
  pose proof (clarity_value_ge env text) as Hcl.
  pose proof (diversity_value_nonneg labels) as Hd.
  assert (int_div (length labels) 10 == Z.of_nat (length labels) # 10)%Q
    as Hq by apply int_div_Qmake.
  assert ((Z.of_nat (length labels) # 40)
          == (Z.of_nat (length labels) # 10) / 4)%Q as Hforty.
  { unfold Qeq, Qdiv, Qmult, Qinv. simpl. lia. }
  rewrite Hforty, Hq.
  set (c := complexity_value text) in *.
  set (cl := clarity_value env text) in *.
  set (d := diversity_value labels) in *.
  set (r := (flesch_reading_ease env text / 100)%Q) in *.
  set (m := (Z.of_nat (length labels) # 10)%Q) in *.
  assert ((r + 1) / 3 == (r + 1) * (1 # 3))%Q as H3 by reflexivity.
  assert ((r + 1) / 12 == (r + 1) * (1 # 12))%Q as H12 by reflexivity.
  assert (m / 4 == m * (1 # 4))%Q as H4 by reflexivity.
  assert ((0 + c + cl + d + m) / 4 == (0 + c + cl + d + m) * (1 # 4))%Q
    as Hsum by reflexivity.
  rewrite H3 in Hcl. rewrite H12, H4, Hsum. lra.
Qed.

End Ranges.

(** X24.  [_calculate_complexity] never returns a negative value and only
    reads the problem.  Its keyword and list parts have no cap: each word of
    the content that is a technical term, in any letter case, is worth
    1/15, and each line that starts a list item is worth 1/30. *)
Theorem calculate_complexity_bounds (w : World) (v : loc) (p : Problem) :
  objects w !! v = Some (ObjProblem p) ->
  exists c,
    _calculate_complexity v w = (Ok c, w)
    /\ (0 <= c)%Q
    /\ (Z.of_nat (length (filter (fun word =>
                                    PyStr.lower word ∈ technical_terms)
                                 (PyStr.split (content p)))) # 15 <= c)%Q
    /\ (Z.of_nat (PyStr.count (content p) (String "010" "- ")) # 30 <= c)%Q.
Proof.
  intros Hv. exists (complexity_value (content p)).
  split; [now apply calculate_complexity_at |].
  split; [apply complexity_value_nonneg | apply complexity_value_parts].
Qed.

Lemma calculate_complexity_bounds_witness :
  exists c,
    _calculate_complexity 1 demo_world = (Ok c, demo_world)
    /\ (0 <= c)%Q
    /\ (Z.of_nat (length (filter (fun word =>
                                    PyStr.lower word ∈ technical_terms)
                                 (PyStr.split (content demo_seed)))) # 15
        <= c)%Q
    /\ (Z.of_nat (PyStr.count (content demo_seed) (String "010" "- ")) # 30
        <= c)%Q.
Proof.
  apply (calculate_complexity_bounds demo_world 1 demo_seed). reflexivity.
Defined.



(** X26.  The score of a problem is at least a twelfth of (reading ease / 100
    + 1) plus a fortieth for each label of its lineage; so it is never
    negative when the reading ease of the content is at least -100. *)
Theorem evaluate_problem_lower_bound (env : Env) (w : World) (v : loc)
    (p : Problem) (labels : list string) :
  problem_at (objects w) v p labels ->
  exists s,
    evaluate_problem env v w = (Ok s, w)
    /\ ((flesch_reading_ease env (content p) / 100 + 1) / 12
        + (Z.of_nat (length labels) # 40) <= s)%Q
    /\ ((-100 <= flesch_reading_ease env (content p))%Q -> (0 <= s)%Q).
Proof.
  intros HP. exists (score_value env (content p) labels).
  split; [now apply evaluate_problem_at |].
  pose proof (score_value_lower env (content p) labels) as Hlow.
  split; [exact Hlow |]. intros Hease.
  eapply Qle_trans; [| exact Hlow].
  assert (0 <= Z.of_nat (length labels) # 40)%Q as Hlabels
    by (unfold Qle; simpl; lia).
  assert (0 <= (flesch_reading_ease env (content p) / 100 + 1) / 12)%Q.
  { apply Qle_shift_div_l; [reflexivity |].
    assert (-1 <= flesch_reading_ease env (content p) / 100)%Q.
    { apply Qle_shift_div_l; [reflexivity |]. lra. }
    lra. }
  lra.
Qed.

Lemma evaluate_problem_lower_bound_witness :
  exists s,
    evaluate_problem demo_env 1 demo_world = (Ok s, demo_world)
    /\ ((flesch_reading_ease demo_env (content demo_seed) / 100 + 1) / 12
        + (Z.of_nat (length ["rephrase"]) # 40) <= s)%Q
    /\ ((-100 <= flesch_reading_ease demo_env (content demo_seed))%Q
        -> (0 <= s)%Q).
Proof.
  apply (evaluate_problem_lower_bound demo_env demo_world 1 demo_seed).
  split; reflexivity.
Defined.
